(** * The Datalog rule inliner ([dl_mk_rule_inliner.cpp])

    A shallow embedding of [datalog::mk_rule_inliner] and of
    [datalog::rule_unifier], together with the part of [params.cpp] the
    inliner reads its flags from.  The term representation, the unifier
    primitive, the rule manager, the interpreted-tail simplifier, the
    stratifier and the unification index are collaborators of the pass;
    they enter the development through the [Host] interface. *)

From Stdlib Require Import String List Bool Arith NArith ZArith Lia.
From Stdlib Require QArith.
Import ListNotations.

Set Implicit Arguments.

(** ** Predicate declarations *)

(** A [func_decl] is known to the pass through its AST id and its arity. *)
Record func_decl : Type := mk_func_decl {
  get_id : nat;
  get_arity : nat
}.

Definition decl_eqb (a b : func_decl) : bool :=
  (get_id a =? get_id b) && (get_arity a =? get_arity b).

(** [obj_hashtable<func_decl>]: membership and insertion. *)
Definition decl_set := list func_decl.

Definition contains (s : decl_set) (p : func_decl) : bool :=
  existsb (decl_eqb p) s.

Definition insert (p : func_decl) (s : decl_set) : decl_set :=
  if contains s p then s else p :: s.

(** ** Occurrence counters

    [m_head_pred_ctr] and its siblings map a declaration to a count; [get]
    of a declaration never counted is 0.  Counts are unsigned machine
    integers: the arithmetic is written with its wrap-around at 2^32. *)
Definition wrap32 (n : N) : N := (n mod 4294967296)%N.

Definition counter := list (func_decl * N).

Fixpoint ctr_get (c : counter) (p : func_decl) : N :=
  match c with
  | [] => 0%N
  | (q, n) :: c' => if decl_eqb p q then n else ctr_get c' p
  end.

Definition ctr_set (c : counter) (p : func_decl) (n : N) : counter :=
  (p, n) :: c.

Definition ctr_inc (c : counter) (p : func_decl) : counter :=
  ctr_set c p (wrap32 (ctr_get c p + 1)).

(** ** Parameters ([params.cpp]) *)

Module Params.

Inductive param_kind := CPK_UINT | CPK_BOOL | CPK_DOUBLE | CPK_STRING.

Record value := mk_value {
  m_kind : param_kind;
  m_bool_value : bool;
  m_uint_value : N
}.

Definition entry := (string * value)%type.

(** [class params]: the vector [m_entries]. *)
Definition params := list entry.

(** [GET_VALUE] with [GET_SIMPLE_VALUE(m_bool_value, CPK_BOOL)]: the first
    entry with the key and the kind [CPK_BOOL] decides. *)
Fixpoint get_bool (p : params) (k : string) (_default : bool) : bool :=
  match p with
  | [] => _default
  | (k', v) :: p' =>
      if String.eqb k' k then
        match m_kind v with
        | CPK_BOOL => m_bool_value v
        | _ => get_bool p' k _default
        end
      else get_bool p' k _default
  end.

(** [SET_SIMPLE_VALUE(m_bool_value, CPK_BOOL)]: overwrite the first entry
    with the key, whatever its kind, or push a new entry. *)
Fixpoint set_bool (p : params) (k : string) (v : bool) : params :=
  match p with
  | [] => [(k, mk_value CPK_BOOL v 0)]
  | (k', old) :: p' =>
      if String.eqb k' k then (k', mk_value CPK_BOOL v (m_uint_value old)) :: p'
      else (k', old) :: set_bool p' k v
  end.

(** [params_ref]: a possibly null pointer to a [params]. *)
Definition params_ref := option params.

Definition ref_get_bool (r : params_ref) (k : string) (_default : bool) : bool :=
  match r with
  | Some p => get_bool p k _default
  | None => _default
  end.

End Params.

(** ** The classes of [params.cpp]

    [Params] holds what the inliner reads.  This module holds the three
    classes of the file with all their kinds of values: the descriptions
    [param_descrs], the entries of a [params] object, and the references
    [params_ref], which share [params] objects and count the references to
    them.  Names are the non-numerical symbols, by their string; a double is
    its 64-bit pattern, an AST its id. *)
Module ParamStore.

Inductive param_kind : Type :=
| CPK_UINT
| CPK_BOOL
| CPK_DOUBLE
| CPK_NUMERAL
| CPK_STRING
| CPK_SYMBOL
| CPK_EXPR
| CPK_FUNC_DECL
| CPK_SORT
| CPK_INVALID.

Definition kind_eqb (a b : param_kind) : bool :=
  match a, b with
  | CPK_UINT, CPK_UINT
  | CPK_BOOL, CPK_BOOL
  | CPK_DOUBLE, CPK_DOUBLE
  | CPK_NUMERAL, CPK_NUMERAL
  | CPK_STRING, CPK_STRING
  | CPK_SYMBOL, CPK_SYMBOL
  | CPK_EXPR, CPK_EXPR
  | CPK_FUNC_DECL, CPK_FUNC_DECL
  | CPK_SORT, CPK_SORT
  | CPK_INVALID, CPK_INVALID => true
  | _, _ => false
  end.

Definition symbol := string.

(** *** [param_descrs::imp] *)

Definition info := (param_kind * string)%type.

(** [dictionary<info> m_info], a map that holds a name once, and the vector
    [m_names] *)
Record param_descrs : Type := mk_param_descrs {
  m_info : list (symbol * info);
  m_names : list symbol
}.

Fixpoint find (d : list (symbol * info)) (name : symbol) : option info :=
  match d with
  | [] => None
  | (n, i) :: d' => if String.eqb n name then Some i else find d' name
  end.

Definition insert (p : param_descrs) (name : symbol) (k : param_kind)
    (descr : string) : param_descrs :=
  match find (m_info p) name with
  | Some _ => p
  | None => mk_param_descrs (m_info p ++ [(name, (k, descr))]) (m_names p ++ [name])
  end.

Definition erase (p : param_descrs) (name : symbol) : param_descrs :=
  mk_param_descrs
    (filter (fun e => negb (String.eqb (fst e) name)) (m_info p)) (m_names p).

Definition get_kind (p : param_descrs) (name : symbol) : param_kind :=
  match find (m_info p) name with
  | Some i => fst i
  | None => CPK_INVALID
  end.

Definition size (p : param_descrs) : nat := length (m_names p).

(** [m_names[idx]]; there is no name beyond the end of the vector *)
Definition get_param_name (p : param_descrs) (idx : nat) : option symbol :=
  nth_error (m_names p) idx.

Definition insert_max_memory (r : param_descrs) : param_descrs :=
  insert r ":max-memory"%string CPK_UINT
    "(default: infty) maximum amount of memory in megabytes."%string.

Definition insert_max_steps (r : param_descrs) : param_descrs :=
  insert r ":max-steps"%string CPK_UINT "(default: infty) maximum number of steps."%string.

Definition insert_produce_models (r : param_descrs) : param_descrs :=
  insert r ":produce-models"%string CPK_BOOL "(default: false) model generation."%string.

Definition insert_produce_proofs (r : param_descrs) : param_descrs :=
  insert r ":produce-proofs"%string CPK_BOOL "(default: false) proof generation."%string.

Definition insert_timeout (r : param_descrs) : param_descrs :=
  insert r ":timeout"%string CPK_UINT "(default: infty) timeout in milliseconds."%string.

(** *** [class params]: the entries *)

(** [params::value]: the kind and the member of the union that goes with
    it *)
Inductive value : Type :=
| VBool (b : bool)
| VUint (n : N)
| VDouble (bits : N)
| VNumeral (q : QArith_base.Q)
| VString (s : string)
| VSymbol (s : symbol)
| VExpr (a : nat)
| VFuncDecl (a : nat)
| VSort (a : nat).

Definition m_kind (v : value) : param_kind :=
  match v with
  | VBool _ => CPK_BOOL
  | VUint _ => CPK_UINT
  | VDouble _ => CPK_DOUBLE
  | VNumeral _ => CPK_NUMERAL
  | VString _ => CPK_STRING
  | VSymbol _ => CPK_SYMBOL
  | VExpr _ => CPK_EXPR
  | VFuncDecl _ => CPK_FUNC_DECL
  | VSort _ => CPK_SORT
  end.

Definition entry := (symbol * value)%type.

(** the vector [m_entries] *)
Definition entries := list entry.

Definition empty (es : entries) : bool :=
  match es with
  | [] => true
  | _ :: _ => false
  end.

(** [CONTAINS(k)] *)
Fixpoint contains (es : entries) (k : symbol) : bool :=
  match es with
  | [] => false
  | (k', _) :: es' => if String.eqb k' k then true else contains es' k
  end.

(** [params::reset()] *)
Definition reset (es : entries) : entries := [].

(** [RESET(k)]: the first entry with the key goes, the entries behind it
    move up *)
Fixpoint reset_key (es : entries) (k : symbol) : entries :=
  match es with
  | [] => []
  | (k', v) :: es' =>
      if String.eqb k' k then es' else (k', v) :: reset_key es' k
  end.

(** [GET_VALUE(MATCH_CODE, KIND)]: the first entry with the key and the
    kind *)
Fixpoint get_value (es : entries) (k : symbol) (kind : param_kind)
    : option value :=
  match es with
  | [] => None
  | (k', v) :: es' =>
      if String.eqb k' k && kind_eqb (m_kind v) kind then Some v
      else get_value es' k kind
  end.

Definition get_bool (es : entries) (k : symbol) (_default : bool) : bool :=
  match get_value es k CPK_BOOL with
  | Some (VBool b) => b
  | _ => _default
  end.

Definition get_uint (es : entries) (k : symbol) (_default : N) : N :=
  match get_value es k CPK_UINT with
  | Some (VUint n) => n
  | _ => _default
  end.

Definition get_double (es : entries) (k : symbol) (_default : N) : N :=
  match get_value es k CPK_DOUBLE with
  | Some (VDouble d) => d
  | _ => _default
  end.

Definition get_str (es : entries) (k : symbol) (_default : string) : string :=
  match get_value es k CPK_STRING with
  | Some (VString s) => s
  | _ => _default
  end.

Definition get_sym (es : entries) (k : symbol) (_default : symbol) : symbol :=
  match get_value es k CPK_SYMBOL with
  | Some (VSymbol s) => s
  | _ => _default
  end.

Definition get_expr (es : entries) (k : symbol) (_default : nat) : nat :=
  match get_value es k CPK_EXPR with
  | Some (VExpr a) => a
  | _ => _default
  end.

Definition get_func_decl (es : entries) (k : symbol) (_default : nat) : nat :=
  match get_value es k CPK_FUNC_DECL with
  | Some (VFuncDecl a) => a
  | _ => _default
  end.

Definition get_sort (es : entries) (k : symbol) (_default : nat) : nat :=
  match get_value es k CPK_SORT with
  | Some (VSort a) => a
  | _ => _default
  end.

(** [static_cast<int>] of an unsigned value: the value read as a signed
    32-bit integer *)
Definition to_int (n : N) : Z :=
  if (n <? 2147483648)%N then Z.of_N n else (Z.of_N n - 4294967296)%Z.

(** [params::get_rat]: the first entry with the key that holds a numeral or
    an unsigned value *)
Fixpoint get_rat (es : entries) (k : symbol) (_default : QArith_base.Q)
    : QArith_base.Q :=
  match es with
  | [] => _default
  | (k', v) :: es' =>
      if String.eqb k' k then
        match v with
        | VNumeral q => q
        | VUint n => QArith_base.inject_Z (to_int n)
        | _ => get_rat es' k _default
        end
      else get_rat es' k _default
  end.

(** [SET_VALUE(MATCH_CODE, ADD_CODE)]: the first entry with the key takes
    the kind and the value, or a new entry is pushed *)
Fixpoint set_value (es : entries) (k : symbol) (v : value) : entries :=
  match es with
  | [] => [(k, v)]
  | (k', old) :: es' =>
      if String.eqb k' k then (k', v) :: es'
      else (k', old) :: set_value es' k v
  end.

Definition set_bool (es : entries) (k : symbol) (v : bool) : entries :=
  set_value es k (VBool v).

Definition set_uint (es : entries) (k : symbol) (v : N) : entries :=
  set_value es k (VUint v).

Definition set_double (es : entries) (k : symbol) (v : N) : entries :=
  set_value es k (VDouble v).

Definition set_str (es : entries) (k : symbol) (v : string) : entries :=
  set_value es k (VString v).

Definition set_rat (es : entries) (k : symbol) (v : QArith_base.Q) : entries :=
  set_value es k (VNumeral v).

Definition set_sym (es : entries) (k : symbol) (v : symbol) : entries :=
  set_value es k (VSymbol v).

Definition set_expr (es : entries) (k : symbol) (v : nat) : entries :=
  set_value es k (VExpr v).

Definition set_func_decl (es : entries) (k : symbol) (v : nat) : entries :=
  set_value es k (VFuncDecl v).

Definition set_sort (es : entries) (k : symbol) (v : nat) : entries :=
  set_value es k (VSort v).

(** [params::validate]: the exception thrown, if any *)
Inductive validation : Type :=
| Valid
| UnknownParameter (k : symbol)
| KindMismatch (k : symbol).

Fixpoint validate (es : entries) (p : param_descrs) : validation :=
  match es with
  | [] => Valid
  | (k, v) :: es' =>
      let expected := get_kind p k in
      if kind_eqb expected CPK_INVALID then UnknownParameter k
      else if negb (kind_eqb (m_kind v) expected) then KindMismatch k
      else validate es' p
  end.

(** *** [class params]: the objects, and [params_ref] *)

Record params : Type := mk_params {
  m_manager : option nat;
  m_entries : entries;
  m_ref_count : N
}.

Definition with_entries (o : params) (es : entries) : params :=
  mk_params (m_manager o) es (m_ref_count o).

Definition with_ref_count (o : params) (c : N) : params :=
  mk_params (m_manager o) (m_entries o) c.

Definition with_manager (o : params) (m : option nat) : params :=
  mk_params m (m_entries o) (m_ref_count o).

(** the objects by address; a deallocated object leaves a hole *)
Definition heap := list (option params).

(** [params * m_params]: null or an address *)
Definition params_ref := option nat.

Definition lookup (h : heap) (a : nat) : option params :=
  match nth_error h a with
  | Some (Some o) => Some o
  | _ => None
  end.

Fixpoint store (h : heap) (a : nat) (x : option params) : heap :=
  match h, a with
  | [], _ => []
  | _ :: h', 0 => x :: h'
  | y :: h', S a' => y :: store h' a' x
  end.

(** an operation on the object at an address; an address that holds no
    object is left alone *)
Definition modify (h : heap) (a : nat) (f : params -> params) : heap :=
  match lookup h a with
  | Some o => store h a (Some (f o))
  | None => h
  end.

(** [alloc(params)] *)
Definition alloc (h : heap) : heap * nat :=
  (h ++ [Some (mk_params None [] 0)], length h).

Definition inc_ref (h : heap) (a : nat) : heap :=
  modify h a (fun o => with_ref_count o (wrap32 (m_ref_count o + 1))).

(** [dec_ref]: the count goes down by one, modulo 2^32, and the object is
    deallocated when it reaches 0 *)
Definition dec_ref (h : heap) (a : nat) : heap :=
  match lookup h a with
  | Some o =>
      let c := wrap32 (m_ref_count o + 4294967295) in
      if (c =? 0)%N then store h a None
      else store h a (Some (with_ref_count o c))
  | None => h
  end.

(** [params_ref::~params_ref] *)
Definition ref_destroy (h : heap) (this : params_ref) : heap :=
  match this with
  | Some a => dec_ref h a
  | None => h
  end.

(** [params_ref::operator=] *)
Definition ref_assign (h : heap) (this p : params_ref) : heap * params_ref :=
  let h := match p with
           | Some a => inc_ref h a
           | None => h
           end in
  let h := match this with
           | Some a => dec_ref h a
           | None => h
           end in
  (h, p).

(** [params_ref::params_ref(params_ref const & p)] *)
Definition ref_new (h : heap) (p : params_ref) : heap * params_ref :=
  ref_assign h None p.

(** one round of the loop of [copy_core]: the switch on the kind *)
Definition copy_entry (es : entries) (e : entry) : entries :=
  match snd e with
  | VBool b => set_bool es (fst e) b
  | VUint n => set_uint es (fst e) n
  | VDouble d => set_double es (fst e) d
  | VNumeral q => set_rat es (fst e) q
  | VSymbol s => set_sym es (fst e) s
  | VString s => set_str es (fst e) s
  | VExpr a => set_expr es (fst e) a
  | VFuncDecl a => set_func_decl es (fst e) a
  | VSort a => set_sort es (fst e) a
  end.

(** [params_ref::copy_core]: the entries of [src] are set, one by one, in
    the object of the reference *)
Definition copy_core (h : heap) (this : nat) (src : params_ref) : heap :=
  match src with
  | None => h
  | Some s =>
      match lookup h s with
      | Some so =>
          modify h this
            (fun o => with_entries o
                        (fold_left copy_entry (m_entries so) (m_entries o)))
      | None => h
      end
  end.

(** [params_ref::init]: afterwards the reference has an object of its own *)
Definition init (h : heap) (this : params_ref) : heap * nat :=
  match this with
  | None =>
      let '(h, a) := alloc h in
      (inc_ref h a, a)
  | Some old =>
      match lookup h old with
      | Some o =>
          if (1 <? m_ref_count o)%N then
            let '(h, a) := alloc h in
            let h := inc_ref h a in
            let h := modify h a (fun n => with_manager n (m_manager o)) in
            let h := copy_core h a (Some old) in
            (dec_ref h old, a)
          else (h, old)
      | None => (h, old)
      end
  end.

(** [params_ref::copy] *)
Definition ref_copy (h : heap) (this src : params_ref) : heap * params_ref :=
  match this with
  | None => ref_assign h this src
  | Some _ =>
      let '(h, a) := init h this in
      (copy_core h a src, Some a)
  end.

(** the entries a reference sees: none through a null reference *)
Definition ref_entries (h : heap) (this : params_ref) : entries :=
  match this with
  | Some a =>
      match lookup h a with
      | Some o => m_entries o
      | None => []
      end
  | None => []
  end.

Definition ref_get_bool (h : heap) (this : params_ref) (k : symbol)
    (_default : bool) : bool :=
  match this with
  | Some _ => get_bool (ref_entries h this) k _default
  | None => _default
  end.

Definition ref_get_uint (h : heap) (this : params_ref) (k : symbol)
    (_default : N) : N :=
  match this with
  | Some _ => get_uint (ref_entries h this) k _default
  | None => _default
  end.

Definition ref_get_double (h : heap) (this : params_ref) (k : symbol)
    (_default : N) : N :=
  match this with
  | Some _ => get_double (ref_entries h this) k _default
  | None => _default
  end.

Definition ref_get_str (h : heap) (this : params_ref) (k : symbol)
    (_default : string) : string :=
  match this with
  | Some _ => get_str (ref_entries h this) k _default
  | None => _default
  end.

Definition ref_get_sym (h : heap) (this : params_ref) (k : symbol)
    (_default : symbol) : symbol :=
  match this with
  | Some _ => get_sym (ref_entries h this) k _default
  | None => _default
  end.

Definition ref_get_rat (h : heap) (this : params_ref) (k : symbol)
    (_default : QArith_base.Q) : QArith_base.Q :=
  match this with
  | Some _ => get_rat (ref_entries h this) k _default
  | None => _default
  end.

Definition ref_empty (h : heap) (this : params_ref) : bool :=
  match this with
  | Some _ => empty (ref_entries h this)
  | None => true
  end.

Definition ref_contains (h : heap) (this : params_ref) (k : symbol) : bool :=
  match this with
  | Some _ => contains (ref_entries h this) k
  | None => false
  end.

Definition ref_validate (h : heap) (this : params_ref) (p : param_descrs)
    : validation :=
  match this with
  | Some _ => validate (ref_entries h this) p
  | None => Valid
  end.

(** [params_ref::reset()] and [params_ref::reset(k)] *)
Definition ref_reset (h : heap) (this : params_ref) : heap :=
  match this with
  | Some a => modify h a (fun o => with_entries o (reset (m_entries o)))
  | None => h
  end.

Definition ref_reset_key (h : heap) (this : params_ref) (k : symbol) : heap :=
  match this with
  | Some a => modify h a (fun o => with_entries o (reset_key (m_entries o) k))
  | None => h
  end.

(** the setters of [params_ref]: [init()], then the setter of the object *)
Definition ref_set (h : heap) (this : params_ref) (f : entries -> entries)
    : heap * params_ref :=
  let '(h, a) := init h this in
  (modify h a (fun o => with_entries o (f (m_entries o))), Some a).

Definition ref_set_bool (h : heap) (this : params_ref) (k : symbol) (v : bool)
    : heap * params_ref :=
  ref_set h this (fun es => set_bool es k v).

Definition ref_set_uint (h : heap) (this : params_ref) (k : symbol) (v : N)
    : heap * params_ref :=
  ref_set h this (fun es => set_uint es k v).

Definition ref_set_double (h : heap) (this : params_ref) (k : symbol) (v : N)
    : heap * params_ref :=
  ref_set h this (fun es => set_double es k v).

Definition ref_set_str (h : heap) (this : params_ref) (k : symbol) (v : string)
    : heap * params_ref :=
  ref_set h this (fun es => set_str es k v).

Definition ref_set_rat (h : heap) (this : params_ref) (k : symbol)
    (v : QArith_base.Q) : heap * params_ref :=
  ref_set h this (fun es => set_rat es k v).

Definition ref_set_sym (h : heap) (this : params_ref) (k : symbol) (v : symbol)
    : heap * params_ref :=
  ref_set h this (fun es => set_sym es k v).

Definition ref_set_manager (h : heap) (this : params_ref) (m : nat)
    : heap * params_ref :=
  let '(h, a) := init h this in
  (modify h a (fun o => with_manager o (Some m)), Some a).

(** *** Keys, entries and descriptions used in the examples *)

Definition k_timeout : symbol := ":timeout"%string.
Definition k_models : symbol := ":produce-models"%string.

(** [(params :timeout 7)] *)
Definition timeout_entries : entries := [(k_timeout, VUint 7)].

(** the descriptions of [:timeout] and [:produce-models] *)
Definition standard_descrs : param_descrs :=
  insert_produce_models (insert_timeout (mk_param_descrs [] [])).

(** [(params :produce-models true)] *)
Definition models_entries : entries := [(k_models, VBool true)].

(** two objects, each with one reference *)
Definition two_objects : heap :=
  [Some (mk_params None timeout_entries 1);
   Some (mk_params None models_entries 1)].

(** an object two references share *)
Definition shared_object : heap := [Some (mk_params None timeout_entries 2)].

End ParamStore.

(** ** Rules *)

(** A rule keeps its tail in three runs: the positive uninterpreted atoms,
    the negated uninterpreted atoms, then the interpreted constraints. *)
Record rule (app : Type) : Type := mk_rule {
  get_head : app;
  pos_tail : list app;
  neg_tail : list app;
  interp_tail : list app
}.

Arguments mk_rule {app}.

(** [rule_stratifier]: the strata in topological order and the stratum
    number of a predicate.  An [item_set] handed out by the stratifier is
    never empty: it is its first element and the others. *)
Definition stratum := (func_decl * list func_decl)%type.

Record rule_stratifier : Type := mk_stratifier {
  get_strats : list stratum;
  get_predicate_strat : func_decl -> nat
}.

(** ** The collaborators of the pass *)

Class Host (app : Type) : Type := {
  (** AST manager *)
  app_decl : app -> func_decl;
  app_eqb : app -> app -> bool;
  has_quantifiers : app -> bool;
  (** substitution and unifier primitive *)
  substitution : Type;
  m_unif : app -> app -> option substitution;
  subst_apply : substitution -> nat -> nat -> app -> app;
  (** rule manager *)
  get_max_var : rule app -> nat;
  rm_mk : app -> list app -> list bool -> rule app;
  rm_norm_vars : rule app -> rule app;
  rm_fix_unbound_vars : rule app -> rule app;
  (** interpreted tail simplifier: [None] when the tail is unsatisfiable *)
  interp_simplifier : rule app -> option (rule app);
  (** [rule_set::close]: [None] when the set is not stratifiable *)
  close : list (rule app) -> option rule_stratifier;
  (** unification index: does an indexed expression unify with a query *)
  index_unify : app -> app -> bool
}.

(** ** Results of loops and checked calls

    The worklist of [transform_rule], the cycle breaker, and the loops of
    the eager and the linear inliner run on fuel; a failed [VERIFY] aborts. *)
Inductive outcome (A : Type) : Type :=
| Done (a : A)
| OutOfFuel
| VerifyFailed.

Arguments Done {A}.
Arguments OutOfFuel {A}.
Arguments VerifyFailed {A}.

Definition obind {A B : Type} (o : outcome A) (k : A -> outcome B) : outcome B :=
  match o with
  | Done a => k a
  | OutOfFuel => OutOfFuel
  | VerifyFailed => VerifyFailed
  end.

Notation "'do' x <- o ; k" := (obind o (fun x => k))
  (at level 10, x pattern, o at level 100, k at level 200).

(** ** The context the pass runs in *)

Record context : Type := mk_context {
  m_output_preds : decl_set;
  (** what [get_rmanager().collect_non_empty_predicates] adds *)
  non_empty_predicates : decl_set;
  fix_unbound_vars : bool;
  get_params : Params.params_ref
}.

Definition is_output_predicate (ctx : context) (p : func_decl) : bool :=
  contains (m_output_preds ctx) p.

Section Inliner.

Context {app : Type} {host : Host app}.

Definition rule_set := list (rule app).

(** *** Accessors of [rule] and [rule_set] *)

Definition get_decl (r : rule app) : func_decl := app_decl (get_head r).

Definition get_positive_tail_size (r : rule app) : nat := length (pos_tail r).

Definition get_uninterpreted_tail_size (r : rule app) : nat :=
  length (pos_tail r) + length (neg_tail r).

Definition get_tail_size (r : rule app) : nat :=
  length (pos_tail r) + length (neg_tail r) + length (interp_tail r).

Definition uninterpreted_tail (r : rule app) : list app :=
  pos_tail r ++ neg_tail r.

Definition tail_atoms (r : rule app) : list app :=
  pos_tail r ++ neg_tail r ++ interp_tail r.

Definition get_tail (r : rule app) (i : nat) : option app :=
  nth_error (tail_atoms r) i.

Definition is_neg_tail (r : rule app) (i : nat) : bool :=
  (length (pos_tail r) <=? i) && (i <? get_uninterpreted_tail_size r).

(** the tail with the polarity flag of each position *)
Definition tail_with_neg (r : rule app) : list (app * bool) :=
  map (fun a => (a, false)) (pos_tail r)
    ++ map (fun a => (a, true)) (neg_tail r)
    ++ map (fun a => (a, false)) (interp_tail r).

Definition add_rule_to (rs : rule_set) (r : rule app) : rule_set := rs ++ [r].

Definition get_predicate_rules (rs : rule_set) (pred : func_decl) : rule_set :=
  filter (fun r => decl_eqb (get_decl r) pred) rs.

(** *** Converters

    A resolution record of the proof converter (the two rule
    substitutions of [get_rule_subst] are left out) and the delete-rule
    records of the horn-subsume model converter. *)
Record resolve_step : Type := mk_resolve_step {
  rs_tgt : rule app;
  rs_src : rule app;
  rs_tail_index : nat;
  rs_res : rule app
}.

Record inliner : Type := mk_inliner {
  m_context : context;
  m_preds_with_facts : decl_set;
  m_preds_with_neg_occurrence : decl_set;
  m_forbidden_preds : decl_set;
  m_head_pred_ctr : counter;
  m_head_pred_non_empty_tails_ctr : counter;
  m_tail_pred_ctr : counter;
  m_inlined_rules : rule_set;
  m_mc : option (list (rule app));
  m_pc : option (list resolve_step)
}.

Definition set_preds_with_facts (st : inliner) (s : decl_set) : inliner :=
  mk_inliner (m_context st) s (m_preds_with_neg_occurrence st)
    (m_forbidden_preds st) (m_head_pred_ctr st)
    (m_head_pred_non_empty_tails_ctr st) (m_tail_pred_ctr st)
    (m_inlined_rules st) (m_mc st) (m_pc st).

Definition set_preds_with_neg_occurrence (st : inliner) (s : decl_set) : inliner :=
  mk_inliner (m_context st) (m_preds_with_facts st) s
    (m_forbidden_preds st) (m_head_pred_ctr st)
    (m_head_pred_non_empty_tails_ctr st) (m_tail_pred_ctr st)
    (m_inlined_rules st) (m_mc st) (m_pc st).

Definition set_forbidden_preds (st : inliner) (s : decl_set) : inliner :=
  mk_inliner (m_context st) (m_preds_with_facts st)
    (m_preds_with_neg_occurrence st) s (m_head_pred_ctr st)
    (m_head_pred_non_empty_tails_ctr st) (m_tail_pred_ctr st)
    (m_inlined_rules st) (m_mc st) (m_pc st).

Definition set_head_pred_ctr (st : inliner) (c : counter) : inliner :=
  mk_inliner (m_context st) (m_preds_with_facts st)
    (m_preds_with_neg_occurrence st) (m_forbidden_preds st) c
    (m_head_pred_non_empty_tails_ctr st) (m_tail_pred_ctr st)
    (m_inlined_rules st) (m_mc st) (m_pc st).

Definition set_head_pred_non_empty_tails_ctr (st : inliner) (c : counter) : inliner :=
  mk_inliner (m_context st) (m_preds_with_facts st)
    (m_preds_with_neg_occurrence st) (m_forbidden_preds st)
    (m_head_pred_ctr st) c (m_tail_pred_ctr st)
    (m_inlined_rules st) (m_mc st) (m_pc st).

Definition set_tail_pred_ctr (st : inliner) (c : counter) : inliner :=
  mk_inliner (m_context st) (m_preds_with_facts st)
    (m_preds_with_neg_occurrence st) (m_forbidden_preds st)
    (m_head_pred_ctr st) (m_head_pred_non_empty_tails_ctr st) c
    (m_inlined_rules st) (m_mc st) (m_pc st).

Definition set_inlined_rules (st : inliner) (rs : rule_set) : inliner :=
  mk_inliner (m_context st) (m_preds_with_facts st)
    (m_preds_with_neg_occurrence st) (m_forbidden_preds st)
    (m_head_pred_ctr st) (m_head_pred_non_empty_tails_ctr st)
    (m_tail_pred_ctr st) rs (m_mc st) (m_pc st).

Definition set_mc (st : inliner) (mc : option (list (rule app))) : inliner :=
  mk_inliner (m_context st) (m_preds_with_facts st)
    (m_preds_with_neg_occurrence st) (m_forbidden_preds st)
    (m_head_pred_ctr st) (m_head_pred_non_empty_tails_ctr st)
    (m_tail_pred_ctr st) (m_inlined_rules st) mc (m_pc st).

Definition set_pc (st : inliner) (pc : option (list resolve_step)) : inliner :=
  mk_inliner (m_context st) (m_preds_with_facts st)
    (m_preds_with_neg_occurrence st) (m_forbidden_preds st)
    (m_head_pred_ctr st) (m_head_pred_non_empty_tails_ctr st)
    (m_tail_pred_ctr st) (m_inlined_rules st) (m_mc st) pc.

(** Modelled from the spec: [datalog::resolve_rule(pc, ...)] is defined
    outside the sources at hand; a replace-by-resolution record enters the
    proof converter when there is one. *)
Definition resolve_rule (st : inliner) (tgt src : rule app) (idx : nat)
    (res : rule app) : inliner :=
  match m_pc st with
  | Some log => set_pc st (Some (log ++ [mk_resolve_step tgt src idx res]))
  | None => st
  end.

(** Modelled from the spec: [datalog::del_rule(mc, r)] is defined outside
    the sources at hand; a delete-rule record enters the converter the pass
    hands it, [m_mc], when there is one. *)
Definition mc_del_rule (st : inliner) (r : rule app) : inliner :=
  match m_mc st with
  | Some log => set_mc st (Some (log ++ [r]))
  | None => st
  end.

(** *** [rule_unifier] *)

(** A unifier in its ready state: the substitution and [m_deltas[1]]. *)
Definition ready_unifier := (substitution * nat)%type.

Definition unify_rules (tgt : rule app) (tgt_idx : nat) (src : rule app)
    : option ready_unifier :=
  let var_cnt := Nat.max (get_max_var tgt) (get_max_var src) + 1 in
  match get_tail tgt tgt_idx with
  | Some t =>
      match m_unif t (get_head src) with
      | Some s => Some (s, var_cnt)
      | None => None
      end
  | None => None
  end.

Definition apply_app (u : ready_unifier) (a : app) (is_tgt : bool) : app :=
  subst_apply (fst u) (snd u) (if is_tgt then 0 else 1) a.

(** the loop of [apply(rule&, is_tgt, skipped_index, res, res_neg)] from
    position [i] on; [skipped_index = UINT_MAX] is [None] *)
Fixpoint apply_tail_from (u : ready_unifier) (is_tgt : bool)
    (skipped_index : option nat) (i : nat) (ts : list (app * bool))
    : list (app * bool) :=
  match ts with
  | [] => []
  | (a, neg) :: ts' =>
      let rest := apply_tail_from u is_tgt skipped_index (S i) ts' in
      match skipped_index with
      | Some k => if i =? k then rest else (apply_app u a is_tgt, neg) :: rest
      | None => (apply_app u a is_tgt, neg) :: rest
      end
  end.

Definition apply_tail (u : ready_unifier) (r : rule app) (is_tgt : bool)
    (skipped_index : option nat) : list (app * bool) :=
  apply_tail_from u is_tgt skipped_index 0 (tail_with_neg r).

Definition tail_entry_eqb (x y : app * bool) : bool :=
  app_eqb (fst x) (fst y) && Bool.eqb (snd x) (snd y).

(** Modelled from the spec: [mk_rule_inliner::remove_duplicate_tails] is
    defined outside the sources at hand; tail atoms are de-duplicated by
    equality of atom and polarity, the first occurrence is kept. *)
Fixpoint remove_duplicate_tails_from (seen : list (app * bool))
    (ts : list (app * bool)) : list (app * bool) :=
  match ts with
  | [] => []
  | t :: ts' =>
      if existsb (tail_entry_eqb t) seen
      then remove_duplicate_tails_from seen ts'
      else t :: remove_duplicate_tails_from (t :: seen) ts'
  end.

Definition remove_duplicate_tails (ts : list (app * bool)) : list (app * bool) :=
  remove_duplicate_tails_from [] ts.

(** [rule_unifier::apply(tgt, tail_index, src, res)] *)
Definition unifier_apply (ctx : context) (u : ready_unifier) (tgt : rule app)
    (tail_index : nat) (src : rule app) : option (rule app) :=
  let new_head := apply_app u (get_head tgt) true in
  let tail := remove_duplicate_tails
                (apply_tail u tgt true (Some tail_index)
                   ++ apply_tail u src false None) in
  let res := rm_mk new_head (map fst tail) (map snd tail) in
  let res := rm_norm_vars res in
  let res := if fix_unbound_vars ctx then rm_fix_unbound_vars res else res in
  interp_simplifier res.

(** *** [mk_rule_inliner] *)

Definition has_quantifier (r : rule app) : bool :=
  existsb has_quantifiers (interp_tail r).

(** [try_to_inline_rule]: [tgt.norm_vars] renumbers the target in place, so
    the target comes back with the result. *)
Definition try_to_inline_rule (st : inliner) (tgt src : rule app)
    (tail_index : nat) : inliner * rule app * option (rule app) :=
  let tgt := rm_norm_vars tgt in
  if has_quantifier src then (st, tgt, None)
  else
    match unify_rules tgt tail_index src with
    | None => (st, tgt, None)
    | Some u =>
        match unifier_apply (m_context st) u tgt tail_index src with
        | Some res => (resolve_rule st tgt src tail_index res, tgt, Some res)
        | None => (st, tgt, None)
        end
    end.

Definition count_tail (neg : bool) (st : inliner) (a : app) : inliner :=
  let pred := app_decl a in
  let st := set_tail_pred_ctr st (ctr_inc (m_tail_pred_ctr st) pred) in
  if neg
  then set_preds_with_neg_occurrence st
         (insert pred (m_preds_with_neg_occurrence st))
  else st.

Definition count_rule (st : inliner) (r : rule app) : inliner :=
  let head_pred := get_decl r in
  let st := set_head_pred_ctr st (ctr_inc (m_head_pred_ctr st) head_pred) in
  let st :=
    if 0 <? get_tail_size r
    then set_head_pred_non_empty_tails_ctr st
           (ctr_inc (m_head_pred_non_empty_tails_ctr st) head_pred)
    else st in
  let st := fold_left (count_tail false) (pos_tail r) st in
  fold_left (count_tail true) (neg_tail r) st.

Definition count_pred_occurrences (st : inliner) (orig : rule_set) : inliner :=
  let st := set_preds_with_facts st
              (fold_left (fun s p => insert p s)
                 (non_empty_predicates (m_context st)) (m_preds_with_facts st)) in
  fold_left count_rule orig st.

Definition inlining_allowed (st : inliner) (pred : func_decl) : bool :=
  if is_output_predicate (m_context st) pred
     || contains (m_preds_with_facts st) pred
     || contains (m_preds_with_neg_occurrence st) pred
     || contains (m_forbidden_preds st) pred
  then false
  else
    (ctr_get (m_head_pred_ctr st) pred <=? 1)%N
    || ((ctr_get (m_tail_pred_ctr st) pred <=? 1)%N
        && (ctr_get (m_head_pred_ctr st) pred <=? 4)%N).

(** [create_allowed_rule_set]: the rules with an admissible head, closed *)
Definition allowed_rules (st : inliner) (orig : rule_set) : rule_set :=
  filter (fun r => inlining_allowed st (get_decl r)) orig.

Definition create_allowed_rule_set (st : inliner) (orig : rule_set)
    : outcome (rule_set * rule_stratifier) :=
  let res := allowed_rules st orig in
  match close res with
  | Some strat => Done (res, strat)
  | None => VerifyFailed
  end.

Definition forbid_stratum (acc : inliner * bool) (s : stratum) : inliner * bool :=
  match snd s with
  | [] => acc
  | _ :: _ =>
      (set_forbidden_preds (fst acc) (insert (fst s) (m_forbidden_preds (fst acc))),
       true)
  end.

Definition forbid_preds_from_cycles (st : inliner) (strat : rule_stratifier)
    : inliner * bool :=
  fold_left forbid_stratum (get_strats strat) (st, false).

(** *** The multiplier guard ([forbid_multiple_multipliers]) *)

(** the variables of the loop over one stratum *)
Record multiplier_vars : Type := mk_multiplier_vars {
  mv_st : inliner;
  mv_is_multi_head_pred : bool;
  mv_something_forbidden : bool
}.

(** body of the loop over [ti]; the flag is [goto process_next_pred] *)
Definition multiplier_tail (head_pred : func_decl)
    (is_multi_occurrence_pred : bool) (v : multiplier_vars)
    (tail_pred : func_decl) : multiplier_vars * bool :=
  let st := mv_st v in
  if negb (inlining_allowed st tail_pred) then (v, false)
  else
    let tail_pred_head_cnt := ctr_get (m_head_pred_ctr st) tail_pred in
    if (tail_pred_head_cnt <=? 1)%N then (v, false)
    else if mv_is_multi_head_pred v then
      (mk_multiplier_vars
         (set_forbidden_preds st (insert head_pred (m_forbidden_preds st)))
         (mv_is_multi_head_pred v) true, true)
    else if is_multi_occurrence_pred then
      (mk_multiplier_vars
         (set_forbidden_preds st (insert tail_pred (m_forbidden_preds st)))
         (mv_is_multi_head_pred v) true, false)
    else
      (mk_multiplier_vars
         (set_head_pred_ctr st
            (ctr_set (m_head_pred_ctr st) head_pred
               (wrap32 (ctr_get (m_head_pred_ctr st) head_pred
                        * tail_pred_head_cnt))))
         true (mv_something_forbidden v), false).

Fixpoint multiplier_tails (head_pred : func_decl)
    (is_multi_occurrence_pred : bool) (v : multiplier_vars)
    (tails : list app) : multiplier_vars * bool :=
  match tails with
  | [] => (v, false)
  | a :: tails' =>
      let '(v', goto) :=
        multiplier_tail head_pred is_multi_occurrence_pred v (app_decl a) in
      if goto then (v', true)
      else multiplier_tails head_pred is_multi_occurrence_pred v' tails'
  end.

Fixpoint multiplier_rules (head_pred : func_decl)
    (is_multi_occurrence_pred : bool) (v : multiplier_vars)
    (pred_rules : rule_set) : multiplier_vars * bool :=
  match pred_rules with
  | [] => (v, false)
  | r :: pred_rules' =>
      let '(v', goto) :=
        multiplier_tails head_pred is_multi_occurrence_pred v (pos_tail r) in
      if goto then (v', true)
      else multiplier_rules head_pred is_multi_occurrence_pred v' pred_rules'
  end.

Definition multiplier_stratum (proposed_inlined_rules : rule_set)
    (acc : inliner * bool) (s : stratum) : inliner * bool :=
  let st := fst acc in
  let head_pred := fst s in
  let is_multi_head_pred := (1 <? ctr_get (m_head_pred_ctr st) head_pred)%N in
  let is_multi_occurrence_pred := (1 <? ctr_get (m_tail_pred_ctr st) head_pred)%N in
  let pred_rules := get_predicate_rules proposed_inlined_rules head_pred in
  let v := fst (multiplier_rules head_pred is_multi_occurrence_pred
                  (mk_multiplier_vars st is_multi_head_pred (snd acc))
                  pred_rules) in
  (mv_st v, mv_something_forbidden v).

(** the scan of the rules that are not inlined: the accumulator is the
    state, [has_multi_head_pred] and [something_forbidden] *)
Definition multiplier_orig_tail (acc : inliner * bool * bool) (a : app)
    : inliner * bool * bool :=
  let '(st, has_multi_head_pred, something_forbidden) := acc in
  let pred := app_decl a in
  if negb (inlining_allowed st pred) then acc
  else if (ctr_get (m_head_pred_ctr st) pred <=? 1)%N then acc
  else if has_multi_head_pred then
    (set_forbidden_preds st (insert pred (m_forbidden_preds st)), true, true)
  else (st, true, something_forbidden).

Definition multiplier_orig_rule (acc : inliner * bool) (r : rule app)
    : inliner * bool :=
  if inlining_allowed (fst acc) (get_decl r) then acc
  else
    let '(st, _, something_forbidden) :=
      fold_left multiplier_orig_tail (pos_tail r) (fst acc, false, snd acc) in
    (st, something_forbidden).

Definition forbid_multiple_multipliers (st : inliner) (orig : rule_set)
    (proposed_inlined_rules : rule_set) (strat : rule_stratifier)
    : inliner * bool :=
  let acc := fold_left (multiplier_stratum proposed_inlined_rules)
               (get_strats strat) (st, false) in
  fold_left multiplier_orig_rule orig acc.

(** *** Bulk inlining *)

(** where [transform_rule] adds its rules: [m_inlined_rules] itself during
    planning, a rule set of the caller afterwards *)
Inductive target : Type :=
| ToInlinedRules
| ToRuleSet (rs : rule_set).

Definition target_add (st : inliner) (tgt : target) (r : rule app)
    : inliner * target :=
  match tgt with
  | ToInlinedRules =>
      (set_inlined_rules st (add_rule_to (m_inlined_rules st) r), ToInlinedRules)
  | ToRuleSet rs => (st, ToRuleSet (add_rule_to rs r))
  end.

Definition target_rules (st : inliner) (tgt : target) : rule_set :=
  match tgt with
  | ToInlinedRules => m_inlined_rules st
  | ToRuleSet rs => rs
  end.

(** the first positive tail index with an admissible predicate *)
Fixpoint first_allowed_from (st : inliner) (i : nat) (tails : list app)
    : option (nat * func_decl) :=
  match tails with
  | [] => None
  | a :: tails' =>
      if inlining_allowed st (app_decl a) then Some (i, app_decl a)
      else first_allowed_from st (S i) tails'
  end.

(** the loop over [pred_rules]; the worklist is a stack, its back is the
    head of the list *)
Fixpoint inline_pred_rules (st : inliner) (r : rule app) (i : nat)
    (pred_rules : rule_set) (todo : list (rule app))
    : inliner * rule app * list (rule app) :=
  match pred_rules with
  | [] => (st, r, todo)
  | inl_rule :: pred_rules' =>
      let '(st', r', inl_result) := try_to_inline_rule st r inl_rule i in
      inline_pred_rules st' r' i pred_rules'
        (match inl_result with
         | Some res => res :: todo
         | None => todo
         end)
  end.

Fixpoint transform_rule_loop (fuel : nat) (st : inliner) (tgt : target)
    (todo : list (rule app)) (modified : bool)
    : outcome (inliner * target * bool) :=
  match todo with
  | [] => Done (st, tgt, modified)
  | r :: todo' =>
      match fuel with
      | 0 => OutOfFuel
      | S fuel' =>
          if has_quantifier r then
            transform_rule_loop fuel' st tgt todo' modified
          else
            match first_allowed_from st 0 (pos_tail r) with
            | None =>
                let '(st', tgt') := target_add st tgt r in
                transform_rule_loop fuel' st' tgt' todo' modified
            | Some (i, pred) =>
                let pred_rules :=
                  get_predicate_rules (m_inlined_rules st) pred in
                let '(st', _, todo'') :=
                  inline_pred_rules st r i pred_rules todo' in
                transform_rule_loop fuel' st' tgt todo'' true
            end
      end
  end.

Definition transform_rule (fuel : nat) (st : inliner) (r0 : rule app)
    (tgt : target) : outcome (inliner * target * bool) :=
  transform_rule_loop fuel st tgt [r0] false.

Fixpoint transform_rules (fuel : nat) (st : inliner) (orig : rule_set)
    (tgt : rule_set) (something_done : bool)
    : outcome (inliner * rule_set * bool) :=
  match orig with
  | [] => Done (st, tgt, something_done)
  | r :: orig' =>
      if inlining_allowed st (get_decl r) then
        transform_rules fuel st orig' tgt something_done
      else
        do (st', tgt', modified) <- transform_rule fuel st r (ToRuleSet tgt) ;
        transform_rules fuel st' orig' (target_rules st' tgt')
          (something_done || modified)
  end.

(** *** Planning *)

Fixpoint break_cycles (fuel : nat) (st : inliner) (orig : rule_set)
    (candidate_inlined_set : rule_set * rule_stratifier)
    : outcome (inliner * (rule_set * rule_stratifier)) :=
  match fuel with
  | 0 => OutOfFuel
  | S fuel' =>
      let '(st', forbidden) :=
        forbid_preds_from_cycles st (snd candidate_inlined_set) in
      if forbidden then
        do c <- create_allowed_rule_set st' orig ;
        break_cycles fuel' st' orig c
      else Done (st', candidate_inlined_set)
  end.

Fixpoint plan_rules (fuel : nat) (st : inliner) (pred_rules : rule_set)
    : outcome inliner :=
  match pred_rules with
  | [] => Done st
  | r :: pred_rules' =>
      do (st', _, _) <- transform_rule fuel st r ToInlinedRules ;
      plan_rules fuel st' pred_rules'
  end.

Fixpoint plan_strata (fuel : nat) (st : inliner)
    (candidate_inlined_set : rule_set) (comps : list stratum)
    : outcome inliner :=
  match comps with
  | [] => Done st
  | s :: comps' =>
      do st' <- plan_rules fuel st
                  (get_predicate_rules candidate_inlined_set (fst s)) ;
      plan_strata fuel st' candidate_inlined_set comps'
  end.

Definition plan_inlining (fuel : nat) (st : inliner) (orig : rule_set)
    : outcome inliner :=
  let st := count_pred_occurrences st orig in
  do c <- create_allowed_rule_set st orig ;
  do (st, c) <- break_cycles fuel st orig c ;
  let '(st, forbidden) := forbid_multiple_multipliers st orig (fst c) (snd c) in
  do c <- (if forbidden then create_allowed_rule_set st orig else Done c) ;
  plan_strata fuel st (fst c) (get_strats (snd c)).

(** *** Eager inlining *)

(** one positive tail atom of [is_oriented_rewriter] *)
Definition oriented_tail (strat : rule_stratifier) (head_pred : func_decl)
    (a : app) : bool :=
  let head_strat := get_predicate_strat strat head_pred in
  let head_arity := get_arity head_pred in
  let pred := app_decl a in
  let pred_strat := get_predicate_strat strat pred in
  if pred_strat =? head_strat then
    negb ((head_arity <? get_arity pred)
          || ((get_arity pred =? head_arity)
              && (get_id head_pred <=? get_id pred)))
  else true.

Definition is_oriented_rewriter (r : rule app) (strat : rule_stratifier) : bool :=
  forallb (oriented_tail strat (get_decl r)) (pos_tail r).

(** the loop over [ri] when [pred] has several rules: [None] is
    [goto process_next_tail], otherwise the candidate found, if any *)
Fixpoint select_candidate (r : rule app) (ti : nat) (pred_rules : rule_set)
    (inlining_candidate : option (rule app)) : option (option (rule app)) :=
  match pred_rules with
  | [] => Some inlining_candidate
  | pred_rule :: pred_rules' =>
      match unify_rules r ti pred_rule with
      | None => select_candidate r ti pred_rules' inlining_candidate
      | Some _ =>
          match inlining_candidate with
          | Some _ => None
          | None => select_candidate r ti pred_rules' (Some pred_rule)
          end
      end
  end.

Definition inlining_candidate_of (r : rule app) (ti : nat)
    (pred_rules : rule_set) : option (option (rule app)) :=
  match pred_rules with
  | [] => Some None
  | [c] => Some (Some c)
  | _ => select_candidate r ti pred_rules None
  end.

(** [do_eager_inlining(rule * r, rule_set const& rules, rule_ref& res)]
    from tail position [ti] on.  The result is [None] when the call
    returns false, [Some None] when it returns true with [res = 0] and
    [Some (Some res')] when it returns true with a replacement; the rule
    comes back as [try_to_inline_rule] left it. *)
Fixpoint eager_tails (st : inliner) (r : rule app) (rules : rule_set)
    (strat : rule_stratifier) (ti : nat) (tails : list app)
    : inliner * rule app * option (option (rule app)) :=
  match tails with
  | [] => (st, r, None)
  | a :: tails' =>
      let head_pred := get_decl r in
      let pred := app_decl a in
      if decl_eqb pred head_pred || contains (m_preds_with_facts st) pred then
        eager_tails st r rules strat (S ti) tails'
      else
        match inlining_candidate_of r ti (get_predicate_rules rules pred) with
        | None => eager_tails st r rules strat (S ti) tails'
        | Some None => (mc_del_rule st r, r, Some None)
        | Some (Some inlining_candidate) =>
            if negb (is_oriented_rewriter inlining_candidate strat) then
              eager_tails st r rules strat (S ti) tails'
            else
              let '(st', r', res) :=
                try_to_inline_rule st r inlining_candidate ti in
              match res with
              | Some res' => (st', r', Some (Some res'))
              | None => (mc_del_rule st' r', r', Some None)
              end
        end
  end.

Definition do_eager_inlining_rule (st : inliner) (r : rule app)
    (rules : rule_set) (strat : rule_stratifier)
    : inliner * rule app * option (option (rule app)) :=
  eager_tails st r rules strat 0 (pos_tail r).

Fixpoint set_nth {A : Type} (i : nat) (x : A) (l : list A) : list A :=
  match l, i with
  | [], _ => []
  | _ :: l', 0 => x :: l'
  | y :: l', S i' => y :: set_nth i' x l'
  end.

(** [while (r && do_eager_inlining(r, *rules, replacement))]: the rule of
    the first round is the one stored at [shared] in [rules] *)
Fixpoint eager_while (fuel : nat) (st : inliner) (rules : rule_set)
    (strat : rule_stratifier) (shared : option nat) (r : rule app)
    (done_something : bool)
    : outcome (inliner * rule_set * option (rule app) * bool) :=
  match fuel with
  | 0 => OutOfFuel
  | S fuel' =>
      let '(st', r', out) := do_eager_inlining_rule st r rules strat in
      let rules' :=
        match shared with
        | Some k => set_nth k r' rules
        | None => rules
        end in
      match out with
      | None => Done (st', rules', Some r', done_something)
      | Some None => Done (st', rules', None, true)
      | Some (Some replacement) =>
          eager_while fuel' st' rules' strat None replacement true
      end
  end.

Fixpoint eager_rules (fuel : nat) (st : inliner) (rules : rule_set)
    (strat : rule_stratifier) (k : nat) (todo : list (rule app))
    (res : rule_set) (done_something : bool)
    : outcome (inliner * rule_set * bool) :=
  match todo with
  | [] => Done (st, res, done_something)
  | r :: todo' =>
      do (st', rules', r', done') <-
        eager_while fuel st rules strat (Some k) r done_something ;
      eager_rules fuel st' rules' strat (S k) todo'
        (match r' with
         | Some r'' => add_rule_to res r''
         | None => res
         end) done'
  end.

(** [do_eager_inlining(scoped_ptr<rule_set> & rules)] *)
Definition do_eager_inlining (fuel : nat) (st : inliner) (rules : rule_set)
    (strat : rule_stratifier) : outcome (inliner * rule_set * bool) :=
  do (st', res, done_something) <-
    eager_rules fuel st rules strat 0 rules [] false ;
  Done (st', (if done_something then res else rules), done_something).

(** *** Linear inlining *)

(** [obj_map<expr, unsigned_vector> m_positions] of a visitor *)
Definition positions := list (app * list nat).

Fixpoint find_positions (m : positions) (e : app) : list nat :=
  match m with
  | [] => []
  | (e', v) :: m' => if app_eqb e e' then v else find_positions m' e
  end.

Fixpoint add_position (m : positions) (e : app) (j : nat) : positions :=
  match m with
  | [] => [(e, [j])]
  | (e', v) :: m' =>
      if app_eqb e e' then (e', v ++ [j]) :: m'
      else (e', v) :: add_position m' e j
  end.

(** [svector::erase(j)]: the first occurrence goes *)
Fixpoint erase (j : nat) (v : list nat) : list nat :=
  match v with
  | [] => []
  | x :: v' => if x =? j then v' else x :: erase j v'
  end.

Fixpoint del_position (m : positions) (e : app) (j : nat) : positions :=
  match m with
  | [] => []
  | (e', v) :: m' =>
      if app_eqb e e' then (e', erase j v) :: m'
      else (e', v) :: del_position m' e j
  end.

(** Modelled from the spec: the unification index is defined outside the
    sources at hand; it is keyed by atoms, so an atom inserted twice is held
    once. *)
Definition index_insert (idx : list app) (e : app) : list app :=
  if existsb (app_eqb e) idx then idx else idx ++ [e].

(** [index.unify(e, visitor)]: the visitor appends the positions of every
    indexed expression that unifies with [e] *)
Definition unifiers (idx : list app) (m : positions) (e : app) : list nat :=
  flat_map (fun e' => if index_unify e' e then find_positions m e' else []) idx.

Record linear : Type := mk_linear {
  head_positions : positions;
  tail_positions : positions;
  m_head_index : list app;
  m_tail_index : list app;
  can_remove : list bool;
  can_expand : list bool;
  valid : list bool;
  acc : list (rule app)
}.

Definition get_flag (v : list bool) (i : nat) : bool := nth i v false.

Definition add_rule_tail (i : nat) (pi : positions * list app) (tail : app)
    : positions * list app :=
  (add_position (fst pi) tail i, index_insert (snd pi) tail).

Definition add_rule (st : inliner) (lin : linear) (r : rule app) (i : nat)
    : linear :=
  let head := get_head r in
  let headd := app_decl head in
  let hp := add_position (head_positions lin) head i in
  let hi := index_insert (m_head_index lin) head in
  let cr :=
    if is_output_predicate (m_context st) headd
       || contains (m_preds_with_facts st) headd
    then set_nth i false (can_remove lin)
    else can_remove lin in
  let '(tp, tidx) :=
    fold_left (add_rule_tail i) (uninterpreted_tail r)
      (tail_positions lin, m_tail_index lin) in
  let tl_sz := get_uninterpreted_tail_size r in
  let can_exp :=
    (tl_sz =? 1) && (get_positive_tail_size r =? 1)
    && match pos_tail r with
       | a :: _ =>
           negb (contains (m_preds_with_facts st) (app_decl a))
           && negb (is_output_predicate (m_context st) (app_decl a))
       | [] => false
       end in
  mk_linear hp tp hi tidx cr (set_nth i can_exp (can_expand lin))
    (valid lin) (acc lin).

Definition del_rule (lin : linear) (r : rule app) (i : nat) : linear :=
  let hp := del_position (head_positions lin) (get_head r) i in
  let tp := fold_left (fun m tail => del_position m tail i)
              (uninterpreted_tail r) (tail_positions lin) in
  mk_linear hp tp (m_head_index lin) (m_tail_index lin) (can_remove lin)
    (can_expand lin) (valid lin) (acc lin).

Definition set_acc (lin : linear) (a : list (rule app)) : linear :=
  mk_linear (head_positions lin) (tail_positions lin) (m_head_index lin)
    (m_tail_index lin) (can_remove lin) (can_expand lin) (valid lin) a.

Definition set_can_expand (lin : linear) (v : list bool) : linear :=
  mk_linear (head_positions lin) (tail_positions lin) (m_head_index lin)
    (m_tail_index lin) (can_remove lin) v (valid lin) (acc lin).

Definition set_valid (lin : linear) (v : list bool) : linear :=
  mk_linear (head_positions lin) (tail_positions lin) (m_head_index lin)
    (m_tail_index lin) (can_remove lin) (can_expand lin) v (acc lin).

(** what one round of the [while (true)] loop at position [i] found *)
Inductive linear_round : Type :=
| LBreak (st : inliner) (lin : linear)
| LInlined (st : inliner) (lin : linear) (j : nat) (num_tail_unifiers : nat).

Definition linear_round_at (st : inliner) (lin : linear)
    (allow_branching : bool) (i : nat) : linear_round :=
  match nth_error (acc lin) i with
  | None => LBreak st lin
  | Some r =>
      if negb (get_flag (valid lin) i) then LBreak st lin
      else if negb (get_flag (can_expand lin) i) then LBreak st lin
      else
        match get_tail r 0 with
        | None => LBreak st lin
        | Some t0 =>
            match unifiers (m_head_index lin) (head_positions lin) t0 with
            | [j] =>
                if negb (get_flag (can_remove lin) j)
                   || negb (get_flag (valid lin) j) || (i =? j)
                then LBreak st lin
                else
                  match nth_error (acc lin) j with
                  | None => LBreak st lin
                  | Some r2 =>
                      let num_tail_unifiers :=
                        length (unifiers (m_tail_index lin)
                                  (tail_positions lin) (get_head r2)) in
                      if negb allow_branching && negb (num_tail_unifiers =? 1)
                      then LBreak st lin
                      else
                        let '(st1, r', rl_res) := try_to_inline_rule st r r2 0 in
                        let lin1 := set_acc lin (set_nth i r' (acc lin)) in
                        match rl_res with
                        | None => LBreak st1 lin1
                        | Some res =>
                            let lin2 := del_rule lin1 r' i in
                            let lin3 := add_rule st1 lin2 res i in
                            let lin4 := set_acc lin3 (set_nth i res (acc lin3)) in
                            let lin5 :=
                              set_can_expand lin4
                                (set_nth i (get_flag (can_expand lin4) j)
                                   (can_expand lin4)) in
                            if num_tail_unifiers =? 1 then
                              let lin6 :=
                                set_valid lin5 (set_nth j false (valid lin5)) in
                              LInlined (mc_del_rule st1 r2) (del_rule lin6 r2 j)
                                j num_tail_unifiers
                            else LInlined st1 lin5 j num_tail_unifiers
                        end
                  end
            | _ => LBreak st lin
            end
        end
  end.

Fixpoint linear_while (fuel : nat) (st : inliner) (lin : linear)
    (allow_branching : bool) (i : nat) (done_something : bool)
    : outcome (inliner * linear * bool) :=
  match fuel with
  | 0 => OutOfFuel
  | S fuel' =>
      match linear_round_at st lin allow_branching i with
      | LBreak st' lin' => Done (st', lin', done_something)
      | LInlined st' lin' _ _ =>
          linear_while fuel' st' lin' allow_branching i true
      end
  end.

Fixpoint linear_for (fuel : nat) (st : inliner) (lin : linear)
    (allow_branching : bool) (i : nat) (n : nat) (done_something : bool)
    : outcome (inliner * linear * bool) :=
  match n with
  | 0 => Done (st, lin, done_something)
  | S n' =>
      do (st', lin', done') <-
        linear_while fuel st lin allow_branching i done_something ;
      linear_for fuel st' lin' allow_branching (S i) n' done'
  end.

Fixpoint add_rules_from (st : inliner) (lin : linear) (i : nat)
    (rs : list (rule app)) : linear :=
  match rs with
  | [] => lin
  | r :: rs' => add_rules_from st (add_rule st lin r i) (S i) rs'
  end.

(** the rules [acc[i]] with [valid[i]] *)
Fixpoint valid_rules (v : list bool) (a : list (rule app)) : rule_set :=
  match a, v with
  | r :: a', b :: v' => if b then r :: valid_rules v' a' else valid_rules v' a'
  | _, _ => []
  end.

Definition linear_init (st : inliner) (rules : rule_set) : linear :=
  let sz := length rules in
  add_rules_from st
    (mk_linear [] [] [] [] (repeat true sz) (repeat true sz)
       (repeat true sz) rules)
    0 rules.

(** [inline_linear]: [acc] holds the rule objects of [rules], so a rule that
    [try_to_inline_rule] has renumbered before it failed is renumbered in
    [rules] too; when nothing was inlined the rule set keeps its rules, as
    [acc] has them. *)
Definition inline_linear (fuel : nat) (st : inliner) (rules : rule_set)
    : outcome (inliner * rule_set * bool) :=
  let sz := length rules in
  let lin := linear_init st rules in
  let allow_branching :=
    Params.ref_get_bool (get_params (m_context st)) ":inline-linear-branch" false in
  do (st', lin', done_something) <-
    linear_for fuel st lin allow_branching 0 sz false ;
  Done (st',
        (if done_something then valid_rules (valid lin') (acc lin')
         else acc lin'),
        done_something).

(** *** The pass ([operator()]) *)

Inductive model_converter : Type :=
| mc_of_host (id : nat)
| horn_subsume_model_converter (deleted : list (rule app))
| mc_concat (a b : model_converter).

Inductive proof_converter : Type :=
| pc_of_host (id : nat)
| replace_proof_converter (steps : list resolve_step)
| pc_concat (a b : proof_converter).

Definition log_or_empty {A : Type} (o : option (list A)) : list A :=
  match o with
  | Some l => l
  | None => []
  end.

Definition run (fuel : nat) (st : inliner) (source : rule_set)
    (mc : option model_converter) (pc : option proof_converter)
    : outcome (inliner * option rule_set
               * option model_converter * option proof_converter) :=
  if length source =? 0 then Done (st, None, mc, pc)
  else
    let st := set_mc st (match mc with Some _ => Some [] | None => None end) in
    let st := set_pc st (match pc with Some _ => Some [] | None => None end) in
    do st <- plan_inlining fuel st source ;
    do (st, res, something_done) <- transform_rules fuel st source [] false ;
    match close res with
    | None => VerifyFailed
    | Some strat =>
        do (st, res, eager_done) <- do_eager_inlining fuel st res strat ;
        let something_done := something_done || eager_done in
        do (st, res, linear_done) <-
          (if Params.ref_get_bool (get_params (m_context st)) ":inline-linear" true
           then inline_linear fuel st res
           else Done (st, res, false)) ;
        let something_done := something_done || linear_done in
        if negb something_done then Done (st, None, mc, pc)
        else
          Done (st, Some res,
                match mc with
                | Some c =>
                    Some (mc_concat c
                            (horn_subsume_model_converter (log_or_empty (m_mc st))))
                | None => None
                end,
                match pc with
                | Some c =>
                    Some (pc_concat c
                            (replace_proof_converter (log_or_empty (m_pc st))))
                | None => None
                end)
    end.

End Inliner.

Arguments rule_set app : clear implicits.
Arguments resolve_step app : clear implicits.
Arguments inliner app : clear implicits.
Arguments multiplier_vars app : clear implicits.
Arguments target app : clear implicits.
Arguments positions app : clear implicits.
Arguments linear app : clear implicits.
Arguments linear_round app : clear implicits.
Arguments model_converter app : clear implicits.
Arguments proof_converter app : clear implicits.

(** ** What the pass relies on from its collaborators *)

Class HostLaws (app : Type) (host : Host app) : Prop := {
  (** ASTs are hash-consed: [app_eqb] is equality *)
  app_eqb_eq : forall a b : app, app_eqb a b = true <-> a = b;
  (** a substitution instantiates variables, the predicate stays *)
  subst_apply_decl :
    forall s d o (a : app), app_decl (subst_apply s d o a) = app_decl a;
  (** a rule built by the rule manager has the head it was given *)
  rm_mk_head :
    forall (h : app) tail neg, get_head (rm_mk h tail neg) = h;
  (** renumbering variables, closing unbound variables and simplifying the
      interpreted tail keep the head predicate *)
  rm_norm_vars_head :
    forall r : rule app,
      app_decl (get_head (rm_norm_vars r)) = app_decl (get_head r);
  rm_fix_unbound_vars_head :
    forall r : rule app,
      app_decl (get_head (rm_fix_unbound_vars r)) = app_decl (get_head r);
  interp_simplifier_head :
    forall r r' : rule app,
      interp_simplifier r = Some r' ->
      app_decl (get_head r') = app_decl (get_head r)
}.

(** ** The vocabulary of the properties *)

Section Vocabulary.

Context {app : Type} {host : Host app}.

(** while [p] has not been promoted, its head count is the one it had when
    the stratum was entered *)
Definition multiplier_inv (p : func_decl) (v : multiplier_vars app) : Prop :=
  mv_is_multi_head_pred v = false ->
  (ctr_get (m_head_pred_ctr (mv_st v)) p <= 1)%N.

(** the lexicographic criterion on stratum, arity and id *)
Definition oriented_criterion (strat : rule_stratifier) (r : rule app) : Prop :=
  forall a, In a (pos_tail r) ->
    let q := app_decl a in
    let h := get_decl r in
    get_predicate_strat strat q < get_predicate_strat strat h
    \/ (get_predicate_strat strat q = get_predicate_strat strat h
        /\ get_arity q < get_arity h)
    \/ (get_predicate_strat strat q = get_predicate_strat strat h
        /\ get_arity q = get_arity h /\ get_id q < get_id h).

(** what the stratifier guarantees for a rule of the set it stratified: no
    positive tail predicate lies above the head *)
Definition stratum_respected (strat : rule_stratifier) (r : rule app) : Prop :=
  forall a, In a (pos_tail r) ->
    get_predicate_strat strat (app_decl a)
      <= get_predicate_strat strat (get_decl r).

(** the scan of [do_eager_inlining] passes over a tail atom: its predicate is
    the head predicate or has facts, or two rules unify with it, or the
    candidate is not an oriented rewriter *)
Definition eager_skips (st : inliner app) (r : rule app) (rules : rule_set app)
    (strat : rule_stratifier) (ti : nat) (a : app) : bool :=
  decl_eqb (app_decl a) (get_decl r)
  || contains (m_preds_with_facts st) (app_decl a)
  || match inlining_candidate_of r ti (get_predicate_rules rules (app_decl a)) with
     | None => true
     | Some None => false
     | Some (Some c) => negb (is_oriented_rewriter c strat)
     end.

(** the two states agree on everything [inlining_allowed] reads *)
Definition plan_eq (st st' : inliner app) : Prop :=
  m_context st' = m_context st
  /\ m_preds_with_facts st' = m_preds_with_facts st
  /\ m_preds_with_neg_occurrence st' = m_preds_with_neg_occurrence st
  /\ m_forbidden_preds st' = m_forbidden_preds st
  /\ m_head_pred_ctr st' = m_head_pred_ctr st
  /\ m_tail_pred_ctr st' = m_tail_pred_ctr st.

(** every resolution record in the proof converter has a source in [P] *)
Definition sources_in (P : rule app -> Prop) (st : inliner app) : Prop :=
  forall step, In step (log_or_empty (m_pc st)) -> P (rs_src step).

(** the analysis before bulk inlining touches neither the context nor the
    converters nor [m_inlined_rules], and forgets no negative occurrence *)
Definition kept (st st' : inliner app) : Prop :=
  m_context st' = m_context st
  /\ m_inlined_rules st' = m_inlined_rules st
  /\ m_mc st' = m_mc st
  /\ m_pc st' = m_pc st
  /\ (forall q, contains (m_preds_with_neg_occurrence st) q = true ->
                contains (m_preds_with_neg_occurrence st') q = true).

(** a predicate that occurs negated in a rule of the rule set *)
Definition negated_in (orig : rule_set app) (p : func_decl) : Prop :=
  exists r a, In r orig /\ In a (neg_tail r) /\ app_decl a = p.



(** the state a round of the linear inliner leaves *)
Definition round_result (x : linear_round app) : inliner app * linear app :=
  match x with
  | LBreak st lin => (st, lin)
  | LInlined st lin _ _ => (st, lin)
  end.

(** [operator()] installs a fresh converter of its own, [m_mc] and [m_pc],
    for each converter the host passes *)
Definition with_converters (st : inliner app) (mc : option (model_converter app))
    (pc : option (proof_converter app)) : inliner app :=
  set_pc (set_mc st (match mc with Some _ => Some [] | None => None end))
    (match pc with Some _ => Some [] | None => None end).


(** *** The analysis before planning *)

(** number of uninterpreted tail atoms of the rule set, positive or negated,
    with the predicate [p] *)
Definition tail_occurrences (orig : rule_set app) (p : func_decl) : nat :=
  length (filter (fun a => decl_eqb (app_decl a) p)
            (flat_map uninterpreted_tail orig)).

(** the rules whose head unifies with the tail atom of [r] at [ti] *)
Definition unifying (r : rule app) (ti : nat) (pred_rules : rule_set app)
    : rule_set app :=
  filter (fun c => match unify_rules r ti c with
                   | Some _ => true
                   | None => false
                   end) pred_rules.

(** a tail atom that multiplies rules when it is inlined: its predicate is
    admissible and has more than one rule *)
Definition is_multiplier (st : inliner app) (a : app) : bool :=
  inlining_allowed st (app_decl a)
  && (1 <? ctr_get (m_head_pred_ctr st) (app_decl a))%N.

(** *** The vectors of the linear inliner *)

(** every position a visitor holds is below [n] *)
Definition positions_below (n : nat) (m : positions app) : Prop :=
  forall e v j, In (e, v) m -> In j v -> j < n.

(** the vectors [acc], [valid], [can_remove] and [can_expand] have [n]
    entries and the two visitors hold positions below [n] *)
Definition linear_bounded (n : nat) (lin : linear app) : Prop :=
  length (acc lin) = n
  /\ length (valid lin) = n
  /\ length (can_remove lin) = n
  /\ length (can_expand lin) = n
  /\ positions_below n (head_positions lin)
  /\ positions_below n (tail_positions lin).

(** *** The outcome of bulk inlining *)

(** the resolvents of [r] at the tail position [i] with the rules [cs], the
    last one first: what the loop over [pred_rules] of [transform_rule]
    pushes on its worklist *)
Definition resolvents (st : inliner app) (r : rule app) (i : nat)
    (cs : rule_set app) : list (rule app) :=
  snd (inline_pred_rules st r i cs []).

(** [bulk_result st r r']: [transform_rule] started on [r] adds [r'] to its
    target.  [r'] is [r] itself when [r] has no quantifier and no admissible
    positive tail atom; otherwise [r] has no quantifier and [r'] is added for
    a resolvent of [r] at its first admissible positive tail atom with a rule
    of [m_inlined_rules]. *)
Inductive bulk_result (st : inliner app) : rule app -> rule app -> Prop :=
| bulk_settled : forall r,
    has_quantifier r = false ->
    first_allowed_from st 0 (pos_tail r) = None ->
    bulk_result st r r
| bulk_resolved : forall r i p res r',
    has_quantifier r = false ->
    first_allowed_from st 0 (pos_tail r) = Some (i, p) ->
    In res (resolvents st r i (get_predicate_rules (m_inlined_rules st) p)) ->
    bulk_result st res r' ->
    bulk_result st r r'.

(** *** The rounds of the linear inliner *)

(** a round of the loops of [inline_linear] that inlined a rule: the state
    and the vectors before the round, the position [i], the callee [j] and
    the number [k] of tail unifiers of the head of the callee *)
Record linear_step : Type := mk_linear_step {
  ls_st : inliner app;
  ls_lin : linear app;
  ls_i : nat;
  ls_j : nat;
  ls_k : nat
}.

(** the rounds that inline, in the order [while (true)] makes them at
    position [i] *)
Fixpoint while_steps (fuel : nat) (st : inliner app) (lin : linear app)
    (allow_branching : bool) (i : nat) : list linear_step :=
  match fuel with
  | 0 => []
  | S fuel' =>
      match linear_round_at st lin allow_branching i with
      | LBreak _ _ => []
      | LInlined st' lin' j k =>
          mk_linear_step st lin i j k
            :: while_steps fuel' st' lin' allow_branching i
      end
  end.

(** the rounds that inline, in the order the loop over the positions makes
    them *)
Fixpoint for_steps (fuel : nat) (st : inliner app) (lin : linear app)
    (allow_branching : bool) (i : nat) (n : nat) : list linear_step :=
  match n with
  | 0 => []
  | S n' =>
      while_steps fuel st lin allow_branching i
        ++ match linear_while fuel st lin allow_branching i false with
           | Done (st', lin', _) =>
               for_steps fuel st' lin' allow_branching (S i) n'
           | _ => []
           end
  end.

Definition linear_steps (fuel : nat) (st : inliner app) (rules : rule_set app)
    : list linear_step :=
  for_steps fuel st (linear_init st rules)
    (Params.ref_get_bool (get_params (m_context st)) ":inline-linear-branch" false)
    0 (length rules).

(** the tail index holds every uninterpreted tail atom of [r], the negated
    ones included, under the position [m] *)
Definition tail_indexed (lin : linear app) (m : nat) (r : rule app) : Prop :=
  forall a, In a (pos_tail r) \/ In a (neg_tail r) ->
    In a (m_tail_index lin) /\ In m (find_positions (tail_positions lin) a).

(** every valid position is indexed with the tail of its rule as [add_rule]
    found it: [acc] holds that rule, or, at a position the loop has left, that
    rule renumbered by a [try_to_inline_rule] that failed *)
Definition tails_covered (i : nat) (lin : linear app) : Prop :=
  forall m r,
    nth_error (acc lin) m = Some r -> get_flag (valid lin) m = true ->
    exists r0, tail_indexed lin m r0
               /\ (r = r0 \/ (m < i /\ r = rm_norm_vars r0)).

(** *** When the stages have nothing to do *)







(** *** The worklist of [transform_rule] *)

(** number of atoms of a list whose predicate satisfies [f] *)
Definition count_decl (f : func_decl -> bool) (l : list app) : nat :=
  length (filter (fun a => f (app_decl a)) l).

(** the atoms of a tail that are not negated *)
Definition positive_entries (tail : list app) (neg : list bool) : list app :=
  map fst (filter (fun x => negb (snd x)) (combine tail neg)).

(** number of entries of a tail that are not negated, are predicate atoms and
    have a predicate in [f] *)
Definition entry_count (is_predicate : app -> bool) (f : func_decl -> bool)
    (l : list (app * bool)) : nat :=
  length (filter (fun x => negb (snd x) && is_predicate (fst x)
                           && f (app_decl (fst x))) l).

(** a rule as the rule manager builds it: its uninterpreted tail holds
    predicate atoms, its interpreted tail holds none *)
Definition wf_rule (is_predicate : app -> bool) (r : rule app) : bool :=
  forallb is_predicate (pos_tail r)
  && forallb is_predicate (neg_tail r)
  && forallb (fun a => negb (is_predicate a)) (interp_tail r).

(** number of positive tail atoms of a rule with an admissible predicate *)
Definition admissible_tails (st : inliner app) (r : rule app) : nat :=
  count_decl (inlining_allowed st) (pos_tail r).

(** every rule of [m_inlined_rules] is well formed and has no positive tail
    atom with an admissible predicate *)
Definition inlined_settled (is_predicate : app -> bool) (st : inliner app) : Prop :=
  forall c, In c (m_inlined_rules st) ->
            wf_rule is_predicate c = true /\ admissible_tails st c = 0.

(** what resolution relies on from the rule manager and the simplifier,
    [is_predicate] telling the predicate atoms from the constraints *)
Class ResolutionLaws (is_predicate : app -> bool) : Prop := {
  subst_apply_predicate :
    forall s d o (a : app),
      is_predicate (subst_apply s d o a) = is_predicate a
      /\ app_decl (subst_apply s d o a) = app_decl a;
  rm_mk_sorts :
    forall (h : app) tail neg,
      wf_rule is_predicate (rm_mk h tail neg) = true
      /\ forall f, count_decl f (pos_tail (rm_mk h tail neg))
                   <= count_decl f (filter is_predicate (positive_entries tail neg));
  rm_norm_vars_renames :
    forall r : rule app,
      wf_rule is_predicate r = true ->
      wf_rule is_predicate (rm_norm_vars r) = true
      /\ map app_decl (pos_tail (rm_norm_vars r)) = map app_decl (pos_tail r);
  rm_fix_unbound_vars_tail :
    forall r : rule app,
      wf_rule is_predicate r = true ->
      wf_rule is_predicate (rm_fix_unbound_vars r) = true
      /\ forall f, count_decl f (pos_tail (rm_fix_unbound_vars r))
                   <= count_decl f (pos_tail r);
  interp_simplifier_tail :
    forall r r' : rule app,
      wf_rule is_predicate r = true ->
      interp_simplifier r = Some r' ->
      wf_rule is_predicate r' = true
      /\ forall f, count_decl f (pos_tail r') <= count_decl f (pos_tail r)
}.

End Vocabulary.

Arguments linear_step app : clear implicits.

(** ** A variable-free host

    Ground Datalog: atoms over constants, constraints that are opaque but
    know whether they hold a quantifier and whether they are satisfiable.
    Unification is equality, substitutions do nothing, the stratifier
    computes the strongly connected components of the dependency graph. *)
Module Ground.

Inductive gapp : Type :=
| Atom (d : func_decl) (args : list nat)
| Constraint (id : nat) (quantified : bool) (satisfiable : bool).

Definition gapp_decl (a : gapp) : func_decl :=
  match a with
  | Atom d _ => d
  | Constraint id _ _ => mk_func_decl id 0
  end.

Fixpoint args_eqb (x y : list nat) : bool :=
  match x, y with
  | [], [] => true
  | a :: x', b :: y' => (a =? b) && args_eqb x' y'
  | _, _ => false
  end.

Definition gapp_eqb (a b : gapp) : bool :=
  match a, b with
  | Atom d x, Atom e y => decl_eqb d e && args_eqb x y
  | Constraint i q s, Constraint j r t =>
      (i =? j) && Bool.eqb q r && Bool.eqb s t
  | _, _ => false
  end.

Definition is_atom (a : gapp) : bool :=
  match a with
  | Atom _ _ => true
  | Constraint _ _ _ => false
  end.

Definition g_has_quantifiers (a : gapp) : bool :=
  match a with
  | Atom _ _ => false
  | Constraint _ q _ => q
  end.

Definition g_satisfiable (a : gapp) : bool :=
  match a with
  | Atom _ _ => true
  | Constraint _ _ s => s
  end.

Definition g_unif (a b : gapp) : option unit :=
  if gapp_eqb a b then Some tt else None.

(** the rule manager sorts the tail into its three runs *)
Definition g_mk (head : gapp) (tail : list gapp) (neg : list bool) : rule gapp :=
  let tn := combine tail neg in
  mk_rule head
    (map fst (filter (fun x => is_atom (fst x) && negb (snd x)) tn))
    (map fst (filter (fun x => is_atom (fst x) && snd x) tn))
    (map fst (filter (fun x => negb (is_atom (fst x))) tn)).

Definition g_simplifier (r : rule gapp) : option (rule gapp) :=
  if forallb g_satisfiable (interp_tail r) then Some r else None.

(** *** Stratifier *)

Definition rule_head (r : rule gapp) : func_decl := gapp_decl (get_head r).

Definition rule_deps (r : rule gapp) : list func_decl :=
  map gapp_decl (pos_tail r ++ neg_tail r).

Definition all_preds (rs : list (rule gapp)) : decl_set :=
  fold_left (fun s r => fold_left (fun s p => insert p s) (rule_deps r)
                          (insert (rule_head r) s)) rs [].

Definition successors (rs : list (rule gapp)) (p : func_decl) : decl_set :=
  flat_map (fun r => if decl_eqb (rule_head r) p then rule_deps r else []) rs.

Fixpoint reach_from (n : nat) (rs : list (rule gapp)) (seen : decl_set)
    : decl_set :=
  match n with
  | 0 => seen
  | S n' =>
      reach_from n' rs
        (fold_left (fun s p => insert p s) (flat_map (successors rs) seen) seen)
  end.

Definition reach (rs : list (rule gapp)) (p : func_decl) : decl_set :=
  reach_from (length (all_preds rs)) rs [p].

Definition same_component (rs : list (rule gapp)) (p q : func_decl) : bool :=
  contains (reach rs p) q && contains (reach rs q) p.

Definition component (rs : list (rule gapp)) (p : func_decl) : stratum :=
  (p, filter (fun q => negb (decl_eqb q p) && same_component rs p q)
        (rev (all_preds rs))).

Fixpoint insert_stratum (rs : list (rule gapp)) (s : stratum)
    (l : list stratum) : list stratum :=
  match l with
  | [] => [s]
  | t :: l' =>
      if length (reach rs (fst s)) <? length (reach rs (fst t))
      then s :: t :: l'
      else t :: insert_stratum rs s l'
  end.

Definition in_stratum (p : func_decl) (s : stratum) : bool :=
  decl_eqb p (fst s) || contains (snd s) p.

Definition components (rs : list (rule gapp)) : list stratum :=
  fold_left
    (fun l p => if existsb (in_stratum p) l then l
                else insert_stratum rs (component rs p) l)
    (rev (all_preds rs)) [].

Fixpoint strat_index (l : list stratum) (p : func_decl) (i : nat) : nat :=
  match l with
  | [] => 0
  | s :: l' => if in_stratum p s then i else strat_index l' p (S i)
  end.

(** negation must not sit on a cycle *)
Definition stratifiable (rs : list (rule gapp)) : bool :=
  forallb (fun r =>
    forallb (fun a => negb (same_component rs (rule_head r) (gapp_decl a)))
      (neg_tail r)) rs.

Definition g_close (rs : list (rule gapp)) : option rule_stratifier :=
  if stratifiable rs
  then Some (mk_stratifier (components rs)
               (fun p => strat_index (components rs) p 0))
  else None.

#[export] Instance ground_host : Host gapp := {
  app_decl := gapp_decl;
  app_eqb := gapp_eqb;
  has_quantifiers := g_has_quantifiers;
  substitution := unit;
  m_unif := g_unif;
  subst_apply := fun _ _ _ a => a;
  get_max_var := fun _ => 0;
  rm_mk := g_mk;
  rm_norm_vars := fun r => r;
  rm_fix_unbound_vars := fun r => r;
  interp_simplifier := g_simplifier;
  close := g_close;
  index_unify := gapp_eqb
}.

(** *** Rule sets used in the examples *)

Definition pA := mk_func_decl 1 0.
Definition pB := mk_func_decl 2 0.
Definition pC := mk_func_decl 3 0.
Definition pD := mk_func_decl 4 0.
Definition pP := mk_func_decl 5 1.
Definition pQ := mk_func_decl 6 1.
Definition pR := mk_func_decl 7 1.
Definition pOut := mk_func_decl 8 1.
Definition pOut2 := mk_func_decl 9 1.

Definition atom0 (d : func_decl) : gapp := Atom d [].
Definition atom1 (d : func_decl) (c : nat) : gapp := Atom d [c].

Definition ctx_of (outputs facts : decl_set) (p : Params.params_ref) : context :=
  mk_context outputs facts false p.

Definition fresh_inliner (ctx : context) : inliner gapp :=
  mk_inliner ctx [] [] [] [] [] [] [] None None.

(** *** Inputs of the runs *)

Definition rule_of (h : gapp) (pos neg interp : list gapp) : rule gapp :=
  mk_rule h pos neg interp.

(** [Out] and [Out2] are output predicates, [Q] has facts *)
Definition ctx_out : context := ctx_of [pOut; pOut2] [pQ] None.

Definition st_out : inliner gapp := fresh_inliner ctx_out.


(** [Out(1) :- P(1).  Out2(1) :- not P(1).  P(1) :- Q(1).] *)
Definition negated_source : rule_set gapp :=
  [ rule_of (atom1 pOut 1) [atom1 pP 1] [] [];
    rule_of (atom1 pOut2 1) [] [atom1 pP 1] [];
    rule_of (atom1 pP 1) [atom1 pQ 1] [] [] ].

(** [Out(1) :- phi], where [phi] holds a quantifier *)
Definition quantified_rule : rule gapp :=
  rule_of (atom1 pOut 1) [] [] [Constraint 0 true true].

(** [Out(1) :- phi.  Out2(1) :- P(1).  P(1) :- Q(1).] *)
Definition quantified_source : rule_set gapp :=
  [ quantified_rule;
    rule_of (atom1 pOut2 1) [atom1 pP 1] [] [];
    rule_of (atom1 pP 1) [atom1 pQ 1] [] [] ].

(** [Out(1) :- P(1).  P(1) :- Q(1), phi.] with a quantifier in [phi] *)
Definition quantified_candidate : rule gapp :=
  rule_of (atom1 pP 1) [atom1 pQ 1] [] [Constraint 0 true true].

Definition quantified_callee : rule_set gapp :=
  [ rule_of (atom1 pOut 1) [atom1 pP 1] [] []; quantified_candidate ].

(** [Out(1) :- P(1).  P(2) :- P(1).] *)
Definition recursive_source : rule_set gapp :=
  [ rule_of (atom1 pOut 1) [atom1 pP 1] [] [];
    rule_of (atom1 pP 2) [atom1 pP 1] [] [] ].

(** [Out(1) :- P(1).] and nothing for [P] *)
Definition dangling_source : rule_set gapp :=
  [ rule_of (atom1 pOut 1) [atom1 pP 1] [] [] ].

(** [Out(1) :- P(1).  P(1) :- R(1).] *)
Definition chain_source : rule_set gapp :=
  [ rule_of (atom1 pOut 1) [atom1 pP 1] [] [];
    rule_of (atom1 pP 1) [atom1 pR 1] [] [] ].

(** [A :- B.  B :- B.  D :- not B.] with [A] and [D] output predicates and
    [:inline-linear-branch] switched on *)
Definition branch_on : Params.params_ref :=
  Some (Params.set_bool [] ":inline-linear-branch" true).

Definition loop_source : rule_set gapp :=
  [ rule_of (atom0 pA) [atom0 pB] [] [];
    rule_of (atom0 pB) [atom0 pB] [] [];
    rule_of (atom0 pD) [] [atom0 pB] [] ].

Definition st_loop : inliner gapp := fresh_inliner (ctx_of [pA; pD] [] branch_on).

Definition strat_of (rs : rule_set gapp) : rule_stratifier :=
  mk_stratifier (components rs) (fun p => strat_index (components rs) p 0).

Definition chain_strat : rule_stratifier := strat_of chain_source.

Definition pS : func_decl := mk_func_decl 10 1.

(** [S(1) :- P(1).  P(1) :- Q(1).  P(1) :- R(1).] with facts for [Q], [R] *)
Definition multiplier_source : rule_set gapp :=
  [ rule_of (atom1 pS 1) [atom1 pP 1] [] [];
    rule_of (atom1 pP 1) [atom1 pQ 1] [] [];
    rule_of (atom1 pP 1) [atom1 pR 1] [] [] ].

Definition st_multiplier : inliner gapp :=
  count_pred_occurrences (fresh_inliner (ctx_of [pOut] [pQ; pR] None))
    multiplier_source.


Definition st_mc : inliner gapp :=
  with_converters st_out (Some (mc_of_host 0)) None.

Definition st_negated : inliner gapp :=
  count_pred_occurrences st_out negated_source.

Definition st_chain : inliner gapp :=
  count_pred_occurrences st_out chain_source.

Definition st_loop_plan : inliner gapp :=
  count_pred_occurrences (with_converters st_loop None None) loop_source.

(** [Out(1) :- P(1).  P(1) :- Q(1).] with facts for [Q] *)
Definition resolved_source : rule_set gapp :=
  [ rule_of (atom1 pOut 1) [atom1 pP 1] [] [];
    rule_of (atom1 pP 1) [atom1 pQ 1] [] [] ].

Definition st_resolved : inliner gapp :=
  count_pred_occurrences st_out resolved_source.

(** [A :- B.  B :- C.  C :- B.] with [A] an output predicate *)
Definition mutual_source : rule_set gapp :=
  [ rule_of (atom0 pA) [atom0 pB] [] [];
    rule_of (atom0 pB) [atom0 pC] [] [];
    rule_of (atom0 pC) [atom0 pB] [] [] ].

Definition st_mutual : inliner gapp :=
  count_pred_occurrences (fresh_inliner (ctx_of [pA] [] None)) mutual_source.

(** [S(1) :- P(1), R(1).  P(1) :- Q(1).  P(1) :- Q(2).  R(1) :- Q(1).
    R(1) :- Q(2).] with [S] an output predicate and facts for [Q] *)
Definition two_multipliers : rule_set gapp :=
  [ rule_of (atom1 pS 1) [atom1 pP 1; atom1 pR 1] [] [];
    rule_of (atom1 pP 1) [atom1 pQ 1] [] [];
    rule_of (atom1 pP 1) [atom1 pQ 2] [] [];
    rule_of (atom1 pR 1) [atom1 pQ 1] [] [];
    rule_of (atom1 pR 1) [atom1 pQ 2] [] [] ].

Definition st_two_multipliers : inliner gapp :=
  count_pred_occurrences (fresh_inliner (ctx_of [pS] [pQ] None))
    two_multipliers.

(** [A :- B.  B :- C.  D :- not B.] with [A] and [D] output predicates and
    [:inline-linear-branch] switched on *)
Definition branch_source : rule_set gapp :=
  [ rule_of (atom0 pA) [atom0 pB] [] [];
    rule_of (atom0 pB) [atom0 pC] [] [];
    rule_of (atom0 pD) [] [atom0 pB] [] ].

Definition st_branch : inliner gapp :=
  count_pred_occurrences (with_converters st_loop None None) branch_source.




(** the state of the linear inliner after its first round at position 0 *)
Definition lin_loop : linear gapp :=
  Eval vm_compute in
    snd (round_result
           (linear_round_at st_loop_plan (linear_init st_loop_plan loop_source)
              true 0)).

End Ground.

(** * Properties *)

(** ** Declarations, sets and counters *)

Lemma decl_eqb_eq (a b : func_decl) : decl_eqb a b = true <-> a = b.
Proof.
  unfold decl_eqb. rewrite andb_true_iff, !Nat.eqb_eq.
  destruct a, b; simpl; split.
  - intros [-> ->]; reflexivity.
  - intros E; inversion E; auto.
Qed.

Lemma decl_eqb_refl (a : func_decl) : decl_eqb a a = true.
Proof. apply decl_eqb_eq. reflexivity. Qed.

Lemma decl_eqb_sym (a b : func_decl) : decl_eqb a b = decl_eqb b a.
Proof.
  unfold decl_eqb. now rewrite (Nat.eqb_sym (get_id a)), (Nat.eqb_sym (get_arity a)).
Qed.

Lemma decl_eqb_neq (a b : func_decl) : decl_eqb a b = false <-> a <> b.
Proof.
  rewrite <- decl_eqb_eq. destruct (decl_eqb a b); split; congruence.
Qed.

Lemma contains_In (s : decl_set) (p : func_decl) : contains s p = true <-> In p s.
Proof.
  unfold contains. rewrite existsb_exists. split.
  - intros [x [Hx E]]. apply decl_eqb_eq in E. now subst.
  - intros Hp. exists p. split; [assumption | apply decl_eqb_refl].
Qed.

Lemma contains_insert (s : decl_set) (p q : func_decl) :
  contains (insert p s) q = decl_eqb q p || contains s q.
Proof.
  unfold insert. destruct (contains s p) eqn:E.
  - destruct (decl_eqb q p) eqn:Eq; [|reflexivity].
    apply decl_eqb_eq in Eq. subst. now rewrite E.
  - reflexivity.
Qed.

Lemma contains_insert_same (s : decl_set) (p : func_decl) :
  contains (insert p s) p = true.
Proof. rewrite contains_insert, decl_eqb_refl. reflexivity. Qed.

Lemma contains_insert_mono (s : decl_set) (p q : func_decl) :
  contains s q = true -> contains (insert p s) q = true.
Proof. intros E. rewrite contains_insert, E. apply orb_true_r. Qed.

Lemma ctr_get_set_same (c : counter) (p : func_decl) (n : N) :
  ctr_get (ctr_set c p n) p = n.
Proof. simpl. now rewrite decl_eqb_refl. Qed.

Lemma ctr_get_set_other (c : counter) (p q : func_decl) (n : N) :
  q <> p -> ctr_get (ctr_set c p n) q = ctr_get c q.
Proof. intros Hn. simpl. apply decl_eqb_neq in Hn. now rewrite Hn. Qed.

Lemma wrap32_small (n : N) : (n < 4294967296)%N -> wrap32 n = n.
Proof. intros Hn. unfold wrap32. now apply N.mod_small. Qed.

Section Planner.

Context {app : Type} {host : Host app}.

(** ** The admissibility oracle *)

(** C4: [inlining_allowed] answers true exactly when the four hard
    conditions hold (not an output predicate, not among the predicates with
    facts, no negative occurrence, not forbidden) and one of the two soft
    conditions holds (head count at most 1, or tail count at most 1 with
    head count at most 4). *)
Theorem inlining_allowed_iff (st : inliner app) (p : func_decl) :
  inlining_allowed st p = true <->
  (is_output_predicate (m_context st) p = false
   /\ contains (m_preds_with_facts st) p = false
   /\ contains (m_preds_with_neg_occurrence st) p = false
   /\ contains (m_forbidden_preds st) p = false)
  /\ ((ctr_get (m_head_pred_ctr st) p <= 1)%N
      \/ ((ctr_get (m_tail_pred_ctr st) p <= 1)%N
          /\ (ctr_get (m_head_pred_ctr st) p <= 4)%N)).
Proof.
  unfold inlining_allowed.
  destruct (is_output_predicate (m_context st) p);
  destruct (contains (m_preds_with_facts st) p);
  destruct (contains (m_preds_with_neg_occurrence st) p);
  destruct (contains (m_forbidden_preds st) p); simpl;
  try (split; [discriminate | intros [(? & ? & ? & ?) _]; discriminate]).
  rewrite orb_true_iff, andb_true_iff, !N.leb_le. tauto.
Qed.

Lemma inlining_allowed_head_le_4 (st : inliner app) (p : func_decl) :
  inlining_allowed st p = true -> (ctr_get (m_head_pred_ctr st) p <= 4)%N.
Proof.
  unfold inlining_allowed.
  destruct (is_output_predicate (m_context st) p
            || contains (m_preds_with_facts st) p
            || contains (m_preds_with_neg_occurrence st) p
            || contains (m_forbidden_preds st) p); [discriminate|].
  rewrite orb_true_iff, andb_true_iff, !N.leb_le. lia.
Qed.

Lemma inlining_allowed_not_negated (st : inliner app) (p : func_decl) :
  contains (m_preds_with_neg_occurrence st) p = true ->
  inlining_allowed st p = false.
Proof.
  intros Hn. unfold inlining_allowed. rewrite Hn.
  now rewrite !orb_true_r.
Qed.


(** ** The multiplier guard *)

Lemma multiplier_inv_init (st : inliner app) (p : func_decl) (sf : bool) :
  multiplier_inv p
    (mk_multiplier_vars st (1 <? ctr_get (m_head_pred_ctr st) p)%N sf).
Proof.
  unfold multiplier_inv; simpl. intros E. apply N.ltb_ge in E. exact E.
Qed.

Lemma multiplier_tail_inv (p q : func_decl) (occ : bool)
    (v : multiplier_vars app) :
  multiplier_inv p v -> multiplier_inv p (fst (multiplier_tail p occ v q)).
Proof.
  unfold multiplier_inv, multiplier_tail. intros Hinv.
  destruct (inlining_allowed (mv_st v) q); simpl; [|exact Hinv].
  destruct (ctr_get (m_head_pred_ctr (mv_st v)) q <=? 1)%N; [exact Hinv|].
  destruct (mv_is_multi_head_pred v) eqn:Ef; simpl; [discriminate|].
  destruct occ; simpl; [|discriminate].
  intros _. now apply Hinv.
Qed.

Lemma multiplier_tails_inv (p : func_decl) (occ : bool) (tails : list app) :
  forall v, multiplier_inv p v ->
            multiplier_inv p (fst (multiplier_tails p occ v tails)).
Proof.
  induction tails as [|a tails IH]; intros v Hinv; simpl; [exact Hinv|].
  pose proof (@multiplier_tail_inv p (app_decl a) occ v Hinv) as H1.
  destruct (multiplier_tail p occ v (app_decl a)) as [v' goto]; simpl in H1.
  destruct goto; simpl; [exact H1 | now apply IH].
Qed.

Lemma multiplier_rules_inv (p : func_decl) (occ : bool) (rs : rule_set app) :
  forall v, multiplier_inv p v ->
            multiplier_inv p (fst (multiplier_rules p occ v rs)).
Proof.
  induction rs as [|r rs IH]; intros v Hinv; simpl; [exact Hinv|].
  pose proof (@multiplier_tails_inv p occ (pos_tail r) v Hinv) as H1.
  destruct (multiplier_tails p occ v (pos_tail r)) as [v' goto]; simpl in H1.
  destruct goto; simpl; [exact H1 | now apply IH].
Qed.

(** C6: the multiplier guard at an admissible tail predicate [q] with more
    than one defining rule, met in a rule of [p].  If [p] is already marked
    multi-head, [p] is forbidden and the guard leaves for the next
    predicate; otherwise, if [p] occurs more than once in tails, [q] is
    forbidden; otherwise [p] becomes multi-head and its head count becomes
    the product of the two head counts, which is what the rest of the loop
    reads. *)
Theorem multiplier_guard_step (st : inliner app) (p q : func_decl)
    (is_multi_head something_forbidden : bool) :
  let occ := (1 <? ctr_get (m_tail_pred_ctr st) p)%N in
  let v := mk_multiplier_vars st is_multi_head something_forbidden in
  inlining_allowed st q = true ->
  (1 < ctr_get (m_head_pred_ctr st) q)%N ->
  multiplier_inv p v ->
  (is_multi_head = true ->
     multiplier_tail p occ v q =
       (mk_multiplier_vars
          (set_forbidden_preds st (insert p (m_forbidden_preds st))) true true,
        true))
  /\ (is_multi_head = false -> occ = true ->
        multiplier_tail p occ v q =
          (mk_multiplier_vars
             (set_forbidden_preds st (insert q (m_forbidden_preds st))) false true,
           false))
  /\ (is_multi_head = false -> occ = false ->
        exists st',
          multiplier_tail p occ v q =
            (mk_multiplier_vars st' true something_forbidden, false)
          /\ ctr_get (m_head_pred_ctr st') p =
               (ctr_get (m_head_pred_ctr st) p * ctr_get (m_head_pred_ctr st) q)%N
          /\ m_forbidden_preds st' = m_forbidden_preds st
          /\ forall (a : app) (tails : list app),
               app_decl a = q ->
               multiplier_tails p occ v (a :: tails) =
                 multiplier_tails p occ
                   (mk_multiplier_vars st' true something_forbidden) tails).
Proof.
  intros occ v Hallowed Hcnt Hinv.
  assert (Hle : (ctr_get (m_head_pred_ctr st) q <=? 1)%N = false)
    by (apply N.leb_gt; exact Hcnt).
  repeat split.
  - intros ->. unfold multiplier_tail; simpl. now rewrite Hallowed, Hle.
  - intros -> Hocc. unfold multiplier_tail; simpl.
    rewrite Hallowed, Hle; simpl. subst occ. now rewrite Hocc.
  - intros -> Hocc.
    eexists. split; [|split; [|split]].
    + unfold multiplier_tail; simpl. rewrite Hallowed, Hle; simpl.
      subst occ. rewrite Hocc. reflexivity.
    + simpl. rewrite decl_eqb_refl.
      apply wrap32_small.
      pose proof (inlining_allowed_head_le_4 st q Hallowed) as H4.
      assert (H1 : (ctr_get (m_head_pred_ctr st) p <= 1)%N) by (apply Hinv; reflexivity).
      nia.
    + reflexivity.
    + intros a tails <-. simpl.
      unfold multiplier_tail at 1; simpl. rewrite Hallowed, Hle; simpl.
      subst occ. rewrite Hocc. reflexivity.
Qed.

(** ** Orientation *)

Lemma oriented_tail_true (strat : rule_stratifier) (h : func_decl) (a : app) :
  oriented_tail strat h a = true <->
  (get_predicate_strat strat (app_decl a) <> get_predicate_strat strat h
   \/ get_arity (app_decl a) < get_arity h
   \/ (get_arity (app_decl a) = get_arity h
       /\ get_id (app_decl a) < get_id h)).
Proof.
  unfold oriented_tail.
  destruct (Nat.eqb_spec (get_predicate_strat strat (app_decl a))
              (get_predicate_strat strat h)) as [E|E].
  - rewrite negb_true_iff, orb_false_iff, andb_false_iff,
      Nat.ltb_ge, Nat.eqb_neq, Nat.leb_gt. lia.
  - split; auto.
Qed.

Lemma is_oriented_rewriter_criterion (strat : rule_stratifier) (r : rule app) :
  stratum_respected strat r ->
  (is_oriented_rewriter r strat = true <-> oriented_criterion strat r).
Proof.
  intros Hs. unfold is_oriented_rewriter, oriented_criterion.
  rewrite forallb_forall. split; intros Ho a Ha.
  - specialize (Ho a Ha). apply oriented_tail_true in Ho.
    specialize (Hs a Ha). simpl. lia.
  - apply oriented_tail_true. specialize (Ho a Ha). simpl in Ho. lia.
Qed.

Lemma select_candidate_In (r : rule app) (ti : nat) (l : rule_set app) :
  forall cand c,
    select_candidate r ti l cand = Some (Some c) -> In c l \/ cand = Some c.
Proof.
  induction l as [|x l IH]; intros cand c; simpl.
  - intros E. right. congruence.
  - destruct (unify_rules r ti x).
    + destruct cand; [discriminate|].
      intros E. apply IH in E. destruct E as [E|E]; [auto|].
      left; left. congruence.
    + intros E. apply IH in E. tauto.
Qed.

Lemma inlining_candidate_of_In (r : rule app) (ti : nat) (l : rule_set app)
    (c : rule app) :
  inlining_candidate_of r ti l = Some (Some c) -> In c l.
Proof.
  unfold inlining_candidate_of. destruct l as [|x [|y l]].
  - discriminate.
  - intros E. left. congruence.
  - intros E. apply select_candidate_In in E.
    destruct E as [E|E]; [exact E | discriminate].
Qed.

Lemma get_predicate_rules_In (rs : rule_set app) (p : func_decl) (c : rule app) :
  In c (get_predicate_rules rs p) <-> In c rs /\ get_decl c = p.
Proof.
  unfold get_predicate_rules. rewrite filter_In, decl_eqb_eq. reflexivity.
Qed.

Lemma eager_tails_inlined (st : inliner app) (r : rule app) (rules : rule_set app)
    (strat : rule_stratifier) (tails : list app) :
  forall ti st' r' res,
    eager_tails st r rules strat ti tails = (st', r', Some (Some res)) ->
    exists k a c,
      nth_error tails k = Some a
      /\ In c rules /\ get_decl c = app_decl a
      /\ is_oriented_rewriter c strat = true
      /\ try_to_inline_rule st r c (ti + k) = (st', r', Some res).
Proof.
  induction tails as [|a tails IH]; intros ti st' r' res; simpl; [discriminate|].
  assert (Hnext : eager_tails st r rules strat (S ti) tails = (st', r', Some (Some res)) ->
                  exists k a0 c, nth_error (a :: tails) k = Some a0
                    /\ In c rules /\ get_decl c = app_decl a0
                    /\ is_oriented_rewriter c strat = true
                    /\ try_to_inline_rule st r c (ti + k) = (st', r', Some res)).
  { intros E. apply IH in E. destruct E as (k & a0 & c & Hk & Hc & Hd & Ho & Ht).
    exists (S k), a0, c. repeat split; auto.
    replace (ti + S k) with (S ti + k) by lia. exact Ht. }
  destruct (decl_eqb (app_decl a) (get_decl r)
            || contains (m_preds_with_facts st) (app_decl a)); [exact Hnext|].
  destruct (inlining_candidate_of r ti (get_predicate_rules rules (app_decl a)))
    as [[c|]|] eqn:Ec; [| discriminate | exact Hnext].
  destruct (is_oriented_rewriter c strat) eqn:Eo; simpl; [|exact Hnext].
  destruct (try_to_inline_rule st r c ti) as [[st1 r1] [res1|]] eqn:Et;
    [|discriminate].
  intros E. inversion E; subst.
  apply inlining_candidate_of_In, get_predicate_rules_In in Ec.
  destruct Ec as [Hin Hd].
  exists 0, a, c. repeat split; auto.
  now rewrite Nat.add_0_r.
Qed.

(** C5: under a stratification, which puts no positive tail predicate of a
    rule above its head, [is_oriented_rewriter] answers true exactly when
    every positive tail predicate is below the head in the lexicographic
    order on stratum, arity and id; and a call of the eager inliner that
    replaces its rule resolved it with a rule of the set that meets the
    criterion. *)
Theorem oriented_rewriter_eager (strat : rule_stratifier) :
  (forall r : rule app,
      stratum_respected strat r ->
      (is_oriented_rewriter r strat = true <-> oriented_criterion strat r))
  /\ (forall (st : inliner app) (r : rule app) (rules : rule_set app)
             st' r' res,
         (forall c, In c rules -> stratum_respected strat c) ->
         do_eager_inlining_rule st r rules strat = (st', r', Some (Some res)) ->
         exists ti a c,
           nth_error (pos_tail r) ti = Some a
           /\ In c rules /\ get_decl c = app_decl a
           /\ is_oriented_rewriter c strat = true
           /\ oriented_criterion strat c
           /\ try_to_inline_rule st r c ti = (st', r', Some res)).
Proof.
  split.
  - intros r. apply is_oriented_rewriter_criterion.
  - intros st r rules st' r' res Hs E.
    apply eager_tails_inlined in E.
    destruct E as (k & a & c & Hk & Hc & Hd & Ho & Ht).
    exists k, a, c. repeat split; auto.
    apply is_oriented_rewriter_criterion; auto.
Qed.

(** ** Deletion by the eager inliner *)

Lemma eager_tails_skip (st : inliner app) (r : rule app) (rules : rule_set app)
    (strat : rule_stratifier) (ti : nat) (a : app) (tails : list app) :
  eager_skips st r rules strat ti a = true ->
  eager_tails st r rules strat ti (a :: tails)
  = eager_tails st r rules strat (S ti) tails.
Proof.
  unfold eager_skips. simpl.
  destruct (decl_eqb (app_decl a) (get_decl r)
            || contains (m_preds_with_facts st) (app_decl a)); simpl; [reflexivity|].
  destruct (inlining_candidate_of r ti (get_predicate_rules rules (app_decl a)))
    as [[c|]|]; [|discriminate|reflexivity].
  intros ->. reflexivity.
Qed.

Lemma eager_tails_reach (st : inliner app) (r : rule app) (rules : rule_set app)
    (strat : rule_stratifier) (pre : list app) :
  forall ti rest,
    (forall k b, nth_error pre k = Some b ->
                 eager_skips st r rules strat (ti + k) b = true) ->
    eager_tails st r rules strat ti (pre ++ rest)
    = eager_tails st r rules strat (ti + length pre) rest.
Proof.
  induction pre as [|b pre IH]; intros ti rest Hs.
  - simpl. now rewrite Nat.add_0_r.
  - change ((b :: pre) ++ rest) with (b :: (pre ++ rest)).
    rewrite eager_tails_skip.
    + rewrite IH.
      * simpl. f_equal. lia.
      * intros k c Hk. replace (S ti + k) with (ti + S k) by lia.
        apply Hs. exact Hk.
    + specialize (Hs 0 b eq_refl). now rewrite Nat.add_0_r in Hs.
Qed.

Lemma select_candidate_none_unifies (r : rule app) (ti : nat) (l : rule_set app) :
  (forall c, In c l -> unify_rules r ti c = None) ->
  forall cand, select_candidate r ti l cand = Some cand.
Proof.
  induction l as [|x l IH]; intros Hu cand; simpl; [reflexivity|].
  rewrite (Hu x (or_introl eq_refl)). apply IH.
  intros c Hc. apply Hu. now right.
Qed.

Lemma eager_tails_at (st : inliner app) (r : rule app) (rules : rule_set app)
    (strat : rule_stratifier) (ti : nat) (a : app) (tails : list app) :
  app_decl a <> get_decl r ->
  contains (m_preds_with_facts st) (app_decl a) = false ->
  eager_tails st r rules strat ti (a :: tails)
  = match inlining_candidate_of r ti (get_predicate_rules rules (app_decl a)) with
    | None => eager_tails st r rules strat (S ti) tails
    | Some None => (mc_del_rule st r, r, Some None)
    | Some (Some c) =>
        if negb (is_oriented_rewriter c strat)
        then eager_tails st r rules strat (S ti) tails
        else
          let '(st', r', res) := try_to_inline_rule st r c ti in
          match res with
          | Some res' => (st', r', Some (Some res'))
          | None => (mc_del_rule st' r', r', Some None)
          end
    end.
Proof.
  intros Hne Hf. simpl. apply decl_eqb_neq in Hne. rewrite Hne, Hf. reflexivity.
Qed.

(** why [try_to_inline_rule] fails: a quantifier in the source, no unifier,
    or an unsatisfiable interpreted tail of the resolvent *)
Lemma try_to_inline_rule_fails (st : inliner app) (tgt src : rule app) (i : nat) :
  snd (try_to_inline_rule st tgt src i) = None <->
  (has_quantifier src = true
   \/ unify_rules (rm_norm_vars tgt) i src = None
   \/ exists u, unify_rules (rm_norm_vars tgt) i src = Some u
                /\ unifier_apply (m_context st) u (rm_norm_vars tgt) i src = None).
Proof.
  unfold try_to_inline_rule.
  destruct (has_quantifier src); simpl; [tauto|].
  destruct (unify_rules (rm_norm_vars tgt) i src) as [u|]; simpl; [|tauto].
  destruct (unifier_apply (m_context st) u (rm_norm_vars tgt) i src) eqn:E; simpl.
  - split; [discriminate|].
    intros [H|[H|[u' [H1 H2]]]]; try discriminate.
    inversion H1; subst. congruence.
  - split; auto. intros _. right; right. exists u. auto.
Qed.

(** C9, as the code has it: at the tail atom the scan has reached, whose
    predicate [p] is not the head predicate and has no facts, the rule is
    deleted, with a delete-rule record for the model converter, when [p] has
    no rule, when [p] has several rules and none unifies with the atom, and
    when the only rule of [p], or the only one that unifies, is an oriented
    rewriter and [try_to_inline_rule] fails on it.  A candidate that is not
    an oriented rewriter is passed over and takes no part in the decision. *)
Theorem eager_deletes_rule (st : inliner app) (r : rule app)
    (rules : rule_set app) (strat : rule_stratifier)
    (pre : list app) (a : app) (post : list app) :
  let p := app_decl a in
  let ti := length pre in
  let pred_rules := get_predicate_rules rules p in
  pos_tail r = pre ++ a :: post ->
  (forall k b, nth_error pre k = Some b ->
               eager_skips st r rules strat k b = true) ->
  p <> get_decl r ->
  contains (m_preds_with_facts st) p = false ->
  (pred_rules = [] ->
     do_eager_inlining_rule st r rules strat = (mc_del_rule st r, r, Some None))
  /\ (2 <= length pred_rules ->
      (forall c, In c pred_rules -> unify_rules r ti c = None) ->
      do_eager_inlining_rule st r rules strat = (mc_del_rule st r, r, Some None))
  /\ (forall c st' r',
         inlining_candidate_of r ti pred_rules = Some (Some c) ->
         is_oriented_rewriter c strat = true ->
         try_to_inline_rule st r c ti = (st', r', None) ->
         do_eager_inlining_rule st r rules strat
         = (mc_del_rule st' r', r', Some None))
  /\ (forall (st1 : inliner app) (x : rule app) log,
         m_mc st1 = Some log -> m_mc (mc_del_rule st1 x) = Some (log ++ [x])).
Proof.
  intros p ti pred_rules Hpos Hskip Hne Hf.
  assert (Hreach : do_eager_inlining_rule st r rules strat
                   = eager_tails st r rules strat ti (a :: post)).
  { unfold do_eager_inlining_rule. rewrite Hpos.
    rewrite eager_tails_reach by (intros k b Hk; apply Hskip; exact Hk).
    reflexivity. }
  rewrite Hreach, (@eager_tails_at st r rules strat ti a post Hne Hf).
  fold p. fold pred_rules.
  repeat split.
  - intros ->. reflexivity.
  - intros Hlen Hu.
    assert (E : inlining_candidate_of r ti pred_rules = Some None).
    { unfold inlining_candidate_of.
      destruct pred_rules as [|x [|y l]]; simpl in Hlen; try lia.
      now apply select_candidate_none_unifies. }
    now rewrite E.
  - intros c st' r' Ec Ho Et. rewrite Ec, Ho, Et. reflexivity.
  - intros st1 x log E. unfold mc_del_rule. rewrite E. reflexivity.
Qed.

End Planner.

Section Linear.

Context {app : Type} {host : Host app}.

(** [try_to_inline_rule] hands the target back renumbered *)
Lemma try_to_inline_rule_tgt (st : inliner app) (tgt src : rule app) (i : nat) :
  snd (fst (try_to_inline_rule st tgt src i)) = rm_norm_vars tgt.
Proof.
  unfold try_to_inline_rule.
  destruct (has_quantifier src); [reflexivity|].
  destruct (unify_rules (rm_norm_vars tgt) i src) as [u|]; [|reflexivity].
  destruct (unifier_apply (m_context st) u (rm_norm_vars tgt) i src);
    reflexivity.
Qed.

(** ** The flags and the index of the linear inliner *)

Lemma set_nth_length {A : Type} (i : nat) (x : A) (l : list A) :
  length (set_nth i x l) = length l.
Proof.
  revert i. induction l as [|y l IH]; intros [|i]; simpl; auto.
Qed.

Lemma set_nth_same {A : Type} (i : nat) (x d : A) (l : list A) :
  i < length l -> nth i (set_nth i x l) d = x.
Proof.
  revert i. induction l as [|y l IH]; intros [|i]; simpl; intros Hi; try lia; auto.
  apply IH. lia.
Qed.

Lemma set_nth_other {A : Type} (i j : nat) (x d : A) (l : list A) :
  i <> j -> nth j (set_nth i x l) d = nth j l d.
Proof.
  revert i j. induction l as [|y l IH]; intros [|i] [|j] Hne; simpl; auto; try lia.
Qed.

Lemma get_flag_true_lt (v : list bool) (i : nat) :
  get_flag v i = true -> i < length v.
Proof.
  unfold get_flag. intros E.
  destruct (Nat.lt_ge_cases i (length v)) as [H|H]; [exact H|].
  rewrite nth_overflow in E by exact H. discriminate.
Qed.

Lemma add_rule_valid (st : inliner app) (lin : linear app) (r : rule app) (i : nat) :
  valid (add_rule st lin r i) = valid lin.
Proof.
  unfold add_rule.
  destruct (fold_left (add_rule_tail i) (uninterpreted_tail r)
              (tail_positions lin, m_tail_index lin)); reflexivity.
Qed.

Lemma add_rule_acc (st : inliner app) (lin : linear app) (r : rule app) (i : nat) :
  acc (add_rule st lin r i) = acc lin.
Proof.
  unfold add_rule.
  destruct (fold_left (add_rule_tail i) (uninterpreted_tail r)
              (tail_positions lin, m_tail_index lin)); reflexivity.
Qed.

Lemma add_rule_tail_index (st : inliner app) (lin : linear app) (r : rule app)
    (i : nat) :
  (tail_positions (add_rule st lin r i), m_tail_index (add_rule st lin r i))
  = fold_left (add_rule_tail i) (uninterpreted_tail r)
      (tail_positions lin, m_tail_index lin).
Proof.
  unfold add_rule.
  destruct (fold_left (add_rule_tail i) (uninterpreted_tail r)
              (tail_positions lin, m_tail_index lin)); reflexivity.
Qed.

Lemma find_add_position_mono (m : positions app) (e e' : app) (j j' : nat) :
  In j (find_positions m e) -> In j (find_positions (add_position m e' j') e).
Proof.
  induction m as [|[x v] m IH]; simpl; [tauto|].
  destruct (app_eqb e' x) eqn:E'; simpl.
  - destruct (app_eqb e x); [|auto]. intros H. apply in_or_app. now left.
  - destruct (app_eqb e x); auto.
Qed.

Lemma index_insert_mono (idx : list app) (e e' : app) :
  In e idx -> In e (index_insert idx e').
Proof.
  unfold index_insert. destruct (existsb (app_eqb e') idx); [auto|].
  intros H. apply in_or_app. now left.
Qed.

Lemma unifiers_In (idx : list app) (m : positions app) (h : app) (j : nat) :
  In j (unifiers idx m h) <->
  exists e, In e idx /\ index_unify e h = true /\ In j (find_positions m e).
Proof.
  unfold unifiers. rewrite in_flat_map. split.
  - intros [e [He Hj]]. exists e. destruct (index_unify e h); [auto|contradiction].
  - intros [e (He & Hu & Hj)]. exists e. rewrite Hu. auto.
Qed.

Lemma valid_rules_In (v : list bool) (a : list (rule app)) (r : rule app) :
  In r (valid_rules v a) <->
  exists m, nth_error a m = Some r /\ get_flag v m = true.
Proof.
  unfold get_flag. revert v. induction a as [|x a IH]; intros v.
  - destruct v; simpl; (split; [intros [] |]); intros [[|m] [H _]]; discriminate.
  - destruct v as [|b v]; simpl.
    + split; [intros [] |]. intros [[|m] [_ H]]; simpl in H; discriminate.
    + split.
      * destruct b.
        -- intros [->|H]; [exists 0; auto|].
           apply IH in H. destruct H as [m Hm]. exists (S m). exact Hm.
        -- intros H. apply IH in H. destruct H as [m Hm]. exists (S m). exact Hm.
      * intros [[|m] [H1 H2]]; simpl in *.
        -- inversion H1; subst. now left.
        -- assert (In r (valid_rules v a)) by (apply IH; eauto).
           destruct b; [now right|assumption].
Qed.

(** what a round that inlines has checked and what it does to [valid] *)
Lemma linear_round_inlined (st : inliner app) (lin : linear app)
    (allow_branching : bool) (i : nat) st' lin' j k :
  linear_round_at st lin allow_branching i = LInlined st' lin' j k ->
  exists r t0 r2,
    nth_error (acc lin) i = Some r
    /\ get_tail r 0 = Some t0
    /\ unifiers (m_head_index lin) (head_positions lin) t0 = [j]
    /\ nth_error (acc lin) j = Some r2
    /\ k = length (unifiers (m_tail_index lin) (tail_positions lin) (get_head r2))
    /\ get_flag (can_remove lin) j = true
    /\ get_flag (valid lin) j = true
    /\ i <> j
    /\ (allow_branching = true \/ k = 1)
    /\ valid lin' = (if k =? 1 then set_nth j false (valid lin) else valid lin).
Proof.
  unfold linear_round_at.
  destruct (nth_error (acc lin) i) as [r|] eqn:Er; [|discriminate].
  destruct (get_flag (valid lin) i); simpl; [|discriminate].
  destruct (get_flag (can_expand lin) i); simpl; [|discriminate].
  destruct (get_tail r 0) as [t0|] eqn:Et; [|discriminate].
  destruct (unifiers (m_head_index lin) (head_positions lin) t0)
    as [|j0 [|j1 l]] eqn:Eu; try discriminate.
  destruct (get_flag (can_remove lin) j0) eqn:Ecr; simpl; [|discriminate].
  destruct (get_flag (valid lin) j0) eqn:Ev; simpl; [|discriminate].
  destruct (Nat.eqb_spec i j0) as [Eij|Eij]; [discriminate|].
  destruct (nth_error (acc lin) j0) as [r2|] eqn:Er2; [|discriminate].
  destruct (negb allow_branching
            && negb (length (unifiers (m_tail_index lin) (tail_positions lin)
                               (get_head r2)) =? 1)) eqn:Eb; [discriminate|].
  destruct (try_to_inline_rule st r r2 0) as [[st1 r'] [res|]]; [|discriminate].
  assert (Hb : allow_branching = true
               \/ length (unifiers (m_tail_index lin) (tail_positions lin)
                            (get_head r2)) = 1).
  { apply andb_false_iff in Eb. destruct Eb as [Eb|Eb].
    - left. now destruct allow_branching.
    - right. apply negb_false_iff, Nat.eqb_eq in Eb. exact Eb. }
  destruct (length (unifiers (m_tail_index lin) (tail_positions lin)
                      (get_head r2)) =? 1) eqn:Ek;
    intros E; inversion E; subst; clear E;
    exists r, t0, r2; rewrite ?Ek; repeat split; auto;
    simpl; rewrite add_rule_valid; reflexivity.
Qed.

End Linear.

Section LinearIndex.

Context {app : Type} {host : Host app} {laws : HostLaws host}.

Lemma app_eqb_refl (a : app) : app_eqb a a = true.
Proof. apply app_eqb_eq. reflexivity. Qed.

Lemma find_add_position_same (m : positions app) (e : app) (j : nat) :
  In j (find_positions (add_position m e j) e).
Proof.
  induction m as [|[x v] m IH]; simpl.
  - rewrite app_eqb_refl. now left.
  - destruct (app_eqb e x) eqn:E; simpl; rewrite E; [|exact IH].
    apply in_or_app. right. now left.
Qed.

Lemma index_insert_same (idx : list app) (e : app) : In e (index_insert idx e).
Proof.
  unfold index_insert. destruct (existsb (app_eqb e) idx) eqn:E.
  - apply existsb_exists in E. destruct E as [x [Hx E]].
    apply app_eqb_eq in E. now subst.
  - apply in_or_app. right. now left.
Qed.

Lemma add_rule_tails_indexed (i : nat) (tails : list app) :
  forall (pi : positions app * list app) (a : app),
    (In a tails \/ (In i (find_positions (fst pi) a) /\ In a (snd pi))) ->
    In i (find_positions (fst (fold_left (add_rule_tail i) tails pi)) a)
    /\ In a (snd (fold_left (add_rule_tail i) tails pi)).
Proof.
  induction tails as [|t tails IH]; intros pi a H; simpl.
  - destruct H as [[]|H]. exact H.
  - apply IH. destruct H as [[->|H]|[H1 H2]].
    + right. simpl. split; [apply find_add_position_same | apply index_insert_same].
    + now left.
    + right. simpl.
      split; [now apply find_add_position_mono | now apply index_insert_mono].
Qed.

Lemma add_rule_tails_mono (i : nat) (tails : list app) :
  forall (pi : positions app * list app) (a : app) (j : nat),
    In j (find_positions (fst pi) a) -> In a (snd pi) ->
    In j (find_positions (fst (fold_left (add_rule_tail i) tails pi)) a)
    /\ In a (snd (fold_left (add_rule_tail i) tails pi)).
Proof.
  induction tails as [|t tails IH]; intros pi a j H1 H2; simpl; [auto|].
  apply IH; simpl;
    [now apply find_add_position_mono | now apply index_insert_mono].
Qed.

Lemma add_rule_indexed_mono (st : inliner app) (lin : linear app) (r : rule app)
    (i : nat) (a : app) (j : nat) :
  In j (find_positions (tail_positions lin) a) -> In a (m_tail_index lin) ->
  In j (find_positions (tail_positions (add_rule st lin r i)) a)
  /\ In a (m_tail_index (add_rule st lin r i)).
Proof.
  intros H1 H2.
  pose proof (add_rule_tail_index st lin r i) as E.
  pose proof (@add_rule_tails_mono i (uninterpreted_tail r)
                (tail_positions lin, m_tail_index lin) a j H1 H2) as H.
  rewrite <- E in H. exact H.
Qed.

Lemma add_rule_indexed (st : inliner app) (lin : linear app) (r : rule app)
    (i : nat) (a : app) :
  In a (uninterpreted_tail r) ->
  In i (find_positions (tail_positions (add_rule st lin r i)) a)
  /\ In a (m_tail_index (add_rule st lin r i)).
Proof.
  intros Ha.
  pose proof (add_rule_tail_index st lin r i) as E.
  pose proof (@add_rule_tails_indexed i (uninterpreted_tail r)
                (tail_positions lin, m_tail_index lin) a) as H.
  rewrite <- E in H. apply H. now left.
Qed.

Lemma add_rules_from_indexed_mono (st : inliner app) (rs : list (rule app)) :
  forall (lin : linear app) (i : nat) (a : app) (j : nat),
    In j (find_positions (tail_positions lin) a) -> In a (m_tail_index lin) ->
    In j (find_positions (tail_positions (add_rules_from st lin i rs)) a)
    /\ In a (m_tail_index (add_rules_from st lin i rs)).
Proof.
  induction rs as [|r rs IH]; intros lin i a j H1 H2; simpl; [auto|].
  destruct (add_rule_indexed_mono st lin r i a j H1 H2) as [H3 H4].
  now apply IH.
Qed.

Lemma add_rules_from_indexed (st : inliner app) (rs : list (rule app)) :
  forall (lin : linear app) (i k : nat) (r : rule app) (a : app),
    nth_error rs k = Some r ->
    In a (uninterpreted_tail r) ->
    In (i + k) (find_positions (tail_positions (add_rules_from st lin i rs)) a)
    /\ In a (m_tail_index (add_rules_from st lin i rs)).
Proof.
  induction rs as [|x rs IH]; intros lin i k r a Hk Ha;
    [destruct k; discriminate|].
  destruct k as [|k]; simpl in *.
  - inversion Hk; subst. rewrite Nat.add_0_r.
    destruct (add_rule_indexed st lin r i a Ha) as [H1 H2].
    now apply add_rules_from_indexed_mono.
  - replace (i + S k) with (S i + k) by lia. eapply IH; eauto.
Qed.

End LinearIndex.

Section Bulk.

Context {app : Type} {host : Host app}.

(** ** What bulk inlining leaves alone *)

Lemma plan_eq_refl (st : inliner app) : plan_eq st st.
Proof. unfold plan_eq; repeat split. Qed.

Lemma plan_eq_trans (a b c : inliner app) :
  plan_eq a b -> plan_eq b c -> plan_eq a c.
Proof.
  unfold plan_eq. intros (A1 & A2 & A3 & A4 & A5 & A6) (B1 & B2 & B3 & B4 & B5 & B6).
  repeat split; congruence.
Qed.

Lemma plan_eq_allowed (st st' : inliner app) (p : func_decl) :
  plan_eq st st' -> inlining_allowed st' p = inlining_allowed st p.
Proof.
  intros (A1 & A2 & A3 & A4 & A5 & A6). unfold inlining_allowed.
  now rewrite A1, A2, A3, A4, A5, A6.
Qed.

Lemma plan_eq_first_allowed (st st' : inliner app) (tails : list app) :
  plan_eq st st' ->
  forall i, first_allowed_from st' i tails = first_allowed_from st i tails.
Proof.
  intros He. induction tails as [|a tails IH]; intros i; simpl; [reflexivity|].
  rewrite (plan_eq_allowed _ He). now rewrite IH.
Qed.

Lemma resolve_rule_plan_eq (st : inliner app) (t s : rule app) (i : nat)
    (res : rule app) : plan_eq st (resolve_rule st t s i res).
Proof.
  unfold resolve_rule. destruct (m_pc st); unfold plan_eq; simpl; repeat split.
Qed.

Lemma try_to_inline_rule_plan_eq (st : inliner app) (t s : rule app) (i : nat) :
  plan_eq st (fst (fst (try_to_inline_rule st t s i))).
Proof.
  unfold try_to_inline_rule.
  destruct (has_quantifier s); simpl; [apply plan_eq_refl|].
  destruct (unify_rules (rm_norm_vars t) i s); simpl; [|apply plan_eq_refl].
  destruct (unifier_apply (m_context st) r (rm_norm_vars t) i s); simpl;
    [apply resolve_rule_plan_eq | apply plan_eq_refl].
Qed.

Lemma try_to_inline_rule_inlined_rules (st : inliner app) (t s : rule app) (i : nat) :
  m_inlined_rules (fst (fst (try_to_inline_rule st t s i))) = m_inlined_rules st.
Proof.
  unfold try_to_inline_rule.
  destruct (has_quantifier s); simpl; [reflexivity|].
  destruct (unify_rules (rm_norm_vars t) i s); simpl; [|reflexivity].
  destruct (unifier_apply (m_context st) r (rm_norm_vars t) i s); simpl;
    [|reflexivity].
  unfold resolve_rule. destruct (m_pc st); reflexivity.
Qed.

Lemma inline_pred_rules_plan_eq (i : nat) (l : rule_set app) :
  forall (st : inliner app) (r : rule app) (todo : list (rule app)),
    plan_eq st (fst (fst (inline_pred_rules st r i l todo))).
Proof.
  induction l as [|c l IH]; intros st r todo; simpl; [apply plan_eq_refl|].
  pose proof (try_to_inline_rule_plan_eq st r c i) as H1.
  destruct (try_to_inline_rule st r c i) as [[st1 r1] res]. simpl in H1.
  eapply plan_eq_trans; [exact H1 | apply IH].
Qed.

Lemma inline_pred_rules_inlined_rules (i : nat) (l : rule_set app) :
  forall (st : inliner app) (r : rule app) (todo : list (rule app)),
    m_inlined_rules (fst (fst (inline_pred_rules st r i l todo)))
    = m_inlined_rules st.
Proof.
  induction l as [|c l IH]; intros st r todo; simpl; [reflexivity|].
  pose proof (try_to_inline_rule_inlined_rules st r c i) as H1.
  destruct (try_to_inline_rule st r c i) as [[st1 r1] res]. simpl in H1.
  rewrite IH. exact H1.
Qed.

Lemma target_add_plan_eq (st : inliner app) (tgt : target app) (r : rule app) :
  plan_eq st (fst (target_add st tgt r)).
Proof. destruct tgt; simpl; unfold plan_eq; simpl; repeat split. Qed.

Lemma transform_rule_loop_plan_eq (fuel : nat) :
  forall (st : inliner app) tgt todo modified st' tgt' modified',
    transform_rule_loop fuel st tgt todo modified = Done (st', tgt', modified') ->
    plan_eq st st'.
Proof.
  induction fuel as [|fuel IH]; intros st tgt todo modified st' tgt' modified';
    destruct todo as [|r todo]; simpl; try discriminate.
  - intros E; inversion E; subst. apply plan_eq_refl.
  - intros E; inversion E; subst. apply plan_eq_refl.
  - destruct (has_quantifier r); [apply IH|].
    destruct (first_allowed_from st 0 (pos_tail r)) as [[i pred]|].
    + pose proof (inline_pred_rules_plan_eq i
                    (get_predicate_rules (m_inlined_rules st) pred) st r todo) as H1.
      destruct (inline_pred_rules st r i
                  (get_predicate_rules (m_inlined_rules st) pred) todo)
        as [[st1 r1] todo1]. simpl in H1.
      intros E. apply IH in E. eapply plan_eq_trans; eauto.
    + pose proof (target_add_plan_eq st tgt r) as H1.
      destruct (target_add st tgt r) as [st1 tgt1]. simpl in H1.
      intros E. apply IH in E. eapply plan_eq_trans; eauto.
Qed.

(** ** The sources of bulk resolution *)

Lemma try_to_inline_rule_sources (P : rule app -> Prop) (st : inliner app)
    (t s : rule app) (i : nat) :
  sources_in P st -> P s ->
  sources_in P (fst (fst (try_to_inline_rule st t s i))).
Proof.
  intros Hs Hp. unfold try_to_inline_rule.
  destruct (has_quantifier s); simpl; [exact Hs|].
  destruct (unify_rules (rm_norm_vars t) i s); simpl; [|exact Hs].
  destruct (unifier_apply (m_context st) r (rm_norm_vars t) i s); simpl;
    [|exact Hs].
  unfold resolve_rule, sources_in in *.
  destruct (m_pc st) as [log|] eqn:E; simpl in *; [|rewrite E; exact Hs].
  intros step Hin. apply in_app_or in Hin. destruct Hin as [Hin|[<-|[]]]; auto.
Qed.

Lemma inline_pred_rules_sources (P : rule app -> Prop) (i : nat) (l : rule_set app) :
  forall (st : inliner app) (r : rule app) (todo : list (rule app)),
    (forall c, In c l -> P c) ->
    sources_in P st ->
    sources_in P (fst (fst (inline_pred_rules st r i l todo))).
Proof.
  induction l as [|c l IH]; intros st r todo Hl Hs; simpl; [exact Hs|].
  pose proof (@try_to_inline_rule_sources P st r c i Hs (Hl c (or_introl eq_refl)))
    as H1.
  destruct (try_to_inline_rule st r c i) as [[st1 r1] res]. simpl in H1.
  apply IH; [|exact H1]. intros x Hx. apply Hl. now right.
Qed.

Lemma first_allowed_from_allowed (st : inliner app) (tails : list app) :
  forall i k pred,
    first_allowed_from st i tails = Some (k, pred) ->
    inlining_allowed st pred = true.
Proof.
  induction tails as [|a tails IH]; intros i k pred; simpl; [discriminate|].
  destruct (inlining_allowed st (app_decl a)) eqn:E.
  - intros H; inversion H; subst. exact E.
  - apply IH.
Qed.

Lemma target_add_pc (st : inliner app) (tgt : target app) (r : rule app) :
  m_pc (fst (target_add st tgt r)) = m_pc st.
Proof. destruct tgt; reflexivity. Qed.

(** the sources [transform_rule] resolves with are rules of admissible
    predicates *)
Lemma transform_rule_loop_sources (st0 : inliner app) (fuel : nat) :
  forall P : rule app -> Prop,
  (forall c, inlining_allowed st0 (get_decl c) = true -> P c) ->
  forall (st : inliner app) tgt todo modified st' tgt' modified',
    plan_eq st0 st ->
    sources_in P st ->
    transform_rule_loop fuel st tgt todo modified = Done (st', tgt', modified') ->
    sources_in P st'.
Proof.
  intros P HP.
  induction fuel as [|fuel IH]; intros st tgt todo modified st' tgt' modified' He Hs;
    destruct todo as [|r todo]; simpl; try discriminate.
  - intros E; inversion E; subst. exact Hs.
  - intros E; inversion E; subst. exact Hs.
  - destruct (has_quantifier r); [now apply IH|].
    destruct (first_allowed_from st 0 (pos_tail r)) as [[i pred]|] eqn:Ef.
    + pose proof (inline_pred_rules_plan_eq i
                    (get_predicate_rules (m_inlined_rules st) pred) st r todo) as H1.
      assert (Hl : forall c, In c (get_predicate_rules (m_inlined_rules st) pred) -> P c).
      { intros c Hc. apply get_predicate_rules_In in Hc. destruct Hc as [_ Hd].
        apply HP. rewrite Hd. rewrite <- (plan_eq_allowed _ He).
        eapply first_allowed_from_allowed; eauto. }
      pose proof (@inline_pred_rules_sources P i _ st r todo Hl Hs) as H2.
      destruct (inline_pred_rules st r i
                  (get_predicate_rules (m_inlined_rules st) pred) todo)
        as [[st1 r1] todo1]. simpl in H1, H2.
      apply IH; [eapply plan_eq_trans; eauto | exact H2].
    + pose proof (target_add_plan_eq st tgt r) as H1.
      pose proof (target_add_pc st tgt r) as H2.
      destruct (target_add st tgt r) as [st1 tgt1]. simpl in H1, H2.
      apply IH; [eapply plan_eq_trans; eauto|].
      unfold sources_in in *. rewrite H2. exact Hs.
Qed.

Lemma transform_rules_sources (st0 : inliner app) (fuel : nat) (orig : rule_set app) :
  forall P : rule app -> Prop,
  (forall c, inlining_allowed st0 (get_decl c) = true -> P c) ->
  forall (st : inliner app) tgt sd st' res sd',
    plan_eq st0 st ->
    sources_in P st ->
    transform_rules fuel st orig tgt sd = Done (st', res, sd') ->
    plan_eq st0 st' /\ sources_in P st'.
Proof.
  intros P HP. induction orig as [|r orig IH]; intros st tgt sd st' res sd' He Hs; simpl.
  - intros E; inversion E; subst. auto.
  - destruct (inlining_allowed st (get_decl r)); [now apply IH|].
    unfold transform_rule.
    destruct (transform_rule_loop fuel st (ToRuleSet tgt) [r] false)
      as [[[st1 tgt1] m1]| |] eqn:E1; simpl; try discriminate.
    apply IH.
    + eapply plan_eq_trans; [exact He|]. eapply transform_rule_loop_plan_eq; eauto.
    + eapply transform_rule_loop_sources; eauto.
Qed.

Lemma plan_rules_sources (st0 : inliner app) (fuel : nat) (rs : rule_set app) :
  forall P : rule app -> Prop,
  (forall c, inlining_allowed st0 (get_decl c) = true -> P c) ->
  forall (st st' : inliner app),
    plan_eq st0 st ->
    sources_in P st ->
    plan_rules fuel st rs = Done st' ->
    plan_eq st0 st' /\ sources_in P st'.
Proof.
  intros P HP. induction rs as [|r rs IH]; intros st st' He Hs; simpl.
  - intros E; inversion E; subst. auto.
  - unfold transform_rule.
    destruct (transform_rule_loop fuel st ToInlinedRules [r] false)
      as [[[st1 tgt1] m1]| |] eqn:E1; simpl; try discriminate.
    apply IH.
    + eapply plan_eq_trans; [exact He|]. eapply transform_rule_loop_plan_eq; eauto.
    + eapply transform_rule_loop_sources; eauto.
Qed.

Lemma plan_strata_sources (st0 : inliner app) (fuel : nat) (c : rule_set app)
    (comps : list stratum) :
  forall P : rule app -> Prop,
  (forall c, inlining_allowed st0 (get_decl c) = true -> P c) ->
  forall (st st' : inliner app),
    plan_eq st0 st ->
    sources_in P st ->
    plan_strata fuel st c comps = Done st' ->
    plan_eq st0 st' /\ sources_in P st'.
Proof.
  intros P HP. induction comps as [|s comps IH]; intros st st' He Hs; simpl.
  - intros E; inversion E; subst. auto.
  - destruct (plan_rules fuel st (get_predicate_rules c (fst s)))
      as [st1| |] eqn:E1; simpl; try discriminate.
    apply (@plan_rules_sources st0 fuel _ P HP) in E1; auto. destruct E1 as [He1 Hs1].
    now apply IH.
Qed.

(** ** What planning leaves alone *)

Lemma kept_refl (st : inliner app) : kept st st.
Proof. unfold kept; repeat split; auto. Qed.

Lemma kept_trans (a b c : inliner app) : kept a b -> kept b c -> kept a c.
Proof.
  unfold kept. intros (A1 & A2 & A3 & A4 & A5) (B1 & B2 & B3 & B4 & B5).
  repeat split; try congruence. auto.
Qed.

Lemma fold_left_kept {X : Type} (f : inliner app -> X -> inliner app) :
  (forall st x, kept st (f st x)) ->
  forall l st, kept st (fold_left f l st).
Proof.
  intros Hf. induction l as [|x l IH]; intros st; simpl; [apply kept_refl|].
  eapply kept_trans; [apply Hf | apply IH].
Qed.

Lemma fold_left_kept_fst {X C : Type} (f : inliner app * C -> X -> inliner app * C) :
  (forall acc x, kept (fst acc) (fst (f acc x))) ->
  forall l acc, kept (fst acc) (fst (fold_left f l acc)).
Proof.
  intros Hf. induction l as [|x l IH]; intros acc; simpl; [apply kept_refl|].
  eapply kept_trans; [apply Hf | apply IH].
Qed.

Lemma count_tail_kept (neg : bool) (st : inliner app) (a : app) :
  kept st (count_tail neg st a).
Proof.
  unfold count_tail, kept. destruct neg; simpl; repeat split; auto.
  intros q Hq. now apply contains_insert_mono.
Qed.

Lemma count_tail_negated (st : inliner app) (a : app) :
  contains (m_preds_with_neg_occurrence (count_tail true st a)) (app_decl a) = true.
Proof. unfold count_tail; simpl. apply contains_insert_same. Qed.

Lemma count_rule_kept (st : inliner app) (r : rule app) : kept st (count_rule st r).
Proof.
  unfold count_rule.
  eapply kept_trans; [|apply fold_left_kept; apply count_tail_kept].
  eapply kept_trans; [|apply fold_left_kept; apply count_tail_kept].
  destruct (0 <? get_tail_size r); unfold kept; simpl; repeat split; auto.
Qed.

Lemma fold_count_tail_negated (l : list app) (a : app) :
  In a l ->
  forall st : inliner app,
    contains (m_preds_with_neg_occurrence (fold_left (count_tail true) l st))
      (app_decl a) = true.
Proof.
  induction l as [|x l IH]; intros Ha st; simpl; [contradiction|].
  destruct Ha as [->|Ha]; [|now apply IH].
  pose proof (fold_left_kept (count_tail true) (count_tail_kept true) l
                (count_tail true st a)) as (_ & _ & _ & _ & Hm).
  apply Hm. apply count_tail_negated.
Qed.

Lemma count_pred_occurrences_kept (st : inliner app) (orig : rule_set app) :
  kept st (count_pred_occurrences st orig).
Proof.
  unfold count_pred_occurrences.
  eapply kept_trans; [|apply fold_left_kept; apply count_rule_kept].
  unfold kept; simpl; repeat split; auto.
Qed.

Lemma count_pred_occurrences_negated (orig : rule_set app) (r : rule app) (a : app) :
  In r orig -> In a (neg_tail r) ->
  forall st : inliner app,
    contains (m_preds_with_neg_occurrence (count_pred_occurrences st orig))
      (app_decl a) = true.
Proof.
  intros Hr Ha st. unfold count_pred_occurrences.
  generalize (set_preds_with_facts st
                (fold_left (fun s p => insert p s)
                   (non_empty_predicates (m_context st)) (m_preds_with_facts st))).
  induction orig as [|x orig IH]; intros st1; simpl; [contradiction|].
  destruct Hr as [->|Hr]; [|now apply IH].
  pose proof (fold_left_kept count_rule count_rule_kept orig (count_rule st1 r))
    as (_ & _ & _ & _ & Hm).
  apply Hm. unfold count_rule. now apply fold_count_tail_negated.
Qed.

Lemma forbid_stratum_kept (acc : inliner app * bool) (s : stratum) :
  kept (fst acc) (fst (forbid_stratum acc s)).
Proof.
  unfold forbid_stratum. destruct (snd s); simpl; [apply kept_refl|].
  unfold kept; simpl; repeat split; auto.
Qed.

Lemma forbid_preds_from_cycles_kept (st : inliner app) (strat : rule_stratifier) :
  kept st (fst (forbid_preds_from_cycles st strat)).
Proof.
  unfold forbid_preds_from_cycles.
  apply (fold_left_kept_fst forbid_stratum forbid_stratum_kept
           (get_strats strat) (st, false)).
Qed.

Lemma break_cycles_kept (orig : rule_set app) (fuel : nat) :
  forall (st : inliner app) c st' c',
    break_cycles fuel st orig c = Done (st', c') -> kept st st'.
Proof.
  induction fuel as [|fuel IH]; intros st c st' c'; simpl; [discriminate|].
  pose proof (forbid_preds_from_cycles_kept st (snd c)) as H1.
  destruct (forbid_preds_from_cycles st (snd c)) as [st1 [|]]; simpl in H1.
  - destruct (create_allowed_rule_set st1 orig) as [c1| |]; simpl; try discriminate.
    intros E. apply IH in E. eapply kept_trans; eauto.
  - intros E; inversion E; subst. exact H1.
Qed.

Lemma multiplier_tail_kept (p q : func_decl) (occ : bool) (v : multiplier_vars app) :
  kept (mv_st v) (mv_st (fst (multiplier_tail p occ v q))).
Proof.
  unfold multiplier_tail.
  destruct (inlining_allowed (mv_st v) q); simpl; [|apply kept_refl].
  destruct (ctr_get (m_head_pred_ctr (mv_st v)) q <=? 1)%N; [apply kept_refl|].
  destruct (mv_is_multi_head_pred v); simpl; [unfold kept; simpl; repeat split; auto|].
  destruct occ; simpl; unfold kept; simpl; repeat split; auto.
Qed.

Lemma multiplier_tails_kept (p : func_decl) (occ : bool) (tails : list app) :
  forall v : multiplier_vars app,
    kept (mv_st v) (mv_st (fst (multiplier_tails p occ v tails))).
Proof.
  induction tails as [|a tails IH]; intros v; simpl; [apply kept_refl|].
  pose proof (multiplier_tail_kept p (app_decl a) occ v) as H1.
  destruct (multiplier_tail p occ v (app_decl a)) as [v' [|]]; simpl in *;
    [exact H1|].
  eapply kept_trans; [exact H1 | apply IH].
Qed.

Lemma multiplier_rules_kept (p : func_decl) (occ : bool) (rs : rule_set app) :
  forall v : multiplier_vars app,
    kept (mv_st v) (mv_st (fst (multiplier_rules p occ v rs))).
Proof.
  induction rs as [|r rs IH]; intros v; simpl; [apply kept_refl|].
  pose proof (multiplier_tails_kept p occ (pos_tail r) v) as H1.
  destruct (multiplier_tails p occ v (pos_tail r)) as [v' [|]]; simpl in *;
    [exact H1|].
  eapply kept_trans; [exact H1 | apply IH].
Qed.

Lemma multiplier_stratum_kept (proposed : rule_set app)
    (acc : inliner app * bool) (s : stratum) :
  kept (fst acc) (fst (multiplier_stratum proposed acc s)).
Proof.
  unfold multiplier_stratum. simpl.
  apply (multiplier_rules_kept (fst s)
           (1 <? ctr_get (m_tail_pred_ctr (fst acc)) (fst s))%N
           (get_predicate_rules proposed (fst s))
           (mk_multiplier_vars (fst acc)
              (1 <? ctr_get (m_head_pred_ctr (fst acc)) (fst s))%N (snd acc))).
Qed.

Lemma multiplier_orig_tail_kept (acc : inliner app * bool * bool) (a : app) :
  kept (fst (fst acc)) (fst (fst (multiplier_orig_tail acc a))).
Proof.
  destruct acc as [[st h] sf]. unfold multiplier_orig_tail. simpl.
  destruct (inlining_allowed st (app_decl a)); simpl; [|apply kept_refl].
  destruct (ctr_get (m_head_pred_ctr st) (app_decl a) <=? 1)%N; simpl;
    [apply kept_refl|].
  destruct h; simpl; [|apply kept_refl].
  unfold kept; simpl; repeat split; auto.
Qed.

Lemma fold_multiplier_orig_tail_kept (l : list app) :
  forall acc : inliner app * bool * bool,
    kept (fst (fst acc)) (fst (fst (fold_left multiplier_orig_tail l acc))).
Proof.
  induction l as [|a l IH]; intros acc; simpl; [apply kept_refl|].
  eapply kept_trans; [apply multiplier_orig_tail_kept | apply IH].
Qed.

Lemma multiplier_orig_rule_kept (acc : inliner app * bool) (r : rule app) :
  kept (fst acc) (fst (multiplier_orig_rule acc r)).
Proof.
  unfold multiplier_orig_rule.
  destruct (inlining_allowed (fst acc) (get_decl r)); [apply kept_refl|].
  pose proof (fold_multiplier_orig_tail_kept (pos_tail r) (fst acc, false, snd acc))
    as H1.
  destruct (fold_left multiplier_orig_tail (pos_tail r) (fst acc, false, snd acc))
    as [[st h] sf]. exact H1.
Qed.

Lemma forbid_multiple_multipliers_kept (st : inliner app) (orig proposed : rule_set app)
    (strat : rule_stratifier) :
  kept st (fst (forbid_multiple_multipliers st orig proposed strat)).
Proof.
  unfold forbid_multiple_multipliers.
  eapply kept_trans;
    [| apply (fold_left_kept_fst multiplier_orig_rule multiplier_orig_rule_kept)].
  apply (fold_left_kept_fst (multiplier_stratum proposed)
           (multiplier_stratum_kept proposed) (get_strats strat) (st, false)).
Qed.

(** planning splits into the analysis, which keeps the converters, and the
    filling of [m_inlined_rules], which keeps the analysis *)
Lemma plan_inlining_split (fuel : nat) (st0 : inliner app) (orig : rule_set app)
    (st1 : inliner app) :
  plan_inlining fuel st0 orig = Done st1 ->
  exists stp c,
    kept (count_pred_occurrences st0 orig) stp
    /\ plan_strata fuel stp (fst c) (get_strats (snd c)) = Done st1.
Proof.
  unfold plan_inlining.
  destruct (create_allowed_rule_set (count_pred_occurrences st0 orig) orig)
    as [c0| |]; simpl; try discriminate.
  destruct (break_cycles fuel (count_pred_occurrences st0 orig) orig c0)
    as [[st2 c2]| |] eqn:Eb; simpl; try discriminate.
  apply break_cycles_kept in Eb.
  pose proof (forbid_multiple_multipliers_kept st2 orig (fst c2) (snd c2)) as Hm.
  destruct (forbid_multiple_multipliers st2 orig (fst c2) (snd c2)) as [st3 fb].
  simpl in Hm.
  destruct (if fb then create_allowed_rule_set st3 orig else Done c2)
    as [c3| |]; simpl; try discriminate.
  intros E. exists st3, c3. split; [|exact E].
  eapply kept_trans; eauto.
Qed.

(** C3, as the code has it: a predicate that occurs negated in the input is
    not admissible once the occurrences are counted, so the planned bulk
    inliner never selects a tail atom of that predicate and never resolves
    with one of its rules: no resolution record of planning or of
    [transform_rules] has such a rule as its source.  (The eager and the
    linear inliner do not read the set of negated predicates.) *)
Theorem bulk_never_inlines_negated (fuel : nat) (st0 : inliner app)
    (orig : rule_set app) (st1 st2 : inliner app) (res : rule_set app)
    (something_done : bool) (p : func_decl) :
  negated_in orig p ->
  sources_in (fun c => get_decl c <> p) st0 ->
  plan_inlining fuel st0 orig = Done st1 ->
  transform_rules fuel st1 orig [] false = Done (st2, res, something_done) ->
  inlining_allowed st1 p = false
  /\ inlining_allowed st2 p = false
  /\ (forall i tails k q,
         first_allowed_from st1 i tails = Some (k, q) -> q <> p)
  /\ sources_in (fun c => get_decl c <> p) st1
  /\ sources_in (fun c => get_decl c <> p) st2.
Proof.
  intros (r & a & Hr & Ha & Hp) Hs0 Hplan Htr.
  apply plan_inlining_split in Hplan. destruct Hplan as (stp & c & Hk & Hstrata).
  pose proof (count_pred_occurrences_kept st0 orig) as Hk0.
  pose proof (kept_trans Hk0 Hk) as (_ & _ & _ & Hpc & _).
  destruct Hk as (_ & _ & _ & _ & Hneg).
  assert (Hnp : contains (m_preds_with_neg_occurrence stp) p = true).
  { apply Hneg. rewrite <- Hp. eapply count_pred_occurrences_negated; eauto. }
  assert (Hap : inlining_allowed stp p = false)
    by now apply inlining_allowed_not_negated.
  assert (HP : forall c, inlining_allowed stp (get_decl c) = true -> get_decl c <> p).
  { intros x Hx E. rewrite E in Hx. congruence. }
  assert (Hsp : sources_in (fun c => get_decl c <> p) stp).
  { unfold sources_in in *. rewrite Hpc. exact Hs0. }
  apply (@plan_strata_sources stp fuel _ _ _ HP) in Hstrata;
    [|apply plan_eq_refl|exact Hsp].
  destruct Hstrata as [He1 Hs1].
  apply (@transform_rules_sources stp fuel orig _ HP) in Htr; auto.
  destruct Htr as [He2 Hs2].
  repeat split; auto.
  - now rewrite (plan_eq_allowed _ He1).
  - now rewrite (plan_eq_allowed _ He2).
  - intros i tails k q Hf E. subst q.
    apply first_allowed_from_allowed in Hf.
    rewrite (plan_eq_allowed _ He1) in Hf. congruence.
Qed.

End Bulk.

Section Output.

Context {app : Type} {host : Host app} {laws : HostLaws host}.

(** ** Rules of output predicates: bulk inlining *)

Lemma transform_rule_loop_done_nil (fuel : nat) (st : inliner app)
    (tgt : target app) (modified : bool) :
  transform_rule_loop fuel st tgt [] modified = Done (st, tgt, modified).
Proof. destruct fuel; reflexivity. Qed.

Lemma transform_rule_loop_grows (fuel : nat) :
  forall (st : inliner app) rs todo modified st' tgt' modified',
    transform_rule_loop fuel st (ToRuleSet rs) todo modified
    = Done (st', tgt', modified') ->
    exists rs', tgt' = ToRuleSet rs' /\ forall x, In x rs -> In x rs'.
Proof.
  induction fuel as [|fuel IH]; intros st rs todo modified st' tgt' modified';
    destruct todo as [|r todo]; simpl; try discriminate.
  - intros E; inversion E; subst. eauto.
  - intros E; inversion E; subst. eauto.
  - destruct (has_quantifier r); [apply IH|].
    destruct (first_allowed_from st 0 (pos_tail r)) as [[i pred]|].
    + destruct (inline_pred_rules st r i
                  (get_predicate_rules (m_inlined_rules st) pred) todo)
        as [[st1 r1] todo1]. apply IH.
    + simpl. intros E. apply IH in E. destruct E as (rs' & -> & Hin).
      exists rs'. split; [reflexivity|]. intros x Hx. apply Hin.
      unfold add_rule_to. apply in_or_app. now left.
Qed.

(** a rule with a quantifier in its interpreted tail is popped and left out *)
Lemma transform_rule_drops_quantified (fuel : nat) (st : inliner app)
    (r : rule app) (tgt : target app) :
  has_quantifier r = true ->
  transform_rule (S fuel) st r tgt = Done (st, tgt, false).
Proof.
  intros Hq. unfold transform_rule. simpl. rewrite Hq.
  apply transform_rule_loop_done_nil.
Qed.

(** a rule without quantifier and without admissible positive tail predicate
    is copied *)
Lemma transform_rule_copies (fuel : nat) (st : inliner app) (r : rule app)
    (rs : rule_set app) st' tgt' modified :
  has_quantifier r = false ->
  first_allowed_from st 0 (pos_tail r) = None ->
  transform_rule fuel st r (ToRuleSet rs) = Done (st', tgt', modified) ->
  st' = st /\ tgt' = ToRuleSet (rs ++ [r]) /\ modified = false.
Proof.
  intros Hq Hf. unfold transform_rule. destruct fuel as [|fuel]; simpl;
    [discriminate|].
  rewrite Hq, Hf. simpl. rewrite transform_rule_loop_done_nil.
  intros E; inversion E; subst. auto.
Qed.

Lemma transform_rules_output (st0 : inliner app) (fuel : nat) (orig : rule_set app) :
  forall (st : inliner app) tgt sd st' res sd',
    plan_eq st0 st ->
    transform_rules fuel st orig tgt sd = Done (st', res, sd') ->
    (forall x, In x tgt -> In x res)
    /\ (forall r, In r orig ->
          inlining_allowed st0 (get_decl r) = false ->
          has_quantifier r = false ->
          first_allowed_from st0 0 (pos_tail r) = None ->
          In r res).
Proof.
  induction orig as [|r orig IH]; intros st tgt sd st' res sd' He; simpl.
  - intros E; inversion E; subst. split; [auto|]. intros r [].
  - destruct (inlining_allowed st (get_decl r)) eqn:Ea.
    + intros E. destruct (IH _ _ _ _ _ _ He E) as [H1 H2].
      split; [exact H1|]. intros x [->|Hx] Hna Hq Hf; [|now apply H2].
      rewrite (plan_eq_allowed _ He) in Ea. congruence.
    + destruct (transform_rule fuel st r (ToRuleSet tgt))
        as [[[st1 tgt1] m1]| |] eqn:E1; simpl; try discriminate.
      intros E.
      assert (He1 : plan_eq st0 st1).
      { eapply plan_eq_trans; [exact He|].
        eapply transform_rule_loop_plan_eq. exact E1. }
      destruct (IH _ _ _ _ _ _ He1 E) as [H1 H2].
      pose proof E1 as Eg. apply transform_rule_loop_grows in Eg.
      destruct Eg as (rs' & -> & Hin). simpl in *.
      split; [auto|].
      intros x [->|Hx] Hna Hq Hf; [|now apply H2].
      rewrite <- (plan_eq_first_allowed _ He) in Hf.
      destruct (transform_rule_copies _ _ _ _ Hq Hf E1) as (_ & Et & _).
      inversion Et; subst. apply H1. apply in_or_app. right. now left.
Qed.

(** ** Rules of output predicates: resolution keeps the head predicate *)

Lemma unifier_apply_head (ctx : context) (u : ready_unifier) (tgt src : rule app)
    (i : nat) (res : rule app) :
  unifier_apply ctx u tgt i src = Some res -> get_decl res = get_decl tgt.
Proof.
  unfold unifier_apply, get_decl. intros E.
  apply interp_simplifier_head in E. rewrite E.
  destruct (fix_unbound_vars ctx).
  - rewrite rm_fix_unbound_vars_head, rm_norm_vars_head, rm_mk_head.
    apply subst_apply_decl.
  - rewrite rm_norm_vars_head, rm_mk_head. apply subst_apply_decl.
Qed.

Lemma try_to_inline_rule_head (st : inliner app) (tgt src : rule app) (i : nat)
    st' tgt' res :
  try_to_inline_rule st tgt src i = (st', tgt', res) ->
  get_decl tgt' = get_decl tgt
  /\ m_context st' = m_context st
  /\ match res with
     | Some res' => get_decl res' = get_decl tgt
     | None => True
     end.
Proof.
  unfold try_to_inline_rule.
  assert (Hn : get_decl (rm_norm_vars tgt) = get_decl tgt)
    by apply rm_norm_vars_head.
  destruct (has_quantifier src).
  { intros E; inversion E; subst. auto. }
  destruct (unify_rules (rm_norm_vars tgt) i src) as [u|].
  2:{ intros E; inversion E; subst. auto. }
  destruct (unifier_apply (m_context st) u (rm_norm_vars tgt) i src) as [x|] eqn:Eu.
  2:{ intros E; inversion E; subst. auto. }
  intros E; inversion E; subst. repeat split; auto.
  - unfold resolve_rule. destruct (m_pc st); reflexivity.
  - apply unifier_apply_head in Eu. congruence.
Qed.

(** ** Rules of output predicates: the eager inliner *)


(** ** Rules of output predicates: the linear inliner *)

Lemma nth_error_set_nth_other {A : Type} (i m : nat) (x : A) (l : list A) :
  m <> i -> nth_error (set_nth i x l) m = nth_error l m.
Proof.
  revert i m. induction l as [|y l IH]; intros [|i] [|m] Hne; simpl; auto; try lia.
Qed.

Lemma nth_error_set_nth_same {A : Type} (i : nat) (x y : A) (l : list A) :
  nth_error l i = Some y -> nth_error (set_nth i x l) i = Some x.
Proof.
  revert i. induction l as [|z l IH]; intros [|i]; simpl; try discriminate; auto.
Qed.

Lemma get_flag_set_nth_false (v : list bool) (i j : nat) :
  get_flag v j = false -> get_flag (set_nth i false v) j = false.
Proof.
  unfold get_flag. intros E. destruct (Nat.eq_dec i j) as [->|Hne].
  - destruct (Nat.lt_ge_cases j (length v)) as [H|H].
    + now apply set_nth_same.
    + apply nth_overflow. now rewrite set_nth_length.
  - rewrite set_nth_other by exact Hne. exact E.
Qed.






Lemma add_rule_can_remove (st : inliner app) (lin : linear app) (r : rule app)
    (i : nat) :
  can_remove (add_rule st lin r i)
  = if is_output_predicate (m_context st) (app_decl (get_head r))
       || contains (m_preds_with_facts st) (app_decl (get_head r))
    then set_nth i false (can_remove lin)
    else can_remove lin.
Proof.
  unfold add_rule.
  destruct (fold_left (add_rule_tail i) (uninterpreted_tail r)
              (tail_positions lin, m_tail_index lin)); reflexivity.
Qed.

Lemma add_rule_can_remove_false (st : inliner app) (lin : linear app)
    (r : rule app) (i m : nat) :
  get_flag (can_remove lin) m = false ->
  get_flag (can_remove (add_rule st lin r i)) m = false.
Proof.
  intros E. rewrite add_rule_can_remove.
  destruct (is_output_predicate (m_context st) (app_decl (get_head r))
            || contains (m_preds_with_facts st) (app_decl (get_head r)));
    [now apply get_flag_set_nth_false | exact E].
Qed.





Lemma add_rules_from_fields (st : inliner app) (rs : list (rule app)) :
  forall (lin : linear app) (i : nat),
    acc (add_rules_from st lin i rs) = acc lin
    /\ valid (add_rules_from st lin i rs) = valid lin
    /\ length (can_remove (add_rules_from st lin i rs)) = length (can_remove lin)
    /\ (forall m, get_flag (can_remove lin) m = false ->
                  get_flag (can_remove (add_rules_from st lin i rs)) m = false).
Proof.
  induction rs as [|r rs IH]; intros lin i; simpl; [auto|].
  destruct (IH (add_rule st lin r i) (S i)) as (H1 & H2 & H3 & H4).
  rewrite H1, H2, H3, add_rule_acc, add_rule_valid. repeat split.
  - rewrite add_rule_can_remove.
    destruct (is_output_predicate (m_context st) (app_decl (get_head r))
              || contains (m_preds_with_facts st) (app_decl (get_head r)));
      [apply set_nth_length | reflexivity].
  - intros m Hm. apply H4. now apply add_rule_can_remove_false.
Qed.


Lemma get_flag_repeat_true (n j : nat) : j < n -> get_flag (repeat true n) j = true.
Proof.
  unfold get_flag. revert j. induction n as [|n IH]; intros [|j] H; simpl;
    try lia; auto. apply IH. lia.
Qed.


(** ** Rules of output predicates: what bulk inlining puts in their place *)

Lemma try_to_inline_rule_ctx (st1 st2 : inliner app) (t s : rule app) (i : nat) :
  m_context st1 = m_context st2 ->
  snd (try_to_inline_rule st1 t s i) = snd (try_to_inline_rule st2 t s i).
Proof.
  intros Hc. unfold try_to_inline_rule. rewrite Hc.
  destruct (has_quantifier s); [reflexivity|].
  destruct (unify_rules (rm_norm_vars t) i s) as [u|]; [|reflexivity].
  destruct (unifier_apply (m_context st2) u (rm_norm_vars t) i s); reflexivity.
Qed.

Lemma inline_pred_rules_snd (i : nat) (cs : rule_set app) :
  forall (st1 st2 : inliner app) (r : rule app) (todo : list (rule app)),
    m_context st1 = m_context st2 ->
    snd (inline_pred_rules st1 r i cs todo)
    = snd (inline_pred_rules st2 r i cs []) ++ todo.
Proof.
  induction cs as [|c cs IH]; intros st1 st2 r todo Hc; simpl; [reflexivity|].
  pose proof (try_to_inline_rule_ctx st1 st2 r c i Hc) as Hs.
  pose proof (try_to_inline_rule_tgt st1 r c i) as T1.
  pose proof (try_to_inline_rule_tgt st2 r c i) as T2.
  pose proof (try_to_inline_rule_plan_eq st1 r c i) as (P1 & _).
  pose proof (try_to_inline_rule_plan_eq st2 r c i) as (P2 & _).
  destruct (try_to_inline_rule st1 r c i) as [[s1 r1] o1].
  destruct (try_to_inline_rule st2 r c i) as [[s2 r2] o2].
  simpl in *. subst o2 r1 r2.
  assert (Hc' : m_context s1 = m_context s2) by congruence.
  destruct o1 as [res|].
  - rewrite (IH s1 s2 _ (res :: todo) Hc').
    rewrite (IH s2 s2 _ [res] eq_refl).
    rewrite <- app_assoc. reflexivity.
  - apply IH. exact Hc'.
Qed.



Lemma bulk_result_plan_eq (st st' : inliner app) :
  plan_eq st st' -> m_inlined_rules st' = m_inlined_rules st ->
  forall r r', bulk_result st r r' -> bulk_result st' r r'.
Proof.
  intros He Hi r r' H. induction H as [r Hq Hf|r i p res r' Hq Hf Hin _ IH].
  - apply bulk_settled; [exact Hq|].
    now rewrite (plan_eq_first_allowed _ He).
  - apply (@bulk_resolved _ _ st' r i p res r'); auto.
    + now rewrite (plan_eq_first_allowed _ He).
    + rewrite Hi. unfold resolvents in *.
      destruct He as (Hc & _).
      rewrite (inline_pred_rules_snd i _ st' st r [] Hc).
      now rewrite app_nil_r.
Qed.






End Output.

Section Pass.

Context {app : Type} {host : Host app}.

(** ** The result of the pass *)




End Pass.

Section Worklist.

Context {app : Type} {host : Host app} {is_predicate : app -> bool}
        {rlaws : ResolutionLaws is_predicate}.

(** ** Counting the atoms resolution hands to the rule manager *)

Lemma combine_fst_snd {A B : Type} (l : list (A * B)) :
  combine (map fst l) (map snd l) = l.
Proof.
  induction l as [|[a b] l IH]; simpl; [reflexivity|]. now rewrite IH.
Qed.

Lemma count_decl_app (f : func_decl -> bool) (l1 l2 : list app) :
  count_decl f (l1 ++ l2) = count_decl f l1 + count_decl f l2.
Proof. unfold count_decl. now rewrite filter_app, length_app. Qed.

Lemma count_decl_map (f : func_decl -> bool) (l : list app) :
  count_decl f l = length (filter f (map app_decl l)).
Proof.
  unfold count_decl. induction l as [|a l IH]; simpl; [reflexivity|].
  destruct (f (app_decl a)); simpl; now rewrite IH.
Qed.

Lemma entry_count_cons (f : func_decl -> bool) (x : app * bool)
    (l : list (app * bool)) :
  entry_count is_predicate f (x :: l)
  = (if negb (snd x) && is_predicate (fst x) && f (app_decl (fst x))
     then 1 else 0) + entry_count is_predicate f l.
Proof.
  unfold entry_count. simpl.
  destruct (negb (snd x) && is_predicate (fst x) && f (app_decl (fst x)));
    reflexivity.
Qed.

Lemma entry_count_app (f : func_decl -> bool) (l1 l2 : list (app * bool)) :
  entry_count is_predicate f (l1 ++ l2)
  = entry_count is_predicate f l1 + entry_count is_predicate f l2.
Proof. unfold entry_count. now rewrite filter_app, length_app. Qed.

Lemma count_positive_entries (f : func_decl -> bool) (l : list (app * bool)) :
  count_decl f (filter is_predicate (positive_entries (map fst l) (map snd l)))
  = entry_count is_predicate f l.
Proof.
  unfold positive_entries. rewrite combine_fst_snd.
  induction l as [|[a b] l IH]; [reflexivity|].
  rewrite entry_count_cons. simpl.
  destruct b; simpl; [exact IH|].
  destruct (is_predicate a); simpl; [|exact IH].
  unfold count_decl in *. simpl.
  destruct (f (app_decl a)); simpl; now rewrite IH.
Qed.

Lemma entry_count_dedup (f : func_decl -> bool) (ts : list (app * bool)) :
  forall seen,
    entry_count is_predicate f (remove_duplicate_tails_from seen ts)
    <= entry_count is_predicate f ts.
Proof.
  induction ts as [|t ts IH]; intros seen; [simpl; lia|].
  rewrite entry_count_cons. simpl.
  destruct (existsb (tail_entry_eqb t) seen).
  - specialize (IH seen). lia.
  - specialize (IH (t :: seen)). rewrite entry_count_cons. lia.
Qed.

Lemma entry_applied (f : func_decl -> bool) (u : ready_unifier) (b : bool)
    (a : app) (neg : bool) :
  negb neg && is_predicate (apply_app u a b) && f (app_decl (apply_app u a b))
  = negb neg && is_predicate a && f (app_decl a).
Proof.
  unfold apply_app.
  destruct (subst_apply_predicate (fst u) (snd u) (if b then 0 else 1) a)
    as [-> ->]. reflexivity.
Qed.

Lemma entry_count_apply_all (f : func_decl -> bool) (u : ready_unifier)
    (b : bool) (ts : list (app * bool)) :
  forall j,
    entry_count is_predicate f (apply_tail_from u b None j ts)
    = entry_count is_predicate f ts.
Proof.
  induction ts as [|[a neg] ts IH]; intros j; [reflexivity|].
  simpl. rewrite !entry_count_cons. simpl. rewrite entry_applied.
  now rewrite IH.
Qed.

Lemma entry_count_apply_past (f : func_decl -> bool) (u : ready_unifier)
    (b : bool) (i : nat) (ts : list (app * bool)) :
  forall j, i < j ->
    entry_count is_predicate f (apply_tail_from u b (Some i) j ts)
    = entry_count is_predicate f ts.
Proof.
  induction ts as [|[a neg] ts IH]; intros j Hj; [reflexivity|].
  simpl. destruct (Nat.eqb_spec j i) as [->|_]; [lia|].
  rewrite !entry_count_cons. simpl. rewrite entry_applied.
  rewrite IH by lia. reflexivity.
Qed.

Lemma entry_count_apply_skip (f : func_decl -> bool) (u : ready_unifier)
    (b : bool) (i : nat) (ts : list (app * bool)) :
  forall j x,
    j <= i -> nth_error ts (i - j) = Some x ->
    entry_count is_predicate f (apply_tail_from u b (Some i) j ts)
    + (if negb (snd x) && is_predicate (fst x) && f (app_decl (fst x))
       then 1 else 0)
    = entry_count is_predicate f ts.
Proof.
  induction ts as [|[a neg] ts IH]; intros j x Hj Hx.
  - destruct (i - j); discriminate.
  - simpl. rewrite entry_count_cons. simpl.
    destruct (Nat.eqb_spec j i) as [->|Hne].
    + rewrite Nat.sub_diag in Hx. simpl in Hx. inversion Hx; subst. simpl.
      rewrite entry_count_apply_past by lia. lia.
    + assert (Hlt : S j <= i) by lia.
      replace (i - j) with (S (i - S j)) in Hx by lia. simpl in Hx.
      specialize (IH (S j) x Hlt Hx).
      rewrite entry_count_cons. simpl. rewrite entry_applied. lia.
Qed.

Lemma entry_count_positive (f : func_decl -> bool) (l : list app) :
  forallb is_predicate l = true ->
  entry_count is_predicate f (map (fun a => (a, false)) l) = count_decl f l.
Proof.
  induction l as [|a l IH]; intros Hw; [reflexivity|].
  simpl in Hw. apply andb_true_iff in Hw. destruct Hw as [Ha Hl].
  simpl. rewrite entry_count_cons. simpl. rewrite Ha, (IH Hl).
  unfold count_decl. simpl. destruct (f (app_decl a)); reflexivity.
Qed.

Lemma entry_count_negated (f : func_decl -> bool) (l : list app) :
  entry_count is_predicate f (map (fun a => (a, true)) l) = 0.
Proof.
  induction l as [|a l IH]; [reflexivity|].
  simpl. rewrite entry_count_cons. simpl. exact IH.
Qed.

Lemma entry_count_interpreted (f : func_decl -> bool) (l : list app) :
  forallb (fun a => negb (is_predicate a)) l = true ->
  entry_count is_predicate f (map (fun a => (a, false)) l) = 0.
Proof.
  induction l as [|a l IH]; intros Hw; [reflexivity|].
  simpl in Hw. apply andb_true_iff in Hw. destruct Hw as [Ha Hl].
  simpl. rewrite entry_count_cons. simpl.
  apply negb_true_iff in Ha. rewrite Ha. simpl. now apply IH.
Qed.

Lemma wf_rule_parts (r : rule app) :
  wf_rule is_predicate r = true ->
  forallb is_predicate (pos_tail r) = true
  /\ forallb is_predicate (neg_tail r) = true
  /\ forallb (fun a => negb (is_predicate a)) (interp_tail r) = true.
Proof.
  unfold wf_rule. rewrite !andb_true_iff. tauto.
Qed.

Lemma entry_count_tail (f : func_decl -> bool) (r : rule app) :
  wf_rule is_predicate r = true ->
  entry_count is_predicate f (tail_with_neg r) = count_decl f (pos_tail r).
Proof.
  intros Hw. apply wf_rule_parts in Hw. destruct Hw as (Hp & _ & Hi).
  unfold tail_with_neg. rewrite !entry_count_app.
  rewrite (entry_count_positive f _ Hp), entry_count_negated,
    (entry_count_interpreted f _ Hi). lia.
Qed.

Lemma nth_error_tail_with_neg (r : rule app) (i : nat) (a : app) :
  nth_error (pos_tail r) i = Some a ->
  nth_error (tail_with_neg r) i = Some (a, false).
Proof.
  intros Hi. unfold tail_with_neg.
  rewrite nth_error_app1.
  - exact (map_nth_error (fun x => (x, false)) i (pos_tail r) Hi).
  - rewrite length_map. apply nth_error_Some. congruence.
Qed.

(** ** A resolvent has fewer admissible tail atoms than its target *)

Lemma unifier_apply_bound (ctx : context) (u : ready_unifier) (tgt src : rule app)
    (i : nat) (a : app) (res : rule app) :
  wf_rule is_predicate tgt = true ->
  wf_rule is_predicate src = true ->
  nth_error (pos_tail tgt) i = Some a ->
  unifier_apply ctx u tgt i src = Some res ->
  wf_rule is_predicate res = true
  /\ forall f, count_decl f (pos_tail res) + (if f (app_decl a) then 1 else 0)
               <= count_decl f (pos_tail tgt) + count_decl f (pos_tail src).
Proof.
  intros Ht Hs Ha. unfold unifier_apply.
  set (tail := remove_duplicate_tails
                 (apply_tail u tgt true (Some i) ++ apply_tail u src false None)).
  set (r0 := rm_mk (apply_app u (get_head tgt) true) (map fst tail) (map snd tail)).
  intros E.
  destruct (rm_mk_sorts (apply_app u (get_head tgt) true) (map fst tail)
              (map snd tail)) as [W0 C0]. fold r0 in W0, C0.
  destruct (rm_norm_vars_renames r0 W0) as [W1 C1].
  assert (Hfix : wf_rule is_predicate
                   (if fix_unbound_vars ctx
                    then rm_fix_unbound_vars (rm_norm_vars r0)
                    else rm_norm_vars r0) = true
                 /\ forall f,
                      count_decl f (pos_tail
                                      (if fix_unbound_vars ctx
                                       then rm_fix_unbound_vars (rm_norm_vars r0)
                                       else rm_norm_vars r0))
                      <= count_decl f (pos_tail (rm_norm_vars r0))).
  { destruct (fix_unbound_vars ctx).
    - apply rm_fix_unbound_vars_tail. exact W1.
    - split; [exact W1 | intros f; lia]. }
  destruct Hfix as [W2 C2].
  destruct (@interp_simplifier_tail app host is_predicate rlaws _ _ W2 E) as [W3 C3].
  split; [exact W3|]. intros f.
  specialize (C0 f). specialize (C2 f). specialize (C3 f).
  rewrite (count_decl_map f (pos_tail (rm_norm_vars r0))), C1,
    <- count_decl_map in C2.
  rewrite count_positive_entries in C0.
  assert (Hd : entry_count is_predicate f tail
               <= entry_count is_predicate f
                    (apply_tail u tgt true (Some i) ++ apply_tail u src false None))
    by apply entry_count_dedup.
  rewrite entry_count_app in Hd.
  unfold apply_tail in Hd.
  rewrite entry_count_apply_all, (entry_count_tail f src Hs) in Hd.
  pose proof (@entry_count_apply_skip f u true i (tail_with_neg tgt) 0 (a, false)
                (Nat.le_0_l i)) as Hk.
  rewrite Nat.sub_0_r in Hk.
  specialize (Hk (nth_error_tail_with_neg tgt i Ha)).
  rewrite (entry_count_tail f tgt Ht) in Hk. simpl in Hk.
  apply wf_rule_parts in Ht. destruct Ht as (Hp & _ & _).
  assert (Hpa : is_predicate a = true).
  { rewrite forallb_forall in Hp. apply Hp. eapply nth_error_In; eauto. }
  rewrite Hpa in Hk. simpl in Hk. lia.
Qed.

Lemma count_decl_renamed (f : func_decl -> bool) (l l' : list app) :
  map app_decl l' = map app_decl l -> count_decl f l' = count_decl f l.
Proof. intros E. now rewrite !count_decl_map, E. Qed.

Lemma try_to_inline_rule_bound (st : inliner app) (tgt src : rule app) (i : nat)
    (p : func_decl) (st' : inliner app) (tgt' : rule app) (o : option (rule app)) :
  wf_rule is_predicate tgt = true ->
  wf_rule is_predicate src = true ->
  nth_error (map app_decl (pos_tail tgt)) i = Some p ->
  try_to_inline_rule st tgt src i = (st', tgt', o) ->
  wf_rule is_predicate tgt' = true
  /\ map app_decl (pos_tail tgt') = map app_decl (pos_tail tgt)
  /\ forall res, o = Some res ->
       wf_rule is_predicate res = true
       /\ forall f, count_decl f (pos_tail res) + (if f p then 1 else 0)
                    <= count_decl f (pos_tail tgt) + count_decl f (pos_tail src).
Proof.
  intros Ht Hs Hp. unfold try_to_inline_rule.
  destruct (rm_norm_vars_renames tgt Ht) as [W C].
  destruct (has_quantifier src).
  { intros E; inversion E; subst. repeat split; try assumption; discriminate. }
  destruct (unify_rules (rm_norm_vars tgt) i src) as [u|].
  2: { intros E; inversion E; subst. repeat split; try assumption; discriminate. }
  destruct (unifier_apply (m_context st) u (rm_norm_vars tgt) i src) as [res|] eqn:Eu.
  2: { intros E; inversion E; subst. repeat split; try assumption; discriminate. }
  intros E; inversion E; subst. split; [exact W|]. split; [exact C|].
  intros res' Hr. inversion Hr; subst res'.
  rewrite <- C, nth_error_map in Hp.
  destruct (nth_error (pos_tail (rm_norm_vars tgt)) i) as [a|] eqn:Ea;
    [|discriminate].
  simpl in Hp. inversion Hp; subst p.
  destruct (unifier_apply_bound _ _ _ _ _ W Hs Ea Eu) as [Wr Cr].
  split; [exact Wr|]. intros f. specialize (Cr f).
  rewrite (count_decl_renamed f _ _ C) in Cr. exact Cr.
Qed.

Lemma first_allowed_from_position (st : inliner app) (tails : list app) :
  forall j i p,
    first_allowed_from st j tails = Some (i, p) ->
    j <= i /\ nth_error (map app_decl tails) (i - j) = Some p.
Proof.
  induction tails as [|a tails IH]; intros j i p; simpl; [discriminate|].
  destruct (inlining_allowed st (app_decl a)).
  - intros E; inversion E; subst. rewrite Nat.sub_diag. split; [lia | reflexivity].
  - intros E. apply IH in E. destruct E as [Hj Hn].
    split; [lia|]. replace (i - j) with (S (i - S j)) by lia. exact Hn.
Qed.

Lemma first_allowed_from_none (st : inliner app) (tails : list app) :
  forall j,
    first_allowed_from st j tails = None ->
    count_decl (inlining_allowed st) tails = 0.
Proof.
  induction tails as [|a tails IH]; intros j; simpl; [reflexivity|].
  unfold count_decl. simpl.
  destruct (inlining_allowed st (app_decl a)); [discriminate|].
  apply IH.
Qed.

Lemma admissible_tails_plan_eq (st st' : inliner app) (r : rule app) :
  plan_eq st st' -> admissible_tails st' r = admissible_tails st r.
Proof.
  intros He. unfold admissible_tails, count_decl. f_equal.
  apply filter_ext. intros a. apply (plan_eq_allowed _ He).
Qed.

Lemma inlined_settled_plan_eq (st st' : inliner app) :
  plan_eq st st' -> m_inlined_rules st' = m_inlined_rules st ->
  inlined_settled is_predicate st -> inlined_settled is_predicate st'.
Proof.
  intros He Hm Hs c Hc. rewrite Hm in Hc. destruct (Hs c Hc) as [W Z].
  split; [exact W|]. now rewrite (admissible_tails_plan_eq c He).
Qed.

Lemma inlined_settled_target_add (st : inliner app) (tgt : target app)
    (r : rule app) :
  wf_rule is_predicate r = true -> admissible_tails st r = 0 ->
  inlined_settled is_predicate st ->
  inlined_settled is_predicate (fst (target_add st tgt r)).
Proof.
  intros W Z Hs. destruct tgt; simpl; [|exact Hs].
  intros c Hc. simpl in Hc. unfold add_rule_to in Hc.
  apply in_app_or in Hc.
  assert (Hc' : wf_rule is_predicate c = true /\ admissible_tails st c = 0).
  { destruct Hc as [Hc|[<-|[]]]; [now apply Hs | now split]. }
  exact Hc'.
Qed.

(** ** What one resolution step pushes on the worklist *)

Lemma inline_pred_rules_pushed (st0 : inliner app) (i : nat) (p : func_decl)
    (l : rule_set app) :
  inlining_allowed st0 p = true ->
  (forall c, In c l -> wf_rule is_predicate c = true /\ admissible_tails st0 c = 0) ->
  forall (st : inliner app) (r : rule app) (todo : list (rule app)) st' r' todo',
    wf_rule is_predicate r = true ->
    nth_error (map app_decl (pos_tail r)) i = Some p ->
    inline_pred_rules st r i l todo = (st', r', todo') ->
    exists pushed,
      todo' = pushed ++ todo
      /\ forall x, In x pushed ->
           wf_rule is_predicate x = true
           /\ admissible_tails st0 x < admissible_tails st0 r.
Proof.
  intros Hp. induction l as [|c l IH]; intros Hl st r todo st' r' todo' W Hn; simpl.
  - intros E; inversion E; subst. exists []. split; [reflexivity|]. intros x [].
  - destruct (try_to_inline_rule st r c i) as [[st1 r1] o] eqn:Et.
    destruct (Hl c (or_introl eq_refl)) as [Wc Zc].
    destruct (try_to_inline_rule_bound _ _ _ _ W Wc Hn Et) as (W1 & C1 & Hres).
    intros E.
    assert (Hn1 : nth_error (map app_decl (pos_tail r1)) i = Some p)
      by now rewrite C1.
    destruct (IH (fun x Hx => Hl x (or_intror Hx)) _ _ _ _ _ _ W1 Hn1 E)
      as (pushed & Ep & Hpushed).
    assert (Hm : admissible_tails st0 r1 = admissible_tails st0 r)
      by (unfold admissible_tails; now apply count_decl_renamed).
    rewrite Hm in Hpushed.
    destruct o as [res|].
    + exists (pushed ++ [res]). split; [now rewrite <- app_assoc|].
      intros x Hx. apply in_app_or in Hx. destruct Hx as [Hx|[<-|[]]];
        [now apply Hpushed|].
      destruct (Hres res eq_refl) as [Wr Cr]. split; [exact Wr|].
      specialize (Cr (inlining_allowed st0)). rewrite Hp in Cr.
      unfold admissible_tails in *. lia.
    + exists pushed. split; [exact Ep | exact Hpushed].
Qed.

(** ** The worklist runs empty *)

(** a rule on top of the worklist is worked off, with whatever resolution
    pushes for it, after finitely many iterations *)
Lemma worklist_pops (st0 : inliner app) (k : nat) :
  forall r,
    wf_rule is_predicate r = true ->
    admissible_tails st0 r < k ->
    forall (st : inliner app) (tgt : target app) (rest : list (rule app))
           (m : bool),
      plan_eq st0 st ->
      inlined_settled is_predicate st ->
      exists n st' tgt' m',
        plan_eq st0 st'
        /\ inlined_settled is_predicate st'
        /\ forall fuel,
             transform_rule_loop (n + fuel) st tgt (r :: rest) m
             = transform_rule_loop fuel st' tgt' rest m'.
Proof.
  induction k as [|k IH]; intros r W Hk st tgt rest m He Hs; [lia|].
  assert (Hlist :
    forall pushed,
      (forall x, In x pushed ->
                 wf_rule is_predicate x = true /\ admissible_tails st0 x < k) ->
      forall (st2 : inliner app) (tgt2 : target app) (rest2 : list (rule app))
             (m2 : bool),
        plan_eq st0 st2 ->
        inlined_settled is_predicate st2 ->
        exists n st' tgt' m',
          plan_eq st0 st'
          /\ inlined_settled is_predicate st'
          /\ forall fuel,
               transform_rule_loop (n + fuel) st2 tgt2 (pushed ++ rest2) m2
               = transform_rule_loop fuel st' tgt' rest2 m').
  { induction pushed as [|x pushed IHp]; intros Hx st2 tgt2 rest2 m2 He2 Hs2.
    - exists 0, st2, tgt2, m2. split; [exact He2|]. split; [exact Hs2|].
      intros fuel. reflexivity.
    - destruct (Hx x (or_introl eq_refl)) as [Wx Kx].
      destruct (IH x Wx Kx st2 tgt2 (pushed ++ rest2) m2 He2 Hs2)
        as (n1 & st3 & tgt3 & m3 & He3 & Hs3 & F1).
      destruct (IHp (fun y Hy => Hx y (or_intror Hy)) st3 tgt3 rest2 m3 He3 Hs3)
        as (n2 & st4 & tgt4 & m4 & He4 & Hs4 & F2).
      exists (n1 + n2), st4, tgt4, m4. split; [exact He4|]. split; [exact Hs4|].
      intros fuel. rewrite <- Nat.add_assoc.
      change ((x :: pushed) ++ rest2) with (x :: pushed ++ rest2).
      rewrite F1. apply F2. }
  destruct (has_quantifier r) eqn:Hq.
  { exists 1, st, tgt, m. split; [exact He|]. split; [exact Hs|].
    intros fuel. simpl. now rewrite Hq. }
  destruct (first_allowed_from st 0 (pos_tail r)) as [[i p]|] eqn:Ef.
  - destruct (first_allowed_from_position _ _ _ Ef) as [_ Hn].
    rewrite Nat.sub_0_r in Hn.
    pose proof (first_allowed_from_allowed _ _ _ Ef) as Hp.
    rewrite (plan_eq_allowed p He) in Hp.
    destruct (inline_pred_rules st r i
                (get_predicate_rules (m_inlined_rules st) p) rest)
      as [[st1 r1] todo1] eqn:Ei.
    assert (Hl : forall c, In c (get_predicate_rules (m_inlined_rules st) p) ->
                   wf_rule is_predicate c = true /\ admissible_tails st0 c = 0).
    { intros c Hc. apply get_predicate_rules_In in Hc. destruct Hc as [Hc _].
      destruct (Hs c Hc) as [Wc Zc]. split; [exact Wc|].
      now rewrite <- (admissible_tails_plan_eq c He). }
    destruct (@inline_pred_rules_pushed st0 i p _ Hp Hl st r rest _ _ _ W Hn Ei)
      as (pushed & Ep & Hpushed).
    pose proof (inline_pred_rules_plan_eq i
                  (get_predicate_rules (m_inlined_rules st) p) st r rest) as He1.
    pose proof (inline_pred_rules_inlined_rules i
                  (get_predicate_rules (m_inlined_rules st) p) st r rest) as Hm1.
    rewrite Ei in He1, Hm1. simpl in He1, Hm1.
    assert (Hx : forall x, In x pushed ->
                   wf_rule is_predicate x = true /\ admissible_tails st0 x < k).
    { intros x Hin. destruct (Hpushed x Hin) as [Wx Kx]. split; [exact Wx | lia]. }
    destruct (Hlist pushed Hx st1 tgt rest true
                (plan_eq_trans He He1)
                (inlined_settled_plan_eq He1 Hm1 Hs))
      as (n1 & st2 & tgt2 & m2 & He2 & Hs2 & F).
    exists (S n1), st2, tgt2, m2. split; [exact He2|]. split; [exact Hs2|].
    intros fuel. simpl. rewrite Hq, Ef, Ei, Ep. apply F.
  - pose proof (first_allowed_from_none _ _ _ Ef) as Hz.
    pose proof (target_add_plan_eq st tgt r) as He1.
    pose proof (@inlined_settled_target_add st tgt r W Hz Hs) as Hs1.
    destruct (target_add st tgt r) as [st1 tgt1] eqn:Ea. simpl in He1, Hs1.
    exists 1, st1, tgt1, m. split; [exact (plan_eq_trans He He1)|].
    split; [exact Hs1|].
    intros fuel. simpl. now rewrite Hq, Ef, Ea.
Qed.

(** [transform_rule] returns: the worklist of a well-formed rule runs empty
    once every rule of [m_inlined_rules] is free of admissible tail atoms,
    and that property of [m_inlined_rules] is kept *)
Lemma transform_rule_returns (st : inliner app) (r0 : rule app)
    (tgt : target app) :
  wf_rule is_predicate r0 = true ->
  inlined_settled is_predicate st ->
  exists n st' tgt' modified,
    plan_eq st st'
    /\ inlined_settled is_predicate st'
    /\ forall fuel, n <= fuel ->
         transform_rule fuel st r0 tgt = Done (st', tgt', modified).
Proof.
  intros W Hs.
  destruct (@worklist_pops st (S (admissible_tails st r0)) r0 W
              (Nat.lt_succ_diag_r _) st tgt [] false (plan_eq_refl st) Hs)
    as (n & st' & tgt' & m' & He & Hs' & F).
  exists n, st', tgt', m'. split; [exact He|]. split; [exact Hs'|].
  intros fuel Hf. unfold transform_rule.
  replace fuel with (n + (fuel - n)) by lia.
  rewrite F. apply transform_rule_loop_done_nil.
Qed.

Lemma transform_rule_rule_set (fuel : nat) :
  forall (st : inliner app) (rs : rule_set app) todo m st' tgt' m',
    transform_rule_loop fuel st (ToRuleSet rs) todo m = Done (st', tgt', m') ->
    m_inlined_rules st' = m_inlined_rules st /\ exists rs', tgt' = ToRuleSet rs'.
Proof.
  induction fuel as [|fuel IH]; intros st rs todo m st' tgt' m';
    destruct todo as [|r todo]; simpl; try discriminate.
  - intros E; inversion E; subst. split; [reflexivity | now exists rs].
  - intros E; inversion E; subst. split; [reflexivity | now exists rs].
  - destruct (has_quantifier r); [apply IH|].
    destruct (first_allowed_from st 0 (pos_tail r)) as [[i pred]|].
    + pose proof (inline_pred_rules_inlined_rules i
                    (get_predicate_rules (m_inlined_rules st) pred) st r todo) as H1.
      destruct (inline_pred_rules st r i
                  (get_predicate_rules (m_inlined_rules st) pred) todo)
        as [[st1 r1] todo1]. simpl in H1.
      intros E. apply IH in E. destruct E as [E1 E2]. split; [congruence | exact E2].
    + apply IH.
Qed.

(** X1: bulk inlining returns.  When the rules handed to [transform_rules]
    are well formed and no rule of [m_inlined_rules] has a positive tail
    atom with an admissible predicate, every worklist of [transform_rule]
    runs empty: from some amount of fuel on the loop over the rules ends
    with the same result, and the plan is the one it started with. *)
Theorem transform_rules_terminates (orig : rule_set app) :
  (forall r, In r orig -> wf_rule is_predicate r = true) ->
  forall (st : inliner app) (tgt : rule_set app) (something_done : bool),
    inlined_settled is_predicate st ->
    exists n st' tgt' done',
      plan_eq st st'
      /\ forall fuel, n <= fuel ->
           transform_rules fuel st orig tgt something_done
           = Done (st', tgt', done').
Proof.
  induction orig as [|r orig IH]; intros Hw st tgt sd Hs.
  - exists 0, st, tgt, sd. split; [apply plan_eq_refl|]. intros fuel _. reflexivity.
  - destruct (inlining_allowed st (get_decl r)) eqn:Ha.
    + destruct (IH (fun x Hx => Hw x (or_intror Hx)) st tgt sd Hs)
        as (n & st' & tgt' & d' & He & F).
      exists n, st', tgt', d'. split; [exact He|].
      intros fuel Hf. simpl. rewrite Ha. now apply F.
    + destruct (@transform_rule_returns st r (ToRuleSet tgt)
                  (Hw r (or_introl eq_refl)) Hs)
        as (n1 & st1 & tgt1 & m1 & He1 & Hs1 & F1).
      destruct (IH (fun x Hx => Hw x (or_intror Hx)) st1
                  (target_rules st1 tgt1) (sd || m1) Hs1)
        as (n2 & st2 & tgt2 & d2 & He2 & F2).
      exists (Nat.max n1 n2), st2, tgt2, d2.
      split; [exact (plan_eq_trans He1 He2)|].
      intros fuel Hf. simpl. rewrite Ha.
      rewrite (F1 fuel) by lia. simpl. apply F2. lia.
Qed.

(** ** Filling [m_inlined_rules] *)

Lemma plan_rules_returns (pred_rules : rule_set app) :
  (forall r, In r pred_rules -> wf_rule is_predicate r = true) ->
  forall st : inliner app,
    inlined_settled is_predicate st ->
    exists n st',
      plan_eq st st'
      /\ inlined_settled is_predicate st'
      /\ forall fuel, n <= fuel -> plan_rules fuel st pred_rules = Done st'.
Proof.
  induction pred_rules as [|r l IH]; intros Hw st Hs.
  - exists 0, st. split; [apply plan_eq_refl|]. split; [exact Hs|].
    intros fuel _. reflexivity.
  - destruct (@transform_rule_returns st r ToInlinedRules
                (Hw r (or_introl eq_refl)) Hs)
      as (n1 & st1 & tgt1 & m1 & He1 & Hs1 & F1).
    destruct (IH (fun x Hx => Hw x (or_intror Hx)) st1 Hs1)
      as (n2 & st2 & He2 & Hs2 & F2).
    exists (Nat.max n1 n2), st2. split; [exact (plan_eq_trans He1 He2)|].
    split; [exact Hs2|].
    intros fuel Hf. simpl. rewrite (F1 fuel) by lia. simpl. apply F2. lia.
Qed.

(** X2: the loop of [plan_inlining] that fills [m_inlined_rules] stratum by
    stratum returns when the candidate rules are well formed, and it leaves
    [m_inlined_rules] without a positive tail atom of an admissible
    predicate: the rules bulk inlining resolves with are fully inlined
    themselves. *)
Theorem plan_strata_terminates (candidate_inlined_set : rule_set app)
    (comps : list stratum) :
  (forall r, In r candidate_inlined_set -> wf_rule is_predicate r = true) ->
  forall st : inliner app,
    inlined_settled is_predicate st ->
    exists n st',
      plan_eq st st'
      /\ inlined_settled is_predicate st'
      /\ forall fuel, n <= fuel ->
           plan_strata fuel st candidate_inlined_set comps = Done st'.
Proof.
  intros Hw. induction comps as [|s comps IH]; intros st Hs.
  - exists 0, st. split; [apply plan_eq_refl|]. split; [exact Hs|].
    intros fuel _. reflexivity.
  - assert (Hw1 : forall r,
               In r (get_predicate_rules candidate_inlined_set (fst s)) ->
               wf_rule is_predicate r = true).
    { intros r Hr. apply get_predicate_rules_In in Hr. apply Hw. exact (proj1 Hr). }
    destruct (plan_rules_returns _ Hw1 Hs) as (n1 & st1 & He1 & Hs1 & F1).
    destruct (IH st1 Hs1) as (n2 & st2 & He2 & Hs2 & F2).
    exists (Nat.max n1 n2), st2. split; [exact (plan_eq_trans He1 He2)|].
    split; [exact Hs2|].
    intros fuel Hf. simpl. rewrite (F1 fuel) by lia. simpl. apply F2. lia.
Qed.

(** ** What bulk inlining leaves in its target *)

Lemma target_add_rules (st : inliner app) (tgt : target app) (r : rule app) :
  target_rules (fst (target_add st tgt r)) (snd (target_add st tgt r))
  = target_rules st tgt ++ [r].
Proof. destruct tgt; reflexivity. Qed.

Lemma transform_rule_loop_settled (st0 : inliner app) (fuel : nat) :
  forall (st : inliner app) tgt todo m st' tgt' m',
    plan_eq st0 st ->
    transform_rule_loop fuel st tgt todo m = Done (st', tgt', m') ->
    forall x, In x (target_rules st' tgt') ->
      In x (target_rules st tgt)
      \/ (has_quantifier x = false /\ admissible_tails st0 x = 0).
Proof.
  induction fuel as [|fuel IH]; intros st tgt todo m st' tgt' m' He;
    destruct todo as [|r todo]; simpl; try discriminate.
  - intros E; inversion E; subst. auto.
  - intros E; inversion E; subst. auto.
  - destruct (has_quantifier r) eqn:Hq; [now apply IH|].
    destruct (first_allowed_from st 0 (pos_tail r)) as [[i pred]|] eqn:Ef.
    + pose proof (inline_pred_rules_plan_eq i
                    (get_predicate_rules (m_inlined_rules st) pred) st r todo) as H1.
      pose proof (inline_pred_rules_inlined_rules i
                    (get_predicate_rules (m_inlined_rules st) pred) st r todo) as H2.
      destruct (inline_pred_rules st r i
                  (get_predicate_rules (m_inlined_rules st) pred) todo)
        as [[st1 r1] todo1]. simpl in H1, H2.
      intros E x Hx.
      destruct (IH _ _ _ _ _ _ _ (plan_eq_trans He H1) E x Hx) as [Hin|Hs];
        [left | now right].
      destruct tgt; simpl in *; [now rewrite <- H2 | exact Hin].
    + pose proof (target_add_plan_eq st tgt r) as H1.
      pose proof (target_add_rules st tgt r) as H2.
      destruct (target_add st tgt r) as [st1 tgt1]. simpl in H1, H2.
      intros E x Hx.
      destruct (IH _ _ _ _ _ _ _ (plan_eq_trans He H1) E x Hx) as [Hin|Hs];
        [|now right].
      rewrite H2 in Hin. apply in_app_or in Hin.
      destruct Hin as [Hin|[<-|[]]]; [now left|].
      right. split; [exact Hq|].
      pose proof (first_allowed_from_none _ _ _ Ef) as Hz.
      rewrite <- (admissible_tails_plan_eq r He). exact Hz.
Qed.

(** X3: what bulk inlining puts in its result is fully inlined.  Every rule
    [transform_rules] adds to the target has no quantifier in its
    interpreted tail and no positive tail atom whose predicate is
    admissible for inlining. *)
Theorem transform_rules_settled (fuel : nat) (orig : rule_set app) :
  forall (st : inliner app) (tgt : rule_set app) (something_done : bool)
         st' tgt' done',
    transform_rules fuel st orig tgt something_done = Done (st', tgt', done') ->
    forall x, In x tgt' ->
      In x tgt \/ (has_quantifier x = false /\ admissible_tails st x = 0).
Proof.
  induction orig as [|r orig IH]; intros st tgt sd st' tgt' d'; simpl.
  - intros E; inversion E; subst. auto.
  - destruct (inlining_allowed st (get_decl r)); [apply IH|].
    unfold transform_rule.
    destruct (transform_rule_loop fuel st (ToRuleSet tgt) [r] false)
      as [[[st1 tgt1] m1]| |] eqn:E1; simpl; try discriminate.
    intros E x Hx.
    pose proof (transform_rule_loop_plan_eq _ _ _ _ _ E1) as He.
    destruct (IH _ _ _ _ _ _ E x Hx) as [Hin|[Hq Hz]].
    + exact (@transform_rule_loop_settled st fuel _ _ _ _ _ _ _
               (plan_eq_refl st) E1 x Hin).
    + right. split; [exact Hq|].
      now rewrite <- (admissible_tails_plan_eq x He).
Qed.

End Worklist.

(** ** The analysis before planning *)

Section Analysis.

Context {app : Type} {host : Host app}.

Lemma wrap32_lt (n : N) : (wrap32 n < 4294967296)%N.
Proof. unfold wrap32. apply N.mod_lt. discriminate. Qed.

Lemma wrap32_succ (a : N) (k : nat) :
  wrap32 (wrap32 (a + 1) + N.of_nat k) = wrap32 (a + N.of_nat (S k)).
Proof.
  unfold wrap32. rewrite N.Div0.add_mod_idemp_l. f_equal. lia.
Qed.

Lemma ctr_get_inc (c : counter) (p q : func_decl) :
  ctr_get (ctr_inc c q) p
  = if decl_eqb p q then wrap32 (ctr_get c p + 1) else ctr_get c p.
Proof.
  unfold ctr_inc, ctr_set. simpl.
  destruct (decl_eqb p q) eqn:E; [|reflexivity].
  apply decl_eqb_eq in E. now subst.
Qed.

Lemma fold_count_tail_head (neg : bool) (l : list app) :
  forall st : inliner app,
    m_head_pred_ctr (fold_left (count_tail neg) l st) = m_head_pred_ctr st.
Proof.
  induction l as [|a l IH]; intros st; simpl; [reflexivity|].
  rewrite IH. unfold count_tail. destruct neg; reflexivity.
Qed.

Lemma count_rule_head (st : inliner app) (r : rule app) (p : func_decl) :
  ctr_get (m_head_pred_ctr (count_rule st r)) p
  = if decl_eqb (get_decl r) p
    then wrap32 (ctr_get (m_head_pred_ctr st) p + 1)
    else ctr_get (m_head_pred_ctr st) p.
Proof.
  unfold count_rule. rewrite !fold_count_tail_head.
  rewrite (decl_eqb_sym (get_decl r) p).
  destruct (0 <? get_tail_size r); simpl; apply ctr_get_inc.
Qed.

Lemma count_rules_head (p : func_decl) (orig : rule_set app) :
  forall st : inliner app,
    (ctr_get (m_head_pred_ctr st) p < 4294967296)%N ->
    ctr_get (m_head_pred_ctr (fold_left count_rule orig st)) p
    = wrap32 (ctr_get (m_head_pred_ctr st) p
              + N.of_nat (length (get_predicate_rules orig p))).
Proof.
  induction orig as [|r orig IH]; intros st Hlt; simpl.
  - rewrite N.add_0_r. symmetry. now apply wrap32_small.
  - pose proof (count_rule_head st r p) as Hr.
    destruct (decl_eqb (get_decl r) p); simpl.
    + rewrite IH by (rewrite Hr; apply wrap32_lt).
      rewrite Hr. apply wrap32_succ.
    + rewrite IH by (rewrite Hr; exact Hlt). now rewrite Hr.
Qed.

Lemma count_tail_tail (neg : bool) (st : inliner app) (a : app) (p : func_decl) :
  ctr_get (m_tail_pred_ctr (count_tail neg st a)) p
  = if decl_eqb (app_decl a) p
    then wrap32 (ctr_get (m_tail_pred_ctr st) p + 1)
    else ctr_get (m_tail_pred_ctr st) p.
Proof.
  rewrite (decl_eqb_sym (app_decl a) p).
  unfold count_tail. destruct neg; simpl; apply ctr_get_inc.
Qed.

Lemma fold_count_tail_tail (neg : bool) (p : func_decl) (l : list app) :
  forall st : inliner app,
    (ctr_get (m_tail_pred_ctr st) p < 4294967296)%N ->
    ctr_get (m_tail_pred_ctr (fold_left (count_tail neg) l st)) p
    = wrap32 (ctr_get (m_tail_pred_ctr st) p
              + N.of_nat (length (filter (fun a => decl_eqb (app_decl a) p) l))).
Proof.
  induction l as [|a l IH]; intros st Hlt; simpl.
  - rewrite N.add_0_r. symmetry. now apply wrap32_small.
  - pose proof (count_tail_tail neg st a p) as Hr.
    destruct (decl_eqb (app_decl a) p); simpl.
    + rewrite IH by (rewrite Hr; apply wrap32_lt).
      rewrite Hr. apply wrap32_succ.
    + rewrite IH by (rewrite Hr; exact Hlt). now rewrite Hr.
Qed.

Lemma wrap32_add (a : N) (j k : nat) :
  wrap32 (wrap32 (a + N.of_nat j) + N.of_nat k) = wrap32 (a + N.of_nat (j + k)).
Proof.
  unfold wrap32. rewrite N.Div0.add_mod_idemp_l. f_equal. lia.
Qed.

Lemma count_rule_tail (st : inliner app) (r : rule app) (p : func_decl) :
  (ctr_get (m_tail_pred_ctr st) p < 4294967296)%N ->
  ctr_get (m_tail_pred_ctr (count_rule st r)) p
  = wrap32 (ctr_get (m_tail_pred_ctr st) p
            + N.of_nat (length (filter (fun a => decl_eqb (app_decl a) p)
                                  (uninterpreted_tail r)))).
Proof.
  intros Hlt. unfold count_rule, uninterpreted_tail.
  rewrite filter_app, length_app.
  set (st1 := if 0 <? get_tail_size r
              then set_head_pred_non_empty_tails_ctr
                     (set_head_pred_ctr st
                        (ctr_inc (m_head_pred_ctr st) (get_decl r)))
                     (ctr_inc
                        (m_head_pred_non_empty_tails_ctr
                           (set_head_pred_ctr st
                              (ctr_inc (m_head_pred_ctr st) (get_decl r))))
                        (get_decl r))
              else set_head_pred_ctr st
                     (ctr_inc (m_head_pred_ctr st) (get_decl r))).
  assert (H1 : m_tail_pred_ctr st1 = m_tail_pred_ctr st)
    by (unfold st1; destruct (0 <? get_tail_size r); reflexivity).
  rewrite fold_count_tail_tail.
  - rewrite fold_count_tail_tail by (rewrite H1; exact Hlt).
    rewrite H1. apply wrap32_add.
  - rewrite fold_count_tail_tail by (rewrite H1; exact Hlt). apply wrap32_lt.
Qed.

Lemma count_rules_tail (p : func_decl) (orig : rule_set app) :
  forall st : inliner app,
    (ctr_get (m_tail_pred_ctr st) p < 4294967296)%N ->
    ctr_get (m_tail_pred_ctr (fold_left count_rule orig st)) p
    = wrap32 (ctr_get (m_tail_pred_ctr st) p + N.of_nat (tail_occurrences orig p)).
Proof.
  unfold tail_occurrences.
  induction orig as [|r orig IH]; intros st Hlt; simpl.
  - rewrite N.add_0_r. symmetry. now apply wrap32_small.
  - rewrite filter_app, length_app.
    rewrite IH by (rewrite count_rule_tail by exact Hlt; apply wrap32_lt).
    rewrite count_rule_tail by exact Hlt. apply wrap32_add.
Qed.

(** X4: [count_pred_occurrences] counts exactly.  For counters that hold
    32-bit values, the head counter of a predicate grows by the number of
    rules with that head predicate and its tail counter by the number of
    its occurrences in uninterpreted tails, positive and negated alike,
    both modulo 2^32. *)
Theorem count_pred_occurrences_counts (st : inliner app) (orig : rule_set app)
    (p : func_decl) :
  (ctr_get (m_head_pred_ctr st) p < 4294967296)%N ->
  (ctr_get (m_tail_pred_ctr st) p < 4294967296)%N ->
  ctr_get (m_head_pred_ctr (count_pred_occurrences st orig)) p
  = wrap32 (ctr_get (m_head_pred_ctr st) p
            + N.of_nat (length (get_predicate_rules orig p)))
  /\ ctr_get (m_tail_pred_ctr (count_pred_occurrences st orig)) p
     = wrap32 (ctr_get (m_tail_pred_ctr st) p
               + N.of_nat (tail_occurrences orig p)).
Proof.
  intros Hh Ht. unfold count_pred_occurrences.
  set (st1 := set_preds_with_facts st
                (fold_left (fun s q => insert q s)
                   (non_empty_predicates (m_context st))
                   (m_preds_with_facts st))).
  assert (H1 : m_head_pred_ctr st1 = m_head_pred_ctr st) by reflexivity.
  assert (H2 : m_tail_pred_ctr st1 = m_tail_pred_ctr st) by reflexivity.
  split.
  - rewrite count_rules_head by (rewrite H1; exact Hh). now rewrite H1.
  - rewrite count_rules_tail by (rewrite H2; exact Ht). now rewrite H2.
Qed.

Lemma fold_insert_contains (l s : decl_set) (p : func_decl) :
  contains (fold_left (fun s q => insert q s) l s) p
  = contains s p || contains l p.
Proof.
  revert s. induction l as [|q l IH]; intros s; simpl.
  - now rewrite orb_false_r.
  - rewrite IH, contains_insert.
    change (contains (q :: l) p) with (decl_eqb p q || contains l p).
    generalize (decl_eqb p q) (contains s p) (contains l p).
    intros [|] [|] [|]; reflexivity.
Qed.

Lemma fold_count_tail_facts (neg : bool) (l : list app) :
  forall st : inliner app,
    m_preds_with_facts (fold_left (count_tail neg) l st) = m_preds_with_facts st.
Proof.
  induction l as [|a l IH]; intros st; simpl; [reflexivity|].
  rewrite IH. unfold count_tail. destruct neg; reflexivity.
Qed.

Lemma count_rules_facts (orig : rule_set app) :
  forall st : inliner app,
    m_preds_with_facts (fold_left count_rule orig st) = m_preds_with_facts st.
Proof.
  induction orig as [|r orig IH]; intros st; simpl; [reflexivity|].
  rewrite IH. unfold count_rule. rewrite !fold_count_tail_facts.
  destruct (0 <? get_tail_size r); reflexivity.
Qed.

Lemma fold_count_tail_positive (l : list app) :
  forall st : inliner app,
    m_preds_with_neg_occurrence (fold_left (count_tail false) l st)
    = m_preds_with_neg_occurrence st.
Proof.
  induction l as [|a l IH]; intros st; simpl; [reflexivity|].
  now rewrite IH.
Qed.

Lemma fold_count_tail_negative (p : func_decl) (l : list app) :
  forall st : inliner app,
    contains (m_preds_with_neg_occurrence (fold_left (count_tail true) l st)) p
    = contains (m_preds_with_neg_occurrence st) p
      || existsb (fun a => decl_eqb p (app_decl a)) l.
Proof.
  induction l as [|a l IH]; intros st; cbn [fold_left existsb].
  - now rewrite orb_false_r.
  - rewrite IH.
    assert (E : contains (m_preds_with_neg_occurrence (count_tail true st a)) p
                = decl_eqb p (app_decl a)
                  || contains (m_preds_with_neg_occurrence st) p)
      by (unfold count_tail; simpl; apply contains_insert).
    rewrite E.
    generalize (decl_eqb p (app_decl a))
      (contains (m_preds_with_neg_occurrence st) p)
      (existsb (fun a0 => decl_eqb p (app_decl a0)) l).
    intros [|] [|] [|]; reflexivity.
Qed.

Lemma count_rules_negative (p : func_decl) (orig : rule_set app) :
  forall st : inliner app,
    contains (m_preds_with_neg_occurrence (fold_left count_rule orig st)) p
    = contains (m_preds_with_neg_occurrence st) p
      || existsb (fun r => existsb (fun a => decl_eqb p (app_decl a)) (neg_tail r))
           orig.
Proof.
  induction orig as [|r orig IH]; intros st; simpl.
  - now rewrite orb_false_r.
  - rewrite IH. unfold count_rule.
    rewrite fold_count_tail_negative, fold_count_tail_positive.
    rewrite <- orb_assoc. f_equal.
    destruct (0 <? get_tail_size r); reflexivity.
Qed.

(** X5: the two sets [count_pred_occurrences] fills.  Afterwards
    [m_preds_with_neg_occurrence] holds a predicate exactly when it held it
    before or the predicate occurs negated in a rule of the rule set, and
    [m_preds_with_facts] holds a predicate exactly when it held it before
    or the relation manager reports the predicate as non-empty. *)
Theorem count_pred_occurrences_sets (st : inliner app) (orig : rule_set app)
    (p : func_decl) :
  (contains (m_preds_with_neg_occurrence (count_pred_occurrences st orig)) p = true
   <-> contains (m_preds_with_neg_occurrence st) p = true \/ negated_in orig p)
  /\ (contains (m_preds_with_facts (count_pred_occurrences st orig)) p = true
      <-> contains (m_preds_with_facts st) p = true
          \/ contains (non_empty_predicates (m_context st)) p = true).
Proof.
  unfold count_pred_occurrences. split.
  - rewrite count_rules_negative. simpl. rewrite orb_true_iff.
    apply or_iff_compat_l. rewrite existsb_exists. split.
    + intros (r & Hr & Hx). apply existsb_exists in Hx.
      destruct Hx as (a & Ha & E). apply decl_eqb_eq in E.
      exists r, a. auto.
    + intros (r & a & Hr & Ha & E). exists r. split; [exact Hr|].
      apply existsb_exists. exists a. split; [exact Ha|].
      apply decl_eqb_eq. now symmetry.
  - rewrite count_rules_facts. simpl. rewrite fold_insert_contains.
    apply orb_true_iff.
Qed.

(** ** Breaking cycles *)

Lemma forbid_strata_result (p : func_decl) (comps : list stratum) :
  forall acc : inliner app * bool,
    (snd (fold_left forbid_stratum comps acc)
     = snd acc || existsb (fun s => negb (length (snd s) =? 0)) comps)
    /\ contains (m_forbidden_preds (fst (fold_left forbid_stratum comps acc))) p
       = contains (m_forbidden_preds (fst acc)) p
         || existsb (fun s => negb (length (snd s) =? 0) && decl_eqb p (fst s))
              comps.
Proof.
  induction comps as [|s comps IH]; intros acc; simpl.
  - now rewrite !orb_false_r.
  - destruct (IH (forbid_stratum acc s)) as [H1 H2]. rewrite H1, H2.
    unfold forbid_stratum. destruct (snd s) as [|x l]; simpl.
    + split; reflexivity.
    + rewrite contains_insert. split.
      * now rewrite orb_true_r.
      * destruct (decl_eqb p (fst s)),
          (contains (m_forbidden_preds (fst acc)) p); reflexivity.
Qed.

(** X6: [forbid_preds_from_cycles] answers true exactly when some stratum
    holds more than one predicate, and afterwards the forbidden predicates
    are the ones forbidden before together with the first predicate of
    every such stratum; a forbidden predicate is not admissible for
    inlining. *)
Theorem forbid_preds_from_cycles_spec (st : inliner app)
    (strat : rule_stratifier) (p : func_decl) :
  (snd (forbid_preds_from_cycles st strat) = true
   <-> exists s, In s (get_strats strat) /\ snd s <> [])
  /\ (contains (m_forbidden_preds (fst (forbid_preds_from_cycles st strat))) p
      = true
      <-> contains (m_forbidden_preds st) p = true
          \/ exists s, In s (get_strats strat) /\ snd s <> [] /\ fst s = p)
  /\ (contains (m_forbidden_preds (fst (forbid_preds_from_cycles st strat))) p
      = true ->
      inlining_allowed (fst (forbid_preds_from_cycles st strat)) p = false).
Proof.
  unfold forbid_preds_from_cycles.
  destruct (forbid_strata_result p (get_strats strat) (st, false)) as [H1 H2].
  assert (Hne : forall s : stratum,
             negb (length (snd s) =? 0) = true <-> snd s <> []).
  { intros s. destruct (snd s); simpl; split; congruence. }
  split; [|split].
  - rewrite H1. simpl. rewrite existsb_exists. split.
    + intros (s & Hs & E). exists s. split; [exact Hs | now apply Hne].
    + intros (s & Hs & E). exists s. split; [exact Hs | now apply Hne].
  - rewrite H2. simpl. rewrite orb_true_iff. apply or_iff_compat_l.
    rewrite existsb_exists. split.
    + intros (s & Hs & E). apply andb_true_iff in E. destruct E as [E1 E2].
      exists s. split; [exact Hs|]. split; [now apply Hne|].
      apply decl_eqb_eq in E2. now symmetry.
    + intros (s & Hs & E1 & E2). exists s. split; [exact Hs|].
      apply andb_true_iff. split; [now apply Hne|].
      apply decl_eqb_eq. now symmetry.
  - intros Hf. unfold inlining_allowed. rewrite Hf.
    now rewrite !orb_true_r.
Qed.

End Analysis.

(** ** The candidates of the eager inliner *)

Section Candidates.

Context {app : Type} {host : Host app}.

Lemma select_candidate_unifying (r : rule app) (ti : nat) (l : rule_set app) :
  forall cand,
    select_candidate r ti l cand
    = match cand, unifying r ti l with
      | None, [] => Some None
      | None, [c] => Some (Some c)
      | Some c0, [] => Some (Some c0)
      | _, _ => None
      end.
Proof.
  induction l as [|x l IH]; intros cand; simpl.
  - destruct cand; reflexivity.
  - destruct (unify_rules r ti x) as [u|].
    + destruct cand as [c0|]; [reflexivity|].
      rewrite IH. destruct (unifying r ti l); reflexivity.
    + apply IH.
Qed.

(** X7: the candidate the eager inliner picks for a tail atom.  A predicate
    without rules has none, the only rule of a predicate is the candidate
    whether or not its head unifies with the atom, and of several rules the
    candidate is the one whose head unifies with the atom when there is
    exactly one such rule; when none unifies there is no candidate, and
    when two or more unify the tail atom is passed over. *)
Theorem inlining_candidate_of_spec (r : rule app) (ti : nat)
    (pred_rules : rule_set app) :
  inlining_candidate_of r ti pred_rules
  = match pred_rules with
    | [] => Some None
    | [c] => Some (Some c)
    | _ :: _ :: _ =>
        match unifying r ti pred_rules with
        | [] => Some None
        | [c] => Some (Some c)
        | _ :: _ :: _ => None
        end
    end.
Proof.
  unfold inlining_candidate_of.
  destruct pred_rules as [|x [|y l]]; [reflexivity | reflexivity |].
  rewrite select_candidate_unifying.
  destruct (unifying r ti (x :: y :: l)) as [|c [|d l']]; reflexivity.
Qed.

Lemma recursive_not_oriented (strat : rule_stratifier) (c : rule app) (b : app) :
  In b (pos_tail c) -> app_decl b = get_decl c ->
  is_oriented_rewriter c strat = false.
Proof.
  intros Hb E. unfold is_oriented_rewriter.
  destruct (forallb (oriented_tail strat (get_decl c)) (pos_tail c)) eqn:Ef;
    [|reflexivity].
  rewrite forallb_forall in Ef. specialize (Ef b Hb).
  apply oriented_tail_true in Ef. rewrite E in Ef. lia.
Qed.

Lemma eager_tails_source (st : inliner app) (r : rule app) (rules : rule_set app)
    (strat : rule_stratifier) (tails : list app) :
  forall ti st' r' res,
    eager_tails st r rules strat ti tails = (st', r', Some (Some res)) ->
    exists k a c,
      nth_error tails k = Some a
      /\ In c rules /\ get_decl c = app_decl a
      /\ app_decl a <> get_decl r
      /\ contains (m_preds_with_facts st) (app_decl a) = false
      /\ is_oriented_rewriter c strat = true
      /\ try_to_inline_rule st r c (ti + k) = (st', r', Some res).
Proof.
  induction tails as [|a tails IH]; intros ti st' r' res; simpl; [discriminate|].
  assert (Hnext :
    eager_tails st r rules strat (S ti) tails = (st', r', Some (Some res)) ->
    exists k a0 c,
      nth_error (a :: tails) k = Some a0
      /\ In c rules /\ get_decl c = app_decl a0
      /\ app_decl a0 <> get_decl r
      /\ contains (m_preds_with_facts st) (app_decl a0) = false
      /\ is_oriented_rewriter c strat = true
      /\ try_to_inline_rule st r c (ti + k) = (st', r', Some res)).
  { intros E. apply IH in E.
    destruct E as (k & a0 & c & Hk & Hc & Hd & Hn & Hf & Ho & Ht).
    exists (S k), a0, c. repeat split; auto.
    replace (ti + S k) with (S ti + k) by lia. exact Ht. }
  destruct (decl_eqb (app_decl a) (get_decl r)) eqn:Ed; simpl; [exact Hnext|].
  destruct (contains (m_preds_with_facts st) (app_decl a)) eqn:Ef; simpl;
    [exact Hnext|].
  destruct (inlining_candidate_of r ti (get_predicate_rules rules (app_decl a)))
    as [[c|]|] eqn:Ec; [| discriminate | exact Hnext].
  destruct (is_oriented_rewriter c strat) eqn:Eo; simpl; [|exact Hnext].
  destruct (try_to_inline_rule st r c ti) as [[st1 r1] [res1|]] eqn:Et;
    [|discriminate].
  intros E. inversion E; subst.
  apply inlining_candidate_of_In, get_predicate_rules_In in Ec.
  destruct Ec as [Hin Hd]. apply decl_eqb_neq in Ed.
  exists 0, a, c. repeat split; auto.
  now rewrite Nat.add_0_r.
Qed.

(** X8: what the eager inliner never resolves with.  When a call of
    [do_eager_inlining] on a rule yields a replacement, the rule was resolved
    at a positive tail atom whose predicate is not the head predicate of the
    rule and has no facts, with a rule of the set for that predicate which is
    not directly recursive: its head predicate is none of its own positive
    tail predicates. *)
Theorem eager_inlining_source (st : inliner app) (r : rule app)
    (rules : rule_set app) (strat : rule_stratifier) st' r' res :
  do_eager_inlining_rule st r rules strat = (st', r', Some (Some res)) ->
  exists ti a c,
    nth_error (pos_tail r) ti = Some a
    /\ In c rules /\ get_decl c = app_decl a
    /\ app_decl a <> get_decl r
    /\ contains (m_preds_with_facts st) (app_decl a) = false
    /\ (forall b, In b (pos_tail c) -> app_decl b <> get_decl c)
    /\ try_to_inline_rule st r c ti = (st', r', Some res).
Proof.
  intros E. unfold do_eager_inlining_rule in E.
  apply eager_tails_source in E.
  destruct E as (k & a & c & Hk & Hc & Hd & Hn & Hf & Ho & Ht).
  exists k, a, c. repeat split; auto.
  intros b Hb Eb.
  rewrite (recursive_not_oriented strat c b Hb Eb) in Ho. discriminate.
Qed.

End Candidates.

(** ** The vectors of the linear inliner stay in step *)

Section LinearBounds.

Context {app : Type} {host : Host app}.

Lemma add_position_below (n : nat) (m : positions app) (e : app) (j : nat) :
  j < n -> positions_below n m -> positions_below n (add_position m e j).
Proof.
  intros Hj. induction m as [|[x v] m IH]; intros Hm e' v' j'; simpl.
  - intros [E|[]] Hin. injection E as E1 E2. subst e' v'.
    destruct Hin as [<-|[]]. exact Hj.
  - assert (Hm' : positions_below n m)
      by (intros e0 v0 j0 H0; apply (Hm e0 v0 j0); now right).
    destruct (app_eqb e x).
    + intros [E|Hin] Hin'.
      * injection E as E1 E2. subst e' v'. apply in_app_or in Hin'.
        destruct Hin' as [Hin'|[<-|[]]]; [|exact Hj].
        apply (Hm x v j'); [now left | exact Hin'].
      * apply (Hm e' v' j'); [now right | exact Hin'].
    + intros [E|Hin] Hin'.
      * injection E as E1 E2. subst e' v'.
        apply (Hm x v j'); [now left | exact Hin'].
      * exact (IH Hm' e' v' j' Hin Hin').
Qed.

Lemma erase_In (j x : nat) (v : list nat) : In x (erase j v) -> In x v.
Proof.
  induction v as [|y v IH]; simpl; [tauto|].
  destruct (y =? j); [now right|].
  intros [<-|H]; [now left | right; now apply IH].
Qed.

Lemma del_position_below (n : nat) (m : positions app) (e : app) (j : nat) :
  positions_below n m -> positions_below n (del_position m e j).
Proof.
  induction m as [|[x v] m IH]; intros Hm e' v' j'; simpl; [intros []|].
  assert (Hm' : positions_below n m)
    by (intros e0 v0 j0 H0; apply (Hm e0 v0 j0); now right).
  destruct (app_eqb e x).
  - intros [E|Hin] Hin'.
    + injection E as E1 E2. subst e' v'. apply erase_In in Hin'.
      apply (Hm x v j'); [now left | exact Hin'].
    + apply (Hm e' v' j'); [now right | exact Hin'].
  - intros [E|Hin] Hin'.
    + injection E as E1 E2. subst e' v'.
      apply (Hm x v j'); [now left | exact Hin'].
    + exact (IH Hm' e' v' j' Hin Hin').
Qed.

Lemma find_positions_below (n : nat) (m : positions app) (e : app) (j : nat) :
  positions_below n m -> In j (find_positions m e) -> j < n.
Proof.
  induction m as [|[x v] m IH]; intros Hm; simpl; [intros []|].
  destruct (app_eqb e x).
  - intros Hin. apply (Hm x v j); [now left | exact Hin].
  - apply IH. intros e0 v0 j0 H0. apply (Hm e0 v0 j0). now right.
Qed.

Lemma unifiers_below (n : nat) (idx : list app) (m : positions app) (e : app)
    (j : nat) :
  positions_below n m -> In j (unifiers idx m e) -> j < n.
Proof.
  intros Hm Hin. apply unifiers_In in Hin.
  destruct Hin as (e' & _ & _ & Hj). exact (@find_positions_below n m e' j Hm Hj).
Qed.

Lemma add_rule_tails_below (n i : nat) (tails : list app) :
  i < n ->
  forall pi : positions app * list app,
    positions_below n (fst pi) ->
    positions_below n (fst (fold_left (add_rule_tail i) tails pi)).
Proof.
  intros Hi. induction tails as [|t tails IH]; intros pi Hp; simpl; [exact Hp|].
  apply IH. simpl. now apply add_position_below.
Qed.

Lemma del_rule_tails_below (n i : nat) (tails : list app) :
  forall m : positions app,
    positions_below n m ->
    positions_below n (fold_left (fun m tail => del_position m tail i) tails m).
Proof.
  induction tails as [|t tails IH]; intros m Hp; simpl; [exact Hp|].
  apply IH. now apply del_position_below.
Qed.

Lemma add_rule_bounded (n : nat) (st : inliner app) (lin : linear app)
    (r : rule app) (i : nat) :
  i < n -> linear_bounded n lin -> linear_bounded n (add_rule st lin r i).
Proof.
  intros Hi (Ha & Hv & Hr & He & Hh & Ht).
  pose proof (@add_rule_tails_below n i (uninterpreted_tail r) Hi
                (tail_positions lin, m_tail_index lin) Ht) as Ht'.
  unfold add_rule.
  destruct (fold_left (add_rule_tail i) (uninterpreted_tail r)
              (tail_positions lin, m_tail_index lin)) as [tp tidx].
  simpl in Ht'. unfold linear_bounded. simpl.
  repeat split; auto.
  - destruct (is_output_predicate (m_context st) (app_decl (get_head r))
              || contains (m_preds_with_facts st) (app_decl (get_head r)));
      [now rewrite set_nth_length | exact Hr].
  - now rewrite set_nth_length.
  - now apply add_position_below.
Qed.

Lemma del_rule_bounded (n : nat) (lin : linear app) (r : rule app) (i : nat) :
  linear_bounded n lin -> linear_bounded n (del_rule lin r i).
Proof.
  intros (Ha & Hv & Hr & He & Hh & Ht). unfold del_rule, linear_bounded. simpl.
  repeat split; auto.
  - now apply del_position_below.
  - now apply del_rule_tails_below.
Qed.

Lemma set_acc_bounded (n : nat) (lin : linear app) (a : list (rule app)) :
  length a = n -> linear_bounded n lin -> linear_bounded n (set_acc lin a).
Proof.
  intros Hl (Ha & Hv & Hr & He & Hh & Ht). unfold linear_bounded. simpl.
  repeat split; auto.
Qed.

Lemma set_can_expand_bounded (n : nat) (lin : linear app) (v : list bool) :
  length v = n -> linear_bounded n lin -> linear_bounded n (set_can_expand lin v).
Proof.
  intros Hl (Ha & Hv & Hr & He & Hh & Ht). unfold linear_bounded. simpl.
  repeat split; auto.
Qed.

Lemma set_valid_bounded (n : nat) (lin : linear app) (v : list bool) :
  length v = n -> linear_bounded n lin -> linear_bounded n (set_valid lin v).
Proof.
  intros Hl (Ha & Hv & Hr & He & Hh & Ht). unfold linear_bounded. simpl.
  repeat split; auto.
Qed.

Lemma linear_round_bounded (n : nat) (st : inliner app) (lin : linear app)
    (allow_branching : bool) (i : nat) :
  i < n -> linear_bounded n lin ->
  linear_bounded n
    (snd (round_result (linear_round_at st lin allow_branching i))).
Proof.
  intros Hi Hb. unfold linear_round_at.
  destruct (nth_error (acc lin) i) as [r|]; [|exact Hb].
  destruct (get_flag (valid lin) i); simpl; [|exact Hb].
  destruct (get_flag (can_expand lin) i); simpl; [|exact Hb].
  destruct (get_tail r 0) as [t0|]; [|exact Hb].
  destruct (unifiers (m_head_index lin) (head_positions lin) t0)
    as [|j [|j1 l]] eqn:Eu; try exact Hb.
  assert (Hj : j < n).
  { destruct Hb as (_ & _ & _ & _ & Hh & _).
    apply (@unifiers_below n (m_head_index lin) (head_positions lin) t0 j Hh).
    rewrite Eu. now left. }
  destruct (negb (get_flag (can_remove lin) j)
            || negb (get_flag (valid lin) j) || (i =? j)); [exact Hb|].
  destruct (nth_error (acc lin) j) as [r2|]; [|exact Hb].
  destruct (negb allow_branching
            && negb (length (unifiers (m_tail_index lin) (tail_positions lin)
                               (get_head r2)) =? 1)); [exact Hb|].
  assert (Hlen : length (acc lin) = n) by exact (proj1 Hb).
  destruct (try_to_inline_rule st r r2 0) as [[st1 r'] [res|]].
  2: { simpl. apply set_acc_bounded; [now rewrite set_nth_length | exact Hb]. }
  assert (H3 : linear_bounded n
                 (add_rule st1
                    (del_rule (set_acc lin (set_nth i r' (acc lin))) r' i)
                    res i)).
  { apply add_rule_bounded; [exact Hi|]. apply del_rule_bounded.
    apply set_acc_bounded; [now rewrite set_nth_length | exact Hb]. }
  pose proof H3 as (Ha3 & Hv3 & Hr3 & He3 & _ & _).
  destruct (length (unifiers (m_tail_index lin) (tail_positions lin)
                      (get_head r2)) =? 1); simpl.
  - apply del_rule_bounded.
    apply set_valid_bounded; [now rewrite set_nth_length|].
    apply set_can_expand_bounded; [now rewrite set_nth_length|].
    apply set_acc_bounded; [now rewrite set_nth_length | exact H3].
  - apply set_can_expand_bounded; [now rewrite set_nth_length|].
    apply set_acc_bounded; [now rewrite set_nth_length | exact H3].
Qed.

Lemma add_rules_from_bounded (n : nat) (st : inliner app) (rs : list (rule app)) :
  forall (lin : linear app) (i : nat),
    i + length rs <= n -> linear_bounded n lin ->
    linear_bounded n (add_rules_from st lin i rs).
Proof.
  induction rs as [|r rs IH]; intros lin i Hi Hb; simpl; [exact Hb|].
  simpl in Hi. apply IH; [lia|]. apply add_rule_bounded; [lia | exact Hb].
Qed.

Lemma linear_init_bounded (st : inliner app) (rules : rule_set app) :
  linear_bounded (length rules) (linear_init st rules).
Proof.
  unfold linear_init.
  apply add_rules_from_bounded; [simpl; lia|].
  unfold linear_bounded. simpl. rewrite !repeat_length.
  repeat split; auto; intros e v j [].
Qed.

(** X9: the vectors of the linear inliner stay in step.  After
    initialisation the vectors [acc], [valid], [can_remove] and [can_expand]
    have one entry per rule and the two visitors hold positions below the
    number of rules; every round of the loop keeps it so; and whenever it
    holds, a position the head index reports for a tail atom is the position
    of a rule in [acc]. *)
Theorem linear_positions_in_bounds :
  (forall (st : inliner app) (rules : rule_set app),
      linear_bounded (length rules) (linear_init st rules))
  /\ (forall (n : nat) (st : inliner app) (lin : linear app)
             (allow_branching : bool) (i : nat),
         i < n -> linear_bounded n lin ->
         linear_bounded n
           (snd (round_result (linear_round_at st lin allow_branching i))))
  /\ (forall (n : nat) (lin : linear app) (t : app) (j : nat),
         linear_bounded n lin ->
         In j (unifiers (m_head_index lin) (head_positions lin) t) ->
         j < length (valid lin) /\ j < length (can_remove lin)
         /\ exists r2, nth_error (acc lin) j = Some r2).
Proof.
  split; [|split].
  - intros st rules. apply linear_init_bounded.
  - intros n st lin ab i Hi Hb. now apply linear_round_bounded.
  - intros n lin t j Hb Hin.
    destruct Hb as (Ha & Hv & Hr & _ & Hh & _).
    pose proof (@unifiers_below n _ _ _ j Hh Hin) as Hj.
    rewrite Hv, Hr. repeat split; try exact Hj.
    destruct (nth_error (acc lin) j) as [r2|] eqn:E; [now exists r2|].
    apply nth_error_None in E. lia.
Qed.

End LinearBounds.

(** ** The eager and the linear inliner as stages *)

Section Stages.

Context {app : Type} {host : Host app}.

Lemma eager_rules_count (todo : list (rule app)) :
  forall fuel (st : inliner app) rules strat k res d st' res' d',
    eager_rules fuel st rules strat k todo res d = Done (st', res', d') ->
    length res' <= length res + length todo.
Proof.
  induction todo as [|r todo IH];
    intros fuel st rules strat k res d st' res' d'; simpl.
  - intros E; inversion E; subst. lia.
  - destruct (eager_while fuel st rules strat (Some k) r d)
      as [[[[st1 rules1] r1] d1]| |]; simpl; try discriminate.
    intros E. apply IH in E.
    destruct r1 as [r1|]; [|lia].
    unfold add_rule_to in E. rewrite length_app in E. simpl in E. lia.
Qed.

Lemma valid_rules_length (v : list bool) :
  forall a : list (rule app), length (valid_rules v a) <= length a.
Proof.
  induction v as [|b v IH]; intros [|r a]; simpl; try lia.
  specialize (IH a). destruct b; simpl; lia.
Qed.

Lemma linear_while_bounded (n : nat) (allow_branching : bool) (i : nat)
    (fuel : nat) :
  i < n ->
  forall (st : inliner app) (lin : linear app) d st' lin' d',
    linear_bounded n lin ->
    linear_while fuel st lin allow_branching i d = Done (st', lin', d') ->
    linear_bounded n lin'.
Proof.
  intros Hi. induction fuel as [|fuel IH]; intros st lin d st' lin' d' Hb;
    simpl; [discriminate|].
  pose proof (@linear_round_bounded app host n st lin allow_branching i Hi Hb)
    as H1.
  destruct (linear_round_at st lin allow_branching i) as [s l|s l j k];
    simpl in H1.
  - intros E; inversion E; subst. exact H1.
  - intros E. exact (IH _ _ _ _ _ _ H1 E).
Qed.

Lemma linear_for_bounded (n : nat) (allow_branching : bool) (fuel : nat)
    (cnt : nat) :
  forall (i : nat) (st : inliner app) (lin : linear app) d st' lin' d',
    i + cnt <= n ->
    linear_bounded n lin ->
    linear_for fuel st lin allow_branching i cnt d = Done (st', lin', d') ->
    linear_bounded n lin'.
Proof.
  induction cnt as [|cnt IH]; intros i st lin d st' lin' d' Hi Hb; simpl.
  - intros E; inversion E; subst. exact Hb.
  - destruct (linear_while fuel st lin allow_branching i d)
      as [[[st1 lin1] d1]| |] eqn:E1; simpl; try discriminate.
    assert (Hlt : i < n) by lia.
    pose proof (@linear_while_bounded n allow_branching i fuel Hlt
                  _ _ _ _ _ _ Hb E1) as H1.
    intros E. apply (IH (S i) _ _ _ _ _ _ ltac:(lia) H1 E).
Qed.

(** X23: the eager and the linear inliner never add a rule.  The rule set
    either stage returns has at most as many rules as the rule set it was
    given: a rule is replaced by one resolvent or it is deleted. *)
Theorem inliners_keep_rule_count :
  (forall fuel (st : inliner app) (rules : rule_set app) strat st' res d,
      do_eager_inlining fuel st rules strat = Done (st', res, d) ->
      length res <= length rules)
  /\ (forall fuel (st : inliner app) (rules : rule_set app) st' res d,
         inline_linear fuel st rules = Done (st', res, d) ->
         length res <= length rules).
Proof.
  split.
  - intros fuel st rules strat st' res d. unfold do_eager_inlining.
    destruct (eager_rules fuel st rules strat 0 rules [] false)
      as [[[st1 res1] d1]| |] eqn:E1; simpl; try discriminate.
    intros E; inversion E; subst.
    apply eager_rules_count in E1. simpl in E1.
    destruct d; [exact E1 | lia].
  - intros fuel st rules st' res d. unfold inline_linear.
    destruct (linear_for fuel st (linear_init st rules)
                (Params.ref_get_bool (get_params (m_context st))
                   ":inline-linear-branch" false)
                0 (length rules) false)
      as [[[st1 lin1] d1]| |] eqn:E1; simpl; try discriminate.
    intros E; inversion E; subst.
    pose proof (@linear_for_bounded (length rules) _ fuel (length rules)
                  0 _ _ _ _ _ _ (le_n _) (linear_init_bounded st rules) E1)
      as Hb.
    destruct Hb as (Ha & _).
    destruct d; [|lia].
    pose proof (valid_rules_length (valid lin1) (acc lin1)). lia.
Qed.

Lemma try_to_inline_rule_none (st : inliner app) (tgt src : rule app)
    (i : nat) st' tgt' :
  try_to_inline_rule st tgt src i = (st', tgt', None) -> st' = st.
Proof.
  unfold try_to_inline_rule.
  destruct (has_quantifier src); [intros E; now inversion E|].
  destruct (unify_rules (rm_norm_vars tgt) i src) as [u|];
    [|intros E; now inversion E].
  destruct (unifier_apply (m_context st) u (rm_norm_vars tgt) i src);
    intros E; [discriminate | now inversion E].
Qed.

Lemma eager_tails_idle (st : inliner app) (r : rule app) (rules : rule_set app)
    (strat : rule_stratifier) (tails : list app) :
  forall ti st' r',
    eager_tails st r rules strat ti tails = (st', r', None) -> st' = st.
Proof.
  induction tails as [|a tails IH]; intros ti st' r'; simpl.
  - intros E; now inversion E.
  - destruct (decl_eqb (app_decl a) (get_decl r)
              || contains (m_preds_with_facts st) (app_decl a)); [apply IH|].
    destruct (inlining_candidate_of r ti (get_predicate_rules rules (app_decl a)))
      as [[c|]|]; [| discriminate | apply IH].
    destruct (negb (is_oriented_rewriter c strat)); [apply IH|].
    destruct (try_to_inline_rule st r c ti) as [[st1 r1] [res1|]];
      discriminate.
Qed.

Lemma eager_while_idle (fuel : nat) :
  forall (st : inliner app) rules strat shared r d st' rules' r' d',
    eager_while fuel st rules strat shared r d = Done (st', rules', r', d') ->
    (d = true -> d' = true) /\ (d' = false -> st' = st).
Proof.
  induction fuel as [|fuel IH];
    intros st rules strat shared r d st' rules' r' d'; simpl; [discriminate|].
  unfold do_eager_inlining_rule.
  destruct (eager_tails st r rules strat 0 (pos_tail r)) as [[st1 r1] out]
    eqn:Er.
  destruct out as [[repl|]|].
  - intros E. apply IH in E. destruct E as [E1 E2].
    split; [intros _; now apply E1|].
    intros H. rewrite (E1 eq_refl) in H. discriminate.
  - intros E; inversion E; subst. split; [auto | discriminate].
  - intros E; inversion E; subst. apply eager_tails_idle in Er. auto.
Qed.

Lemma eager_rules_idle (todo : list (rule app)) :
  forall fuel (st : inliner app) rules strat k res d st' res' d',
    eager_rules fuel st rules strat k todo res d = Done (st', res', d') ->
    (d = true -> d' = true) /\ (d' = false -> st' = st).
Proof.
  induction todo as [|r todo IH];
    intros fuel st rules strat k res d st' res' d'; simpl.
  - intros E; inversion E; subst. auto.
  - destruct (eager_while fuel st rules strat (Some k) r d)
      as [[[[st1 rules1] r1] d1]| |] eqn:E1; simpl; try discriminate.
    apply eager_while_idle in E1. destruct E1 as [W1 W2].
    intros E. apply IH in E. destruct E as [R1 R2].
    split; [intros H; apply R1; now apply W1|].
    intros H. rewrite (R2 H). apply W2.
    destruct d1; [|reflexivity]. rewrite (R1 eq_refl) in H. discriminate.
Qed.

Lemma linear_round_break_state (st : inliner app) (lin : linear app)
    (allow_branching : bool) (i : nat) st' lin' :
  linear_round_at st lin allow_branching i = LBreak st' lin' -> st' = st.
Proof.
  unfold linear_round_at.
  destruct (nth_error (acc lin) i) as [r|]; [|intros E; now inversion E].
  destruct (negb (get_flag (valid lin) i)); [intros E; now inversion E|].
  destruct (negb (get_flag (can_expand lin) i)); [intros E; now inversion E|].
  destruct (get_tail r 0) as [t0|]; [|intros E; now inversion E].
  destruct (unifiers (m_head_index lin) (head_positions lin) t0)
    as [|j [|j1 l]]; try (intros E; now inversion E).
  destruct (negb (get_flag (can_remove lin) j)
            || negb (get_flag (valid lin) j) || (i =? j));
    [intros E; now inversion E|].
  destruct (nth_error (acc lin) j) as [r2|]; [|intros E; now inversion E].
  destruct (negb allow_branching
            && negb (length (unifiers (m_tail_index lin) (tail_positions lin)
                               (get_head r2)) =? 1));
    [intros E; now inversion E|].
  destruct (try_to_inline_rule st r r2 0) as [[st1 r'] [res|]] eqn:Et.
  - destruct (length (unifiers (m_tail_index lin) (tail_positions lin)
                        (get_head r2)) =? 1); discriminate.
  - intros E; inversion E; subst. now apply try_to_inline_rule_none in Et.
Qed.

Lemma linear_while_idle (allow_branching : bool) (i : nat) (fuel : nat) :
  forall (st : inliner app) (lin : linear app) d st' lin' d',
    linear_while fuel st lin allow_branching i d = Done (st', lin', d') ->
    (d = true -> d' = true) /\ (d' = false -> st' = st).
Proof.
  induction fuel as [|fuel IH]; intros st lin d st' lin' d'; simpl;
    [discriminate|].
  destruct (linear_round_at st lin allow_branching i) as [s l|s l j k] eqn:Er.
  - intros E; inversion E; subst. apply linear_round_break_state in Er. auto.
  - intros E. apply IH in E. destruct E as [E1 E2].
    split; [intros _; now apply E1|].
    intros H. rewrite (E1 eq_refl) in H. discriminate.
Qed.

Lemma linear_for_idle (allow_branching : bool) (fuel : nat) (cnt : nat) :
  forall (i : nat) (st : inliner app) (lin : linear app) d st' lin' d',
    linear_for fuel st lin allow_branching i cnt d = Done (st', lin', d') ->
    (d = true -> d' = true) /\ (d' = false -> st' = st).
Proof.
  induction cnt as [|cnt IH]; intros i st lin d st' lin' d'; simpl.
  - intros E; inversion E; subst. auto.
  - destruct (linear_while fuel st lin allow_branching i d)
      as [[[st1 lin1] d1]| |] eqn:E1; simpl; try discriminate.
    apply linear_while_idle in E1. destruct E1 as [W1 W2].
    intros E. apply IH in E. destruct E as [R1 R2].
    split; [intros H; apply R1; now apply W1|].
    intros H. rewrite (R2 H). apply W2.
    destruct d1; [|reflexivity]. rewrite (R1 eq_refl) in H. discriminate.
Qed.

(** a round that breaks leaves the vectors as they are, but for the rule at
    [i] when [try_to_inline_rule] was reached: it is renumbered *)
Lemma linear_round_break_acc (st : inliner app) (lin : linear app)
    (allow_branching : bool) (i : nat) st' lin' :
  linear_round_at st lin allow_branching i = LBreak st' lin' ->
  lin' = lin
  \/ exists r, nth_error (acc lin) i = Some r
               /\ lin' = set_acc lin (set_nth i (rm_norm_vars r) (acc lin)).
Proof.
  unfold linear_round_at.
  destruct (nth_error (acc lin) i) as [r|] eqn:Er;
    [|intros E; inversion E; now left].
  destruct (negb (get_flag (valid lin) i)); [intros E; inversion E; now left|].
  destruct (negb (get_flag (can_expand lin) i));
    [intros E; inversion E; now left|].
  destruct (get_tail r 0) as [t0|]; [|intros E; inversion E; now left].
  destruct (unifiers (m_head_index lin) (head_positions lin) t0)
    as [|j [|j1 l]]; try (intros E; inversion E; now left).
  destruct (negb (get_flag (can_remove lin) j)
            || negb (get_flag (valid lin) j) || (i =? j));
    [intros E; inversion E; now left|].
  destruct (nth_error (acc lin) j) as [r2|]; [|intros E; inversion E; now left].
  destruct (negb allow_branching
            && negb (length (unifiers (m_tail_index lin) (tail_positions lin)
                               (get_head r2)) =? 1));
    [intros E; inversion E; now left|].
  pose proof (try_to_inline_rule_tgt st r r2 0) as Ht.
  destruct (try_to_inline_rule st r r2 0) as [[st1 r'] [res|]].
  - destruct (length (unifiers (m_tail_index lin) (tail_positions lin)
                        (get_head r2)) =? 1); discriminate.
  - simpl in Ht. subst r'. intros E; inversion E; subst.
    right. exists r. auto.
Qed.

(** the rules after a run of the loops that inlined nothing: the rule at a
    position the loop has still to visit is untouched, a rule at another
    position is the one it was or its renumbering *)
Lemma linear_for_idle_acc (allow_branching : bool) (fuel : nat) (cnt : nat) :
  forall (i : nat) (st : inliner app) (lin : linear app) d st' lin',
    linear_for fuel st lin allow_branching i cnt d = Done (st', lin', false) ->
    length (acc lin') = length (acc lin)
    /\ forall m r, nth_error (acc lin) m = Some r ->
         (m < i -> nth_error (acc lin') m = Some r)
         /\ (nth_error (acc lin') m = Some r
             \/ nth_error (acc lin') m = Some (rm_norm_vars r)).
Proof.
  induction cnt as [|cnt IH]; intros i st lin d st' lin'; simpl.
  - intros E; inversion E; subst. auto.
  - destruct (linear_while fuel st lin allow_branching i d)
      as [[[st1 lin1] d1]| |] eqn:E1; simpl; try discriminate.
    intros E. pose proof (@linear_for_idle allow_branching fuel cnt (S i)
                            st1 lin1 d1 st' lin' false E) as [Hd _].
    assert (d1 = false) by (destruct d1; [now rewrite Hd|reflexivity]).
    subst d1. destruct (IH _ _ _ _ _ _ E) as [L1 L2]. clear IH E.
    destruct fuel as [|fuel]; simpl in E1; [discriminate|].
    destruct (linear_round_at st lin allow_branching i) as [s l|s l j k] eqn:Er.
    2:{ apply linear_while_idle in E1. destruct E1 as [E1 _].
        specialize (E1 eq_refl). discriminate E1. }
    inversion E1; subst. clear E1.
    apply linear_round_break_acc in Er.
    destruct Er as [->|(r0 & Hr0 & ->)]; [split; [exact L1|]|].
    + intros m r Hm. destruct (L2 m r Hm) as [A B].
      split; [intros Hlt; apply A; lia | exact B].
    + simpl in *. rewrite set_nth_length in L1. split; [exact L1|].
      intros m r Hm. destruct (Nat.eq_dec m i) as [->|Hne].
      * assert (r0 = r) by congruence. subst r0.
        destruct (L2 i (rm_norm_vars r)) as [A _].
        { eapply nth_error_set_nth_same; eauto. }
        split; [lia|]. right. apply A. lia.
      * destruct (L2 m r) as [A B].
        { rewrite nth_error_set_nth_other by exact Hne. exact Hm. }
        split; [intros Hlt; apply A; lia | exact B].
Qed.

Lemma nth_error_ext_eq {A : Type} (l l' : list A) :
  length l' = length l ->
  (forall m x, nth_error l m = Some x -> nth_error l' m = Some x) ->
  l' = l.
Proof.
  revert l'. induction l as [|x l IH]; intros [|y l'] Hlen H; simpl in *;
    try discriminate; [reflexivity|].
  specialize (H 0 x eq_refl) as H0. simpl in H0. inversion H0; subst.
  f_equal. apply IH; [lia|]. intros m z Hm. exact (H (S m) z Hm).
Qed.

(** X24: a stage that reports that it did nothing has resolved and deleted
    nothing.  When the eager inliner returns false, the rule set is the one
    it was given and the state of the pass is untouched.  When the linear
    inliner returns false, the state of the pass is untouched and the rule
    set holds, position by position, the rule it was given or that rule with
    its variables renumbered: [try_to_inline_rule] renumbers its target in
    place before it fails.  Where renumbering changes no rule of the set, the
    rule set is the one the linear inliner was given. *)
Theorem idle_stage_leaves_state :
  (forall fuel (st : inliner app) (rules : rule_set app) strat st' res,
      do_eager_inlining fuel st rules strat = Done (st', res, false) ->
      st' = st /\ res = rules)
  /\ (forall fuel (st : inliner app) (rules : rule_set app) st' res,
         inline_linear fuel st rules = Done (st', res, false) ->
         st' = st
         /\ length res = length rules
         /\ (forall m r, nth_error rules m = Some r ->
               nth_error res m = Some r
               \/ nth_error res m = Some (rm_norm_vars r))
         /\ ((forall r, In r rules -> rm_norm_vars r = r) -> res = rules)).
Proof.
  split.
  - intros fuel st rules strat st' res. unfold do_eager_inlining.
    destruct (eager_rules fuel st rules strat 0 rules [] false)
      as [[[st1 res1] d1]| |] eqn:E1; simpl; try discriminate.
    intros E; inversion E; subst.
    apply eager_rules_idle in E1. destruct E1 as [_ H]. auto.
  - intros fuel st rules st' res. unfold inline_linear.
    destruct (linear_for fuel st (linear_init st rules)
                (Params.ref_get_bool (get_params (m_context st))
                   ":inline-linear-branch" false)
                0 (length rules) false)
      as [[[st1 lin1] d1]| |] eqn:E1; simpl; try discriminate.
    intros E; inversion E; subst. clear E.
    pose proof (linear_for_idle _ _ _ _ _ _ _ E1) as [_ Hst].
    apply linear_for_idle_acc in E1. destruct E1 as [L1 L2].
    assert (Ha : acc (linear_init st rules) = rules).
    { unfold linear_init.
      destruct (@add_rules_from_fields app host st rules
                  (mk_linear [] [] [] [] (repeat true (length rules))
                     (repeat true (length rules)) (repeat true (length rules))
                     rules) 0) as (Ha & _).
      exact Ha. }
    rewrite Ha in *.
    split; [now apply Hst|]. split; [exact L1|]. split.
    + intros m r Hm. now destruct (L2 m r Hm).
    + intros Hn. apply nth_error_ext_eq; [exact L1|].
      intros m x Hm. destruct (L2 m x Hm) as [_ [B|B]]; [exact B|].
      rewrite Hn in B; [exact B | eapply nth_error_In; eauto].
Qed.

(** ** The cycle breaker *)

Lemma forbid_strata_idle (comps : list stratum) :
  forall acc : inliner app * bool,
    snd (fold_left forbid_stratum comps acc) = false ->
    fold_left forbid_stratum comps acc = acc
    /\ forall s, In s comps -> snd s = [].
Proof.
  induction comps as [|s comps IH]; intros acc; simpl.
  { intros _. split; [reflexivity | intros s []]. }
  intros H. destruct (snd s) as [|x l] eqn:Es.
  - assert (Ea : forbid_stratum acc s = acc)
      by (unfold forbid_stratum; now rewrite Es).
    rewrite Ea in H |- *. destruct (IH acc H) as [H1 H2].
    split; [exact H1|].
    intros s0 [E0|Hin]; [subst s0; exact Es | now apply H2].
  - exfalso.
    assert (Ea : forbid_stratum acc s
                 = (set_forbidden_preds (fst acc)
                      (insert (fst s) (m_forbidden_preds (fst acc))), true))
      by (unfold forbid_stratum; now rewrite Es).
    rewrite Ea in H.
    destruct (@forbid_strata_result app (fst s) comps
                (set_forbidden_preds (fst acc)
                   (insert (fst s) (m_forbidden_preds (fst acc))), true))
      as [H1 _].
    rewrite H1 in H. discriminate.
Qed.

(** X25: the cycle breaker ends with single-predicate strata.  When the loop
    of [plan_inlining] that forbids one predicate of every cycle returns,
    no stratum of the candidate set it returns holds more than one
    predicate, and that candidate set is the one it was given, with the
    state untouched, or the set of rules that are admissible in the state
    it returns. *)
Theorem break_cycles_acyclic (orig : rule_set app) (fuel : nat) :
  forall (st : inliner app) c st' c',
    break_cycles fuel st orig c = Done (st', c') ->
    (forall s, In s (get_strats (snd c')) -> snd s = [])
    /\ ((st' = st /\ c' = c) \/ create_allowed_rule_set st' orig = Done c').
Proof.
  induction fuel as [|fuel IH]; intros st c st' c'; simpl; [discriminate|].
  destruct (forbid_preds_from_cycles st (snd c)) as [st1 forbidden] eqn:Ef.
  destruct forbidden.
  - destruct (create_allowed_rule_set st1 orig) as [c1| |] eqn:Ec; simpl;
      try discriminate.
    intros E. destruct (IH _ _ _ _ E) as [H1 [[-> ->]|H2]].
    + split; [exact H1|]. right. exact Ec.
    + split; [exact H1|]. right. exact H2.
  - intros E; inversion E; subst.
    unfold forbid_preds_from_cycles in Ef.
    destruct (forbid_strata_idle (get_strats (snd c')) (st, false)) as [H1 H2].
    { now rewrite Ef. }
    rewrite Ef in H1. inversion H1; subst.
    split; [exact H2|]. left. auto.
Qed.

(** ** The tail a resolvent is built from *)

Lemma apply_tail_from_all (u : ready_unifier) (is_tgt : bool)
    (ts : list (app * bool)) :
  forall j,
    apply_tail_from u is_tgt None j ts
    = map (fun x => (apply_app u (fst x) is_tgt, snd x)) ts.
Proof.
  induction ts as [|[a neg] ts IH]; intros j; simpl; [reflexivity|].
  now rewrite IH.
Qed.

Lemma apply_tail_from_past (u : ready_unifier) (is_tgt : bool) (i : nat)
    (ts : list (app * bool)) :
  forall j, i < j ->
    apply_tail_from u is_tgt (Some i) j ts
    = map (fun x => (apply_app u (fst x) is_tgt, snd x)) ts.
Proof.
  induction ts as [|[a neg] ts IH]; intros j Hj; simpl; [reflexivity|].
  destruct (Nat.eqb_spec j i) as [->|_]; [lia|].
  rewrite IH by lia. reflexivity.
Qed.

Lemma apply_tail_from_skip (u : ready_unifier) (is_tgt : bool) (i : nat)
    (ts : list (app * bool)) :
  forall j, j <= i ->
    apply_tail_from u is_tgt (Some i) j ts
    = map (fun x => (apply_app u (fst x) is_tgt, snd x))
        (firstn (i - j) ts ++ skipn (S (i - j)) ts).
Proof.
  induction ts as [|[a neg] ts IH]; intros j Hj.
  - simpl. now rewrite firstn_nil.
  - simpl apply_tail_from. destruct (Nat.eqb_spec j i) as [->|Hne].
    + rewrite Nat.sub_diag. simpl. apply apply_tail_from_past. lia.
    + replace (i - j) with (S (i - S j)) by lia.
      rewrite IH by lia. reflexivity.
Qed.

(** X26: what [rule_unifier::apply] does to the tail of a rule.  The
    substitution is applied atom by atom; the atoms keep their order and
    their polarity, and exactly the atom at [skipped_index] is left out,
    none when the index is [UINT_MAX] or lies beyond the tail; skipping an
    atom of the tail makes the result one atom shorter than the tail. *)
Theorem apply_tail_shape (u : ready_unifier) (r : rule app) (is_tgt : bool) :
  apply_tail u r is_tgt None
  = map (fun x => (apply_app u (fst x) is_tgt, snd x)) (tail_with_neg r)
  /\ (forall i,
         apply_tail u r is_tgt (Some i)
         = map (fun x => (apply_app u (fst x) is_tgt, snd x))
             (firstn i (tail_with_neg r) ++ skipn (S i) (tail_with_neg r)))
  /\ (forall i, get_tail_size r <= i ->
         apply_tail u r is_tgt (Some i) = apply_tail u r is_tgt None)
  /\ (forall i, i < get_tail_size r ->
         length (apply_tail u r is_tgt (Some i)) + 1 = get_tail_size r).
Proof.
  assert (Hlen : length (tail_with_neg r) = get_tail_size r).
  { unfold tail_with_neg, get_tail_size. rewrite !length_app, !length_map. lia. }
  assert (Hskip : forall i,
             apply_tail u r is_tgt (Some i)
             = map (fun x => (apply_app u (fst x) is_tgt, snd x))
                 (firstn i (tail_with_neg r) ++ skipn (S i) (tail_with_neg r))).
  { intros i. unfold apply_tail.
    rewrite apply_tail_from_skip by lia. now rewrite Nat.sub_0_r. }
  split; [apply apply_tail_from_all|]. split; [exact Hskip|]. split.
  - intros i Hi. rewrite Hskip. unfold apply_tail.
    rewrite apply_tail_from_all.
    rewrite firstn_all2 by lia. rewrite skipn_all2 by lia.
    now rewrite app_nil_r.
  - intros i Hi. rewrite Hskip.
    rewrite length_map, length_app, length_firstn, length_skipn. lia.
Qed.

(** ** The linear inliner without branching *)


Lemma linear_round_break_valid (st : inliner app) (lin : linear app)
    (allow_branching : bool) (i : nat) st' lin' :
  linear_round_at st lin allow_branching i = LBreak st' lin' ->
  valid lin' = valid lin.
Proof.
  unfold linear_round_at.
  destruct (nth_error (acc lin) i) as [r|]; [|intros E; now inversion E].
  destruct (negb (get_flag (valid lin) i)); [intros E; now inversion E|].
  destruct (negb (get_flag (can_expand lin) i)); [intros E; now inversion E|].
  destruct (get_tail r 0) as [t0|]; [|intros E; now inversion E].
  destruct (unifiers (m_head_index lin) (head_positions lin) t0)
    as [|j [|j1 l]]; try (intros E; now inversion E).
  destruct (negb (get_flag (can_remove lin) j)
            || negb (get_flag (valid lin) j) || (i =? j));
    [intros E; now inversion E|].
  destruct (nth_error (acc lin) j) as [r2|]; [|intros E; now inversion E].
  destruct (negb allow_branching
            && negb (length (unifiers (m_tail_index lin) (tail_positions lin)
                               (get_head r2)) =? 1));
    [intros E; now inversion E|].
  destruct (try_to_inline_rule st r r2 0) as [[st1 r'] [res|]].
  - destruct (length (unifiers (m_tail_index lin) (tail_positions lin)
                        (get_head r2)) =? 1); discriminate.
  - intros E; inversion E; subst. reflexivity.
Qed.



Lemma add_rules_from_valid (st : inliner app) (rs : list (rule app)) :
  forall (lin : linear app) (i : nat),
    valid (add_rules_from st lin i rs) = valid lin.
Proof.
  induction rs as [|r rs IH]; intros lin i; simpl; [reflexivity|].
  rewrite IH. apply add_rule_valid.
Qed.



(** ** The multiplier guard on the rules that stay *)

Lemma filter_length_le {A : Type} (f g : A -> bool) (l : list A) :
  (forall x, f x = true -> g x = true) ->
  length (filter f l) <= length (filter g l).
Proof.
  intros H. induction l as [|x l IH]; simpl; [lia|].
  destruct (f x) eqn:Ef.
  - rewrite (H x Ef). simpl. lia.
  - destruct (g x); simpl; lia.
Qed.

Lemma is_multiplier_forbid (st : inliner app) (p : func_decl) (a : app) :
  is_multiplier (set_forbidden_preds st (insert p (m_forbidden_preds st))) a
  = is_multiplier st a && negb (decl_eqb (app_decl a) p).
Proof.
  unfold is_multiplier, inlining_allowed. simpl. rewrite contains_insert.
  destruct (is_output_predicate (m_context st) (app_decl a)),
    (contains (m_preds_with_facts st) (app_decl a)),
    (contains (m_preds_with_neg_occurrence st) (app_decl a)),
    (contains (m_forbidden_preds st) (app_decl a)),
    (decl_eqb (app_decl a) p); simpl; try reflexivity;
    now rewrite ?andb_false_r, ?andb_true_r.
Qed.

Lemma multiplier_orig_tails_bound (tails : list app) :
  forall (prefix : list app) (st : inliner app) (flag sf : bool),
    length (filter (is_multiplier st) prefix) <= (if flag then 1 else 0) ->
    let '(st', flag', _) :=
      fold_left multiplier_orig_tail tails (st, flag, sf) in
    length (filter (is_multiplier st') (prefix ++ tails))
    <= (if flag' then 1 else 0).
Proof.
  induction tails as [|a tails IH]; intros prefix st flag sf Hp.
  - simpl. now rewrite app_nil_r.
  - simpl fold_left.
    replace (prefix ++ a :: tails) with ((prefix ++ [a]) ++ tails)
      by (rewrite <- app_assoc; reflexivity).
    assert (Hm : is_multiplier st a
                 = negb (negb (inlining_allowed st (app_decl a)))
                   && negb (ctr_get (m_head_pred_ctr st) (app_decl a) <=? 1)%N).
    { unfold is_multiplier. rewrite negb_involutive. f_equal.
      rewrite N.ltb_antisym. reflexivity. }
    unfold multiplier_orig_tail.
    destruct (negb (inlining_allowed st (app_decl a))) eqn:Ea.
    { apply IH. rewrite filter_app, length_app. simpl. rewrite Hm. simpl. lia. }
    destruct (ctr_get (m_head_pred_ctr st) (app_decl a) <=? 1)%N eqn:Ec.
    { apply IH. rewrite filter_app, length_app. simpl. rewrite Hm. simpl. lia. }
    simpl in Hm. destruct flag.
    + apply IH. rewrite filter_app, length_app. simpl.
      rewrite is_multiplier_forbid, decl_eqb_refl, andb_false_r. simpl.
      pose proof (@filter_length_le app
                    (is_multiplier
                       (set_forbidden_preds st
                          (insert (app_decl a) (m_forbidden_preds st))))
                    (is_multiplier st) prefix) as Hle.
      assert (Hx : forall x,
                 is_multiplier
                   (set_forbidden_preds st
                      (insert (app_decl a) (m_forbidden_preds st))) x = true ->
                 is_multiplier st x = true).
      { intros x. rewrite is_multiplier_forbid.
        intros H. apply andb_true_iff in H. tauto. }
      specialize (Hle Hx). lia.
    + apply IH. rewrite filter_app, length_app. simpl. rewrite Hm. simpl. lia.
Qed.

(** X28: what the multiplier guard leaves in a rule that stays.  After the
    scan of a rule whose head predicate is not admissible, at most one of
    its positive tail atoms has an admissible predicate with more than one
    rule: the predicate of every further such atom has been forbidden. *)
Theorem multiplier_orig_rule_bound (acc : inliner app * bool) (r : rule app) :
  inlining_allowed (fst acc) (get_decl r) = false ->
  length (filter (is_multiplier (fst (multiplier_orig_rule acc r))) (pos_tail r))
  <= 1.
Proof.
  intros Ha. unfold multiplier_orig_rule. rewrite Ha.
  pose proof (multiplier_orig_tails_bound (pos_tail r) [] (fst acc) false
                (snd acc) (Nat.le_refl 0)) as Hb.
  destruct (fold_left multiplier_orig_tail (pos_tail r) (fst acc, false, snd acc))
    as [[st' flag'] sf']. simpl in *.
  destruct flag'; lia.
Qed.

(** ** What [transform_rule] returns *)

Lemma transform_rule_loop_modified (fuel : nat) :
  forall (st : inliner app) tgt todo st' tgt' m',
    transform_rule_loop fuel st tgt todo true = Done (st', tgt', m') ->
    m' = true.
Proof.
  induction fuel as [|fuel IH]; intros st tgt todo st' tgt' m';
    destruct todo as [|r todo]; simpl; try discriminate.
  - intros E; now inversion E.
  - intros E; now inversion E.
  - destruct (has_quantifier r); [apply IH|].
    destruct (first_allowed_from st 0 (pos_tail r)) as [[i pred]|].
    + destruct (inline_pred_rules st r i
                  (get_predicate_rules (m_inlined_rules st) pred) todo)
        as [[st1 r1] todo1]. apply IH.
    + destruct (target_add st tgt r) as [st1 tgt1]. apply IH.
Qed.

(** X30: the answer of [transform_rule].  When [transform_rule] returns, it
    returns true exactly when the rule it was given has no quantifier in its
    interpreted tail and has a positive tail atom with an admissible
    predicate; a rule it drops for its quantifier and a rule it copies to
    the target both make it return false. *)
Theorem transform_rule_modified (fuel : nat) (st : inliner app) (r0 : rule app)
    (tgt : target app) st' tgt' modified :
  transform_rule fuel st r0 tgt = Done (st', tgt', modified) ->
  (modified = true
   <-> has_quantifier r0 = false
       /\ exists i pred, first_allowed_from st 0 (pos_tail r0) = Some (i, pred)).
Proof.
  unfold transform_rule. destruct fuel as [|fuel]; simpl; [discriminate|].
  destruct (has_quantifier r0) eqn:Hq.
  - rewrite transform_rule_loop_done_nil. intros E; inversion E; subst.
    split; [discriminate | intros [H _]; discriminate].
  - destruct (first_allowed_from st 0 (pos_tail r0)) as [[i pred]|] eqn:Ef.
    + destruct (inline_pred_rules st r0 i
                  (get_predicate_rules (m_inlined_rules st) pred) [])
        as [[st1 r1] todo1].
      intros E. apply transform_rule_loop_modified in E. subst.
      split; [|reflexivity]. intros _. split; [reflexivity|]. now exists i, pred.
    + destruct (target_add st tgt r0) as [st1 tgt1].
      rewrite transform_rule_loop_done_nil. intros E; inversion E; subst.
      split; [discriminate|]. intros [_ (i & pred & H)]. discriminate.
Qed.

End Stages.

(** ** The rounds of the linear inliner and its output *)

Section LinearRounds.

Context {app : Type} {host : Host app} {laws : HostLaws host}.

Lemma erase_In_other (j m : nat) (v : list nat) :
  In m v -> m <> j -> In m (erase j v).
Proof.
  induction v as [|x v IH]; simpl; [tauto|].
  intros [->|H] Hne.
  - destruct (Nat.eqb_spec m j); [contradiction | now left].
  - destruct (x =? j); [exact H | right; auto].
Qed.

Lemma find_del_position_other (tp : positions app) (e a : app) (j m : nat) :
  In m (find_positions tp a) -> m <> j ->
  In m (find_positions (del_position tp e j) a).
Proof.
  induction tp as [|[x v] tp IH]; simpl; [tauto|].
  intros H Hne. destruct (app_eqb e x); simpl.
  - destruct (app_eqb a x); [now apply erase_In_other | exact H].
  - destruct (app_eqb a x); [exact H | now apply IH].
Qed.

Lemma fold_del_position_other (tails : list app) (j m : nat) (a : app) :
  forall tp : positions app,
    In m (find_positions tp a) -> m <> j ->
    In m (find_positions
            (fold_left (fun p tail => del_position p tail j) tails tp) a).
Proof.
  induction tails as [|t tails IH]; intros tp H Hne; simpl; [exact H|].
  apply IH; [now apply find_del_position_other | exact Hne].
Qed.

Lemma del_rule_indexed (lin : linear app) (r r0 : rule app) (j m : nat) :
  tail_indexed lin m r0 -> m <> j -> tail_indexed (del_rule lin r j) m r0.
Proof.
  intros H Hne a Ha. destruct (H a Ha) as [H1 H2]. unfold del_rule; simpl.
  split; [exact H1 | now apply fold_del_position_other].
Qed.

Lemma add_rule_indexed_other (st : inliner app) (lin : linear app)
    (r r0 : rule app) (i m : nat) :
  tail_indexed lin m r0 -> tail_indexed (add_rule st lin r i) m r0.
Proof.
  intros H a Ha. destruct (H a Ha) as [H1 H2].
  destruct (@add_rule_indexed_mono app host st lin r i a m H2 H1) as [H3 H4].
  auto.
Qed.

Lemma add_rule_indexed_same (st : inliner app) (lin : linear app)
    (r : rule app) (i : nat) :
  tail_indexed (add_rule st lin r i) i r.
Proof.
  intros a Ha.
  destruct (@add_rule_indexed app host laws st lin r i a) as [H1 H2]; [|auto].
  unfold uninterpreted_tail. apply in_or_app. exact Ha.
Qed.


Lemma tails_covered_mono (i i' : nat) (lin : linear app) :
  i <= i' -> tails_covered i lin -> tails_covered i' lin.
Proof.
  intros Hle H m r Hm Hv. destruct (H m r Hm Hv) as (r0 & H1 & [H2|[H2 H3]]).
  - exists r0. auto.
  - exists r0. split; [exact H1|]. right. split; [lia | exact H3].
Qed.

Lemma get_flag_set_nth_other (v : list bool) (j m : nat) (b : bool) :
  m <> j -> get_flag (set_nth j b v) m = get_flag v m.
Proof. intros H. unfold get_flag. apply set_nth_other. auto. Qed.

Lemma get_flag_set_nth_same (v : list bool) (j : nat) (b : bool) :
  j < length v -> get_flag (set_nth j b v) j = b.
Proof. intros H. unfold get_flag. now apply set_nth_same. Qed.

(** a round keeps the index in step with the valid rules *)
Lemma linear_round_covered (st : inliner app) (lin : linear app)
    (allow_branching : bool) (i : nat) :
  tails_covered i lin ->
  match linear_round_at st lin allow_branching i with
  | LBreak _ lin' => tails_covered (S i) lin'
  | LInlined _ lin' _ _ => tails_covered i lin'
  end.
Proof.
  intros H.
  assert (Hw : tails_covered (S i) lin)
    by (eapply tails_covered_mono; [|exact H]; lia).
  unfold linear_round_at.
  destruct (nth_error (acc lin) i) as [r|] eqn:Er; [|exact Hw].
  destruct (get_flag (valid lin) i) eqn:Evi; simpl; [|exact Hw].
  destruct (get_flag (can_expand lin) i); simpl; [|exact Hw].
  destruct (get_tail r 0) as [t0|]; [|exact Hw].
  destruct (unifiers (m_head_index lin) (head_positions lin) t0)
    as [|j [|j1 l]]; try exact Hw.
  destruct (get_flag (can_remove lin) j); simpl; [|exact Hw].
  destruct (get_flag (valid lin) j) eqn:Evj; simpl; [|exact Hw].
  destruct (Nat.eqb_spec i j) as [Eij|Eij]; [exact Hw|].
  destruct (nth_error (acc lin) j) as [r2|] eqn:Er2; [|exact Hw].
  destruct (negb allow_branching
            && negb (length (unifiers (m_tail_index lin) (tail_positions lin)
                               (get_head r2)) =? 1)); [exact Hw|].
  pose proof (try_to_inline_rule_tgt st r r2 0) as Ht.
  destruct (try_to_inline_rule st r r2 0) as [[st1 r'] [res|]]; simpl in Ht;
    subst r'.
  2:{ intros m x Hm Hv. simpl in Hm, Hv.
      destruct (Nat.eq_dec m i) as [->|Hne].
      - rewrite (nth_error_set_nth_same _ _ _ Er) in Hm.
        injection Hm as <-.
        destruct (H i r Er Evi) as (r0 & H1 & [H2|[H2 _]]); [|lia].
        exists r0. split; [exact H1|]. right. split; [lia | now subst].
      - rewrite nth_error_set_nth_other in Hm by exact Hne.
        destruct (Hw m x Hm Hv) as (r0 & H1 & H2). exists r0. auto. }
  set (lin1 := set_acc lin (set_nth i (rm_norm_vars r) (acc lin))).
  set (lin3 := add_rule st1 (del_rule lin1 (rm_norm_vars r) i) res i).
  assert (TI : forall m r0, tail_indexed lin m r0 -> m <> i ->
                            tail_indexed lin3 m r0).
  { intros m r0 Hi Hne. unfold lin3. apply add_rule_indexed_other.
    apply del_rule_indexed; [exact Hi | exact Hne]. }
  assert (TS : tail_indexed lin3 i res) by apply add_rule_indexed_same.
  assert (Ea : acc lin3 = set_nth i (rm_norm_vars r) (acc lin))
    by (unfold lin3; now rewrite add_rule_acc).
  assert (Ev : valid lin3 = valid lin)
    by (unfold lin3; now rewrite add_rule_valid).
  assert (Hrule : forall m x,
             nth_error (set_nth i res (acc lin3)) m = Some x ->
             get_flag (valid lin) m = true ->
             exists r0, tail_indexed lin3 m r0
                        /\ (x = r0 \/ (m < i /\ x = rm_norm_vars r0))).
  { intros m x Hm Hv. rewrite Ea in Hm.
    destruct (Nat.eq_dec m i) as [->|Hne].
    - rewrite (@nth_error_set_nth_same _ i res (rm_norm_vars r)) in Hm
        by (eapply nth_error_set_nth_same; eauto).
      injection Hm as <-. exists res. auto.
    - rewrite !nth_error_set_nth_other in Hm by exact Hne.
      destruct (H m x Hm Hv) as (r0 & H1 & H2). exists r0. auto. }
  destruct (length (unifiers (m_tail_index lin) (tail_positions lin)
                      (get_head r2)) =? 1).
  - intros m x Hm Hv. simpl in Hm, Hv. fold lin1 lin3 in Hm, Hv.
    rewrite Ev in Hv.
    assert (Hmj : m <> j).
    { intros ->. rewrite get_flag_set_nth_same in Hv; [discriminate|].
      now apply get_flag_true_lt. }
    rewrite get_flag_set_nth_other in Hv by exact Hmj.
    destruct (Hrule m x Hm Hv) as (r0 & H1 & H2). exists r0.
    split; [|exact H2].
    apply del_rule_indexed; [|exact Hmj]. exact H1.
  - intros m x Hm Hv. simpl in Hm, Hv. fold lin1 lin3 in Hm, Hv.
    rewrite Ev in Hv.
    destruct (Hrule m x Hm Hv) as (r0 & H1 & H2). exists r0.
    split; [exact H1 | exact H2].
Qed.


Lemma linear_while_flag (allow_branching : bool) (i : nat) (fuel : nat) :
  forall (st : inliner app) (lin : linear app) d1 d2 st' lin' d',
    linear_while fuel st lin allow_branching i d1 = Done (st', lin', d') ->
    exists d'', linear_while fuel st lin allow_branching i d2
                = Done (st', lin', d'').
Proof.
  induction fuel as [|fuel IH]; intros st lin d1 d2 st' lin' d'; simpl;
    [discriminate|].
  destruct (linear_round_at st lin allow_branching i) as [s l|s l j k].
  - intros E; inversion E; subst. now exists d2.
  - intros E. exact (IH _ _ _ _ _ _ _ E).
Qed.

(** every round of the [while] loop that inlines starts with the index in
    step, and the loop leaves it so *)
Lemma while_steps_covered (allow_branching : bool) (i : nat) (fuel : nat) :
  forall (st : inliner app) (lin : linear app),
    tails_covered i lin ->
    (forall s, In s (while_steps fuel st lin allow_branching i) ->
       tails_covered (ls_i s) (ls_lin s)
       /\ exists st1 lin1,
            linear_round_at (ls_st s) (ls_lin s) allow_branching (ls_i s)
            = LInlined st1 lin1 (ls_j s) (ls_k s))
    /\ (forall d st' lin' d',
          linear_while fuel st lin allow_branching i d = Done (st', lin', d') ->
          tails_covered (S i) lin').
Proof.
  induction fuel as [|fuel IH]; intros st lin Hc; simpl.
  { split; [intros s [] | discriminate]. }
  pose proof (@linear_round_covered st lin allow_branching i Hc) as Hr.
  destruct (linear_round_at st lin allow_branching i) as [s0 l0|s0 l0 j k]
    eqn:Er.
  - split; [intros s [] |]. intros d st' lin' d' E. inversion E; subst.
    exact Hr.
  - destruct (IH s0 l0 Hr) as [I1 I2]. split.
    + intros s [<-|Hs]; [|now apply I1]. simpl. split; [exact Hc|].
      now exists s0, l0.
    + intros d st' lin' d' E. exact (I2 _ _ _ _ E).
Qed.

Lemma for_steps_covered (allow_branching : bool) (fuel : nat) (n : nat) :
  forall (i : nat) (st : inliner app) (lin : linear app),
    tails_covered i lin ->
    forall s, In s (for_steps fuel st lin allow_branching i n) ->
      tails_covered (ls_i s) (ls_lin s)
      /\ exists st1 lin1,
           linear_round_at (ls_st s) (ls_lin s) allow_branching (ls_i s)
           = LInlined st1 lin1 (ls_j s) (ls_k s).
Proof.
  induction n as [|n IH]; intros i st lin Hc s; simpl; [intros []|].
  destruct (@while_steps_covered allow_branching i fuel st lin Hc) as [W1 W2].
  intros Hs. apply in_app_or in Hs. destruct Hs as [Hs|Hs]; [now apply W1|].
  destruct (linear_while fuel st lin allow_branching i false)
    as [[[st1 lin1] d1]| |] eqn:E1; try contradiction.
  apply (IH (S i) st1 lin1); [|exact Hs]. exact (W2 _ _ _ _ E1).
Qed.

Lemma linear_init_covered (st : inliner app) (rules : rule_set app) :
  tails_covered 0 (linear_init st rules).
Proof.
  intros m r Hm Hv. exists r. split; [|now left].
  assert (Ha : acc (linear_init st rules) = rules).
  { unfold linear_init.
    destruct (@add_rules_from_fields app host st rules
                (mk_linear [] [] [] [] (repeat true (length rules))
                   (repeat true (length rules)) (repeat true (length rules))
                   rules) 0) as (Ha & _).
    exact Ha. }
  rewrite Ha in Hm. intros a Ha'. unfold linear_init.
  destruct (@add_rules_from_indexed app host laws st rules
              (mk_linear [] [] [] [] (repeat true (length rules))
                 (repeat true (length rules)) (repeat true (length rules)) rules)
              0 m r a Hm) as [H1 H2]; [|auto].
  unfold uninterpreted_tail. apply in_or_app. exact Ha'.
Qed.

(** [valid] goes from true to false only, and only by a round that inlines
    with one tail unifier *)
Lemma while_steps_valid (allow_branching : bool) (i : nat) (fuel : nat) :
  forall (st : inliner app) (lin : linear app) d st' lin' d',
    linear_while fuel st lin allow_branching i d = Done (st', lin', d') ->
    (d' = true <-> d = true \/ while_steps fuel st lin allow_branching i <> [])
    /\ forall m,
         get_flag (valid lin') m = false <->
         get_flag (valid lin) m = false
         \/ exists s, In s (while_steps fuel st lin allow_branching i)
                      /\ ls_j s = m /\ ls_k s = 1.
Proof.
  induction fuel as [|fuel IH]; intros st lin d st' lin' d'; simpl;
    [discriminate|].
  destruct (linear_round_at st lin allow_branching i) as [s0 l0|s0 l0 j k]
    eqn:Er.
  - intros E; inversion E; subst. apply linear_round_break_valid in Er.
    rewrite Er. split.
    + split; [auto|]. intros [H|H]; [exact H | contradiction].
    + intros m. split; [auto|]. intros [H|(s & [] & _)]. exact H.
  - intros E. destruct (IH _ _ _ _ _ _ E) as [F V]. clear IH.
    apply linear_round_inlined in Er.
    destruct Er as (r & t0 & r2 & _ & _ & _ & _ & _ & _ & Hv & _ & _ & Hl).
    pose proof (get_flag_true_lt _ _ Hv) as Hlt.
    split.
    + split; [intros _; right; discriminate|]. intros _. apply F. now left.
    + intros m. rewrite V. clear V. split.
      * intros [H|(s & Hs & H1 & H2)].
        -- rewrite Hl in H. destruct (Nat.eqb_spec k 1) as [Ek|Ek].
           ++ destruct (Nat.eq_dec m j) as [->|Hne].
              ** right. eexists. split; [left; reflexivity|]. simpl. auto.
              ** rewrite get_flag_set_nth_other in H by exact Hne. now left.
           ++ now left.
        -- right. exists s. split; [now right | auto].
      * intros [H|(s & [<-|Hs] & H1 & H2)].
        -- left. rewrite Hl. destruct (k =? 1); [|exact H].
           now apply get_flag_set_nth_false.
        -- simpl in H1, H2. subst m k. left. rewrite Hl. simpl.
           now apply get_flag_set_nth_same.
        -- right. exists s. auto.
Qed.

Lemma for_steps_valid (allow_branching : bool) (fuel : nat) (n : nat) :
  forall (i : nat) (st : inliner app) (lin : linear app) d st' lin' d',
    linear_for fuel st lin allow_branching i n d = Done (st', lin', d') ->
    (d' = true <-> d = true \/ for_steps fuel st lin allow_branching i n <> [])
    /\ forall m,
         get_flag (valid lin') m = false <->
         get_flag (valid lin) m = false
         \/ exists s, In s (for_steps fuel st lin allow_branching i n)
                      /\ ls_j s = m /\ ls_k s = 1.
Proof.
  induction n as [|n IH]; intros i st lin d st' lin' d'; simpl.
  - intros E; inversion E; subst. split.
    + split; [auto|]. intros [H|H]; [exact H | contradiction].
    + intros m. split; [auto|]. intros [H|(s & [] & _)]. exact H.
  - destruct (linear_while fuel st lin allow_branching i d)
      as [[[st1 lin1] d1]| |] eqn:E1; simpl; try discriminate.
    destruct (@linear_while_flag allow_branching i fuel st lin d false
                st1 lin1 d1 E1) as [d0 E0].
    rewrite E0. intros E. destruct (IH _ _ _ _ _ _ _ E) as [F V]. clear IH.
    destruct (@while_steps_valid allow_branching i fuel st lin d st1 lin1 d1 E1)
      as [F1 V1].
    split.
    + rewrite F, F1. split.
      * intros [[H|H]|H]; [now left | right | right].
        -- intros Hn. apply app_eq_nil in Hn. destruct Hn. contradiction.
        -- intros Hn. apply app_eq_nil in Hn. destruct Hn. contradiction.
      * intros [H|H]; [left; now left|].
        destruct (while_steps fuel st lin allow_branching i) as [|x l] eqn:Ew.
        -- right. exact H.
        -- left. right. discriminate.
    + intros m. rewrite V, V1. split.
      * intros [[H|(s & Hs & H1)]|(s & Hs & H1)]; [now left| |].
        -- right. exists s. split; [apply in_or_app; now left | exact H1].
        -- right. exists s. split; [apply in_or_app; now right | exact H1].
      * intros [H|(s & Hs & H1)]; [left; now left|].
        apply in_app_or in Hs. destruct Hs as [Hs|Hs].
        -- left. right. exists s. auto.
        -- right. exists s. auto.
Qed.


(** C10: the tail index the linear inliner builds holds every uninterpreted
    tail atom of every rule, negated ones included, under the position of the
    rule, so in the index [inline_linear] starts with a negated atom that
    unifies with the head of a callee is among the tail unifiers counted in
    [k].  A round that inlines the callee [j] leaves [valid[j]] false exactly
    when [k] is 1 and touches no other entry of [valid].  The index stays so
    through the run: in every round of [inline_linear] that inlines, [k] is
    the number of tail unifiers of the head of the callee, and every valid
    position whose rule, as [add_rule] indexed it, has a tail atom, negated
    or not, that unifies with that head is among them ([acc] holds the rule
    as it was indexed, or, at a position before [i], that rule renumbered by
    a [try_to_inline_rule] that failed).  [valid] is never set back: when
    [inline_linear] returns, [valid[j]] is false exactly for the callees of
    the rounds with [k = 1]; having inlined something, the output holds the
    rules [acc[m]] with [valid[m]] true, in order, so it holds no rule for a
    position consumed in such a round. *)
Theorem linear_tail_index_counts_negated :
  (forall (st : inliner app) (lin : linear app) (r : rule app) (i : nat) (a : app),
      In a (pos_tail r) \/ In a (neg_tail r) ->
      In i (find_positions (tail_positions (add_rule st lin r i)) a)
      /\ In a (m_tail_index (add_rule st lin r i)))
  /\ (forall (st : inliner app) (rules : rule_set app) (j : nat) (r : rule app)
             (a h : app),
         nth_error rules j = Some r ->
         In a (neg_tail r) -> index_unify a h = true ->
         In j (unifiers (m_tail_index (linear_init st rules))
                 (tail_positions (linear_init st rules)) h))
  /\ (forall (st : inliner app) (lin : linear app) (allow_branching : bool)
             (i : nat) st' lin' j k,
         linear_round_at st lin allow_branching i = LInlined st' lin' j k ->
         (exists r2,
             nth_error (acc lin) j = Some r2
             /\ k = length (unifiers (m_tail_index lin) (tail_positions lin)
                              (get_head r2)))
         /\ get_flag (valid lin) j = true
         /\ (get_flag (valid lin') j = false <-> k = 1)
         /\ (forall m, m <> j -> get_flag (valid lin') m = get_flag (valid lin) m))
  /\ (forall fuel (st : inliner app) (rules : rule_set app) s,
         In s (linear_steps fuel st rules) ->
         exists st1 lin1 r2,
           linear_round_at (ls_st s) (ls_lin s)
             (Params.ref_get_bool (get_params (m_context st))
                ":inline-linear-branch" false) (ls_i s)
           = LInlined st1 lin1 (ls_j s) (ls_k s)
           /\ nth_error (acc (ls_lin s)) (ls_j s) = Some r2
           /\ ls_k s = length (unifiers (m_tail_index (ls_lin s))
                                 (tail_positions (ls_lin s)) (get_head r2))
           /\ (forall m r,
                 nth_error (acc (ls_lin s)) m = Some r ->
                 get_flag (valid (ls_lin s)) m = true ->
                 exists r0,
                   (r = r0 \/ (m < ls_i s /\ r = rm_norm_vars r0))
                   /\ forall a,
                        In a (pos_tail r0) \/ In a (neg_tail r0) ->
                        index_unify a (get_head r2) = true ->
                        In m (unifiers (m_tail_index (ls_lin s))
                                (tail_positions (ls_lin s)) (get_head r2)))
           /\ get_flag (valid (ls_lin s)) (ls_j s) = true
           /\ (get_flag (valid lin1) (ls_j s) = false <-> ls_k s = 1))
  /\ (forall fuel (st : inliner app) (rules : rule_set app) st' out done,
         inline_linear fuel st rules = Done (st', out, done) ->
         (done = true <-> linear_steps fuel st rules <> [])
         /\ exists lin',
              linear_for fuel st (linear_init st rules)
                (Params.ref_get_bool (get_params (m_context st))
                   ":inline-linear-branch" false) 0 (length rules) false
              = Done (st', lin', done)
              /\ length (acc lin') = length rules
              /\ (forall j, j < length rules ->
                    (get_flag (valid lin') j = false
                     <-> exists s, In s (linear_steps fuel st rules)
                                   /\ ls_j s = j /\ ls_k s = 1))
              /\ out = (if done then valid_rules (valid lin') (acc lin')
                        else acc lin')
              /\ (done = true ->
                  forall r,
                    In r out <->
                    exists m, nth_error (acc lin') m = Some r
                              /\ ~ exists s, In s (linear_steps fuel st rules)
                                             /\ ls_j s = m /\ ls_k s = 1))
  /\ (forall (v : list bool) (a : list (rule app)) (r : rule app),
         In r (valid_rules v a) <->
         exists m, nth_error a m = Some r /\ get_flag v m = true).
Proof.
  split; [|split; [|split; [|split; [|split]]]]; [| | | | |apply valid_rules_In].
  - intros st lin r i a Ha. apply add_rule_indexed.
    unfold uninterpreted_tail. apply in_or_app. exact Ha.
  - intros st rules j r a h Hj Ha Hu. apply unifiers_In.
    unfold linear_init.
    destruct (@add_rules_from_indexed app host laws st rules
                (mk_linear [] [] [] [] (repeat true (length rules))
                   (repeat true (length rules)) (repeat true (length rules)) rules)
                0 j r a Hj) as [H1 H2].
    { unfold uninterpreted_tail. apply in_or_app. now right. }
    exists a. auto.
  - intros st lin b i st' lin' j k E.
    apply linear_round_inlined in E.
    destruct E as (r & t0 & r2 & Hr & Ht & Hu & Hr2 & Hk & Hcr & Hv & Hij & Hb & Hval).
    split; [exists r2; auto|]. split; [exact Hv|].
    pose proof (get_flag_true_lt _ _ Hv) as Hlt.
    unfold get_flag in *. rewrite Hval.
    destruct (Nat.eqb_spec k 1) as [Ek|Ek].
    + split.
      * split; auto. intros _. now apply set_nth_same.
      * intros m Hm. apply set_nth_other. auto.
    + split; [|reflexivity].
      split; [intros H; congruence | intros H; contradiction].
  - intros fuel st rules s Hs. unfold linear_steps in Hs.
    destruct (@for_steps_covered _ fuel (length rules) 0 st
                (linear_init st rules) (linear_init_covered st rules) s Hs)
      as (Hc & st1 & lin1 & Er).
    exists st1, lin1. pose proof Er as Er'. apply linear_round_inlined in Er'.
    destruct Er' as (r & t0 & r2 & Hr & Ht & Hu & Hr2 & Hk & Hcr & Hv & Hij
                     & Hb & Hval).
    exists r2. split; [exact Er|]. split; [exact Hr2|]. split; [exact Hk|].
    split; [|split; [exact Hv|]].
    + intros m x Hm Hvm. destruct (Hc m x Hm Hvm) as (r0 & Hi & Hx).
      exists r0. split; [exact Hx|].
      intros a Ha Hun. apply unifiers_In. exists a.
      destruct (Hi a Ha) as [H1 H2]. auto.
    + pose proof (get_flag_true_lt _ _ Hv) as Hlt. rewrite Hval.
      destruct (Nat.eqb_spec (ls_k s) 1) as [Ek|Ek].
      * split; [auto|]. intros _. now apply get_flag_set_nth_same.
      * split; [intros H; congruence | intros H; contradiction].
  - intros fuel st rules st' out done. unfold inline_linear, linear_steps.
    destruct (linear_for fuel st (linear_init st rules)
                (Params.ref_get_bool (get_params (m_context st))
                   ":inline-linear-branch" false) 0 (length rules) false)
      as [[[st1 lin1] d1]| |] eqn:E1; simpl; try discriminate.
    intros E. injection E as E2 E3 E4. subst st1 d1.
    destruct (for_steps_valid _ _ _ _ _ _ _ E1) as [F V].
    pose proof (@linear_for_bounded app host (length rules) _ fuel
                  (length rules) 0 _ _ _ _ _ _ (le_n _)
                  (linear_init_bounded st rules) E1) as (Ha & Hlv & _).
    assert (Hinit : forall j, j < length rules ->
                      get_flag (valid (linear_init st rules)) j = true).
    { intros j Hj. unfold linear_init. rewrite add_rules_from_valid. simpl.
      now apply get_flag_repeat_true. }
    assert (Hj : forall j, j < length rules ->
              (get_flag (valid lin1) j = false
               <-> exists s,
                     In s (for_steps fuel st (linear_init st rules)
                             (Params.ref_get_bool (get_params (m_context st))
                                ":inline-linear-branch" false)
                             0 (length rules))
                     /\ ls_j s = j /\ ls_k s = 1)).
    { intros j Hlt. rewrite V. split; [|auto].
      intros [H|H]; [|exact H]. rewrite (Hinit j Hlt) in H. discriminate. }
    split.
    + rewrite F. split; [intros [H|H]; [discriminate | exact H] | auto].
    + exists lin1. split; [reflexivity|]. split; [exact Ha|].
      split; [exact Hj|]. split; [now subst out|].
      intros Hd. subst done. subst out. intros r. rewrite valid_rules_In.
      split.
      * intros (m & Hm & Hv). exists m. split; [exact Hm|].
        intros Hs. assert (Hlt : m < length rules).
        { rewrite <- Ha. apply nth_error_Some. congruence. }
        apply (Hj m Hlt) in Hs. congruence.
      * intros (m & Hm & Hn). exists m. split; [exact Hm|].
        assert (Hlt : m < length rules).
        { rewrite <- Ha. apply nth_error_Some. congruence. }
        destruct (get_flag (valid lin1) m) eqn:Ev; [reflexivity|].
        exfalso. apply Hn. now apply (Hj m Hlt).
Qed.

End LinearRounds.

(** ** The null result of the pass *)

Section NullResult.

Context {app : Type} {host : Host app}.

(** *** Bulk inlining with nothing to resolve *)





(** *** The eager inliner with nothing to do *)





(** *** The linear inliner with nothing to do *)





End NullResult.

(** ** The head predicates of the bulk result *)

Section BulkHeads.

Context {app : Type} {host : Host app} {laws : HostLaws host}.

Lemma inline_pred_rules_heads (d : func_decl) (i : nat) (l : rule_set app) :
  forall (st : inliner app) (r : rule app) (todo : list (rule app)) st' r' todo',
    get_decl r = d ->
    (forall x, In x todo -> get_decl x = d) ->
    inline_pred_rules st r i l todo = (st', r', todo') ->
    forall x, In x todo' -> get_decl x = d.
Proof.
  induction l as [|c l IH]; intros st r todo st' r' todo' Hr Ht; simpl.
  - intros E; inversion E; subst. exact Ht.
  - destruct (try_to_inline_rule st r c i) as [[st1 r1] o] eqn:Et.
    apply try_to_inline_rule_head in Et. destruct Et as (H1 & _ & H3).
    apply IH; [congruence|].
    destruct o as [res|]; [|exact Ht].
    intros x [<-|Hx]; [congruence | now apply Ht].
Qed.

Lemma transform_rule_loop_heads (d : func_decl) (fuel : nat) :
  forall (st : inliner app) tgt todo m st' tgt' m',
    (forall x, In x todo -> get_decl x = d) ->
    transform_rule_loop fuel st tgt todo m = Done (st', tgt', m') ->
    forall x, In x (target_rules st' tgt') ->
      In x (target_rules st tgt) \/ get_decl x = d.
Proof.
  induction fuel as [|fuel IH]; intros st tgt todo m st' tgt' m' Ht;
    destruct todo as [|r todo]; simpl; try discriminate.
  - intros E; inversion E; subst. auto.
  - intros E; inversion E; subst. auto.
  - assert (Hr : get_decl r = d) by (apply Ht; now left).
    assert (Ht' : forall x, In x todo -> get_decl x = d)
      by (intros x Hx; apply Ht; now right).
    destruct (has_quantifier r); [now apply IH|].
    destruct (first_allowed_from st 0 (pos_tail r)) as [[i pred]|].
    + pose proof (inline_pred_rules_inlined_rules i
                    (get_predicate_rules (m_inlined_rules st) pred) st r todo) as H2.
      destruct (inline_pred_rules st r i
                  (get_predicate_rules (m_inlined_rules st) pred) todo)
        as [[st1 r1] todo1] eqn:Ei. simpl in H2.
      pose proof (@inline_pred_rules_heads d i _ _ _ _ _ _ _ Hr Ht' Ei) as Ht1.
      intros E x Hx.
      destruct (IH _ _ _ _ _ _ _ Ht1 E x Hx) as [Hin|Hd]; [left | now right].
      destruct tgt; simpl in *; [now rewrite <- H2 | exact Hin].
    + pose proof (target_add_rules st tgt r) as H2.
      destruct (target_add st tgt r) as [st1 tgt1]. simpl in H2.
      intros E x Hx.
      destruct (IH _ _ _ _ _ _ _ Ht' E x Hx) as [Hin|Hd]; [|now right].
      rewrite H2 in Hin. apply in_app_or in Hin.
      destruct Hin as [Hin|[<-|[]]]; [now left | now right].
Qed.

(** X29: bulk inlining brings in no head predicate and keeps no admissible
    one.  Every rule [transform_rules] adds to its target has the head
    predicate of a rule of the rule set whose head predicate is not
    admissible for inlining: the rules of admissible predicates are left
    out, and resolving a rule keeps its head predicate. *)
Theorem transform_rules_heads (fuel : nat) (orig : rule_set app) :
  forall (st : inliner app) (tgt : rule_set app) (something_done : bool)
         st' tgt' done',
    transform_rules fuel st orig tgt something_done = Done (st', tgt', done') ->
    forall x, In x tgt' ->
      In x tgt
      \/ exists r, In r orig
                   /\ inlining_allowed st (get_decl r) = false
                   /\ get_decl x = get_decl r.
Proof.
  induction orig as [|r orig IH]; intros st tgt sd st' tgt' d'; simpl.
  - intros E; inversion E; subst. auto.
  - destruct (inlining_allowed st (get_decl r)) eqn:Ea.
    + intros E x Hx. destruct (IH _ _ _ _ _ _ E x Hx) as [Hin|(r0 & H1 & H2 & H3)];
        [now left|]. right. exists r0. auto.
    + unfold transform_rule.
      destruct (transform_rule_loop fuel st (ToRuleSet tgt) [r] false)
        as [[[st1 tgt1] m1]| |] eqn:E1; simpl; try discriminate.
      intros E x Hx.
      pose proof (transform_rule_loop_plan_eq _ _ _ _ _ E1) as He.
      destruct (IH _ _ _ _ _ _ E x Hx) as [Hin|(r0 & H1 & H2 & H3)].
      * assert (Ht : forall y, In y [r] -> get_decl y = get_decl r)
          by (intros y [<-|[]]; reflexivity).
        destruct (@transform_rule_loop_heads (get_decl r) fuel _ _ _ _ _ _ _
                    Ht E1 x Hin) as [Hin'|Hd].
        -- now left.
        -- right. exists r. auto.
      * right. exists r0. repeat split; auto.
        now rewrite <- (plan_eq_allowed (get_decl r0) He).
Qed.

End BulkHeads.

(** * Parameters *)

Module ParamStoreFacts.

Import ParamStore.

(** ** Entries *)

Lemma kind_eqb_eq (a b : param_kind) : kind_eqb a b = true <-> a = b.
Proof. destruct a, b; simpl; split; congruence. Qed.

Lemma kind_eqb_refl (a : param_kind) : kind_eqb a a = true.
Proof. now destruct a. Qed.

Lemma kind_eqb_neq (a b : param_kind) : kind_eqb a b = false <-> a <> b.
Proof. destruct a, b; simpl; split; congruence. Qed.

Lemma get_value_set_value (es : entries) (k : symbol) (v : value) :
  get_value (set_value es k v) k (m_kind v) = Some v.
Proof.
  induction es as [|[k' old] es IH]; simpl.
  - now rewrite String.eqb_refl, kind_eqb_refl.
  - destruct (String.eqb k' k) eqn:E; simpl.
    + now rewrite E, kind_eqb_refl.
    + rewrite E. exact IH.
Qed.

Lemma get_rat_set_numeral (es : entries) (k : symbol) (q d : QArith_base.Q) :
  get_rat (set_value es k (VNumeral q)) k d = q.
Proof.
  induction es as [|[k' old] es IH]; simpl.
  - now rewrite String.eqb_refl.
  - destruct (String.eqb k' k) eqn:E; simpl; rewrite E; [reflexivity | exact IH].
Qed.

Lemma get_rat_set_uint (es : entries) (k : symbol) (n : N) (d : QArith_base.Q) :
  get_rat (set_value es k (VUint n)) k d = QArith_base.inject_Z (to_int n).
Proof.
  induction es as [|[k' old] es IH]; simpl.
  - now rewrite String.eqb_refl.
  - destruct (String.eqb k' k) eqn:E; simpl; rewrite E; [reflexivity | exact IH].
Qed.

(** X10: a value that is set is the value that is read.  For every kind of
    parameter, the getter of the kind returns what the setter of the kind
    stored under the key, whatever entries the object held before and
    whatever the default. *)
Theorem set_then_get (es : entries) (k : symbol) :
  (forall (v d : bool), get_bool (set_bool es k v) k d = v)
  /\ (forall (v d : N), get_uint (set_uint es k v) k d = v)
  /\ (forall (v d : N), get_double (set_double es k v) k d = v)
  /\ (forall (v d : string), get_str (set_str es k v) k d = v)
  /\ (forall (v d : symbol), get_sym (set_sym es k v) k d = v)
  /\ (forall (v d : QArith_base.Q), get_rat (set_rat es k v) k d = v)
  /\ (forall (v d : nat), get_expr (set_expr es k v) k d = v)
  /\ (forall (v d : nat), get_func_decl (set_func_decl es k v) k d = v)
  /\ (forall (v d : nat), get_sort (set_sort es k v) k d = v).
Proof.
  repeat split; intros v d.
  - unfold get_bool, set_bool.
    pose proof (get_value_set_value es k (VBool v)) as H. simpl in H.
    now rewrite H.
  - unfold get_uint, set_uint.
    pose proof (get_value_set_value es k (VUint v)) as H. simpl in H.
    now rewrite H.
  - unfold get_double, set_double.
    pose proof (get_value_set_value es k (VDouble v)) as H. simpl in H.
    now rewrite H.
  - unfold get_str, set_str.
    pose proof (get_value_set_value es k (VString v)) as H. simpl in H.
    now rewrite H.
  - unfold get_sym, set_sym.
    pose proof (get_value_set_value es k (VSymbol v)) as H. simpl in H.
    now rewrite H.
  - apply get_rat_set_numeral.
  - unfold get_expr, set_expr.
    pose proof (get_value_set_value es k (VExpr v)) as H. simpl in H.
    now rewrite H.
  - unfold get_func_decl, set_func_decl.
    pose proof (get_value_set_value es k (VFuncDecl v)) as H. simpl in H.
    now rewrite H.
  - unfold get_sort, set_sort.
    pose proof (get_value_set_value es k (VSort v)) as H. simpl in H.
    now rewrite H.
Qed.

Lemma get_value_set_other (es : entries) (k k' : symbol) (v : value)
    (kind : param_kind) :
  k' <> k -> get_value (set_value es k v) k' kind = get_value es k' kind.
Proof.
  intros Hn. apply String.eqb_neq in Hn.
  induction es as [|[k0 old] es IH]; simpl.
  - rewrite String.eqb_sym, Hn. reflexivity.
  - destruct (String.eqb k0 k) eqn:E; simpl.
    + apply String.eqb_eq in E. subst k0.
      rewrite String.eqb_sym, Hn. reflexivity.
    + now rewrite IH.
Qed.

Lemma get_rat_set_other (es : entries) (k k' : symbol) (v : value)
    (d : QArith_base.Q) :
  k' <> k -> get_rat (set_value es k v) k' d = get_rat es k' d.
Proof.
  intros Hn. apply String.eqb_neq in Hn.
  induction es as [|[k0 old] es IH]; simpl.
  - rewrite String.eqb_sym, Hn. reflexivity.
  - destruct (String.eqb k0 k) eqn:E; simpl.
    + apply String.eqb_eq in E. subst k0.
      rewrite String.eqb_sym, Hn. reflexivity.
    + now rewrite IH.
Qed.

Lemma contains_set_value (es : entries) (k k' : symbol) (v : value) :
  contains (set_value es k v) k' = String.eqb k k' || contains es k'.
Proof.
  induction es as [|[k0 old] es IH]; simpl.
  - destruct (String.eqb k k'); reflexivity.
  - destruct (String.eqb k0 k) eqn:E; simpl.
    + apply String.eqb_eq in E. subst k0.
      destruct (String.eqb k k'); reflexivity.
    + rewrite IH. destruct (String.eqb k0 k'), (String.eqb k k'); reflexivity.
Qed.

(** X11: setting a parameter leaves the others alone.  After a setter has
    run for the key [k], the object holds [k], and for every other key what
    [GET_VALUE] finds for any kind, what [get_rat] returns and whether the
    object contains the key are as before. *)
Theorem set_leaves_other_keys (es : entries) (k k' : symbol) (v : value) :
  k' <> k ->
  contains (set_value es k v) k = true
  /\ contains (set_value es k v) k' = contains es k'
  /\ (forall kind, get_value (set_value es k v) k' kind = get_value es k' kind)
  /\ (forall d, get_rat (set_value es k v) k' d = get_rat es k' d).
Proof.
  intros Hn. split; [|split; [|split]].
  - rewrite contains_set_value, String.eqb_refl. reflexivity.
  - rewrite contains_set_value.
    assert (E : String.eqb k k' = false)
      by (apply String.eqb_neq; congruence).
    now rewrite E.
  - intros kind. now apply get_value_set_other.
  - intros d. now apply get_rat_set_other.
Qed.

Lemma set_leaves_other_keys_witness :
  k_timeout <> k_models
  /\ contains (set_value timeout_entries k_models (VBool true)) k_models = true
  /\ contains (set_value timeout_entries k_models (VBool true)) k_timeout
     = contains timeout_entries k_timeout
  /\ (forall kind,
         get_value (set_value timeout_entries k_models (VBool true)) k_timeout kind
         = get_value timeout_entries k_timeout kind)
  /\ (forall d,
         get_rat (set_value timeout_entries k_models (VBool true)) k_timeout d
         = get_rat timeout_entries k_timeout d).
Proof.
  assert (Hn : k_timeout <> k_models) by (intros E; discriminate E).
  split; [exact Hn|].
  exact (@set_leaves_other_keys timeout_entries k_models k_timeout
           (VBool true) Hn).
Defined.

(** ** One entry for a key *)

Lemma entries_contains_In (es : entries) (k : symbol) :
  contains es k = true <-> In k (map fst es).
Proof.
  induction es as [|[k' v] es IH]; simpl; [split; [discriminate | tauto]|].
  destruct (String.eqb k' k) eqn:E.
  - apply String.eqb_eq in E. tauto.
  - apply String.eqb_neq in E. rewrite IH. split; [tauto|].
    intros [H|H]; [contradiction | exact H].
Qed.

Lemma entries_contains_false (es : entries) (k : symbol) :
  contains es k = false <-> ~ In k (map fst es).
Proof.
  rewrite <- entries_contains_In. destruct (contains es k); split; congruence.
Qed.

Lemma get_value_absent (es : entries) (k : symbol) (kind : param_kind) :
  contains es k = false -> get_value es k kind = None.
Proof.
  induction es as [|[k' v] es IH]; simpl; [reflexivity|].
  destruct (String.eqb k' k); [discriminate|]. exact IH.
Qed.

Lemma get_rat_absent (es : entries) (k : symbol) (d : QArith_base.Q) :
  contains es k = false -> get_rat es k d = d.
Proof.
  induction es as [|[k' v] es IH]; simpl; [reflexivity|].
  destruct (String.eqb k' k); [discriminate|]. exact IH.
Qed.

Lemma set_value_keys (es : entries) (k : symbol) (v : value) :
  map fst (set_value es k v)
  = if contains es k then map fst es else map fst es ++ [k].
Proof.
  induction es as [|[k' old] es IH]; simpl; [reflexivity|].
  destruct (String.eqb k' k) eqn:E; simpl; [reflexivity|].
  rewrite IH. destruct (contains es k); reflexivity.
Qed.

Lemma set_value_NoDup (es : entries) (k : symbol) (v : value) :
  NoDup (map fst es) -> NoDup (map fst (set_value es k v)).
Proof.
  intros Hn. rewrite set_value_keys.
  destruct (contains es k) eqn:E; [exact Hn|].
  apply entries_contains_false in E.
  apply NoDup_app; [exact Hn | repeat constructor; intros [] |].
  intros x Hx [<-|[]]. contradiction.
Qed.

Lemma get_value_other_kind (es : entries) (k : symbol) (v : value)
    (kind : param_kind) :
  NoDup (map fst es) -> kind <> m_kind v ->
  get_value (set_value es k v) k kind = None.
Proof.
  intros Hn Hk.
  assert (Ek : kind_eqb (m_kind v) kind = false)
    by (apply kind_eqb_neq; congruence).
  induction es as [|[k' old] es IH]; simpl.
  - now rewrite Ek, andb_false_r.
  - simpl in Hn. apply NoDup_cons_iff in Hn. destruct Hn as [Hx Hn].
    destruct (String.eqb k' k) eqn:E; simpl; rewrite E.
    + rewrite Ek. simpl. apply String.eqb_eq in E. subst k'.
      apply get_value_absent. now apply entries_contains_false.
    + simpl. now apply IH.
Qed.

(** X12: a key has one entry and one kind.  The setters keep the keys of
    the entries distinct, and after a setter has run for a key the key holds
    a value of the kind of that setter only: [GET_VALUE] finds nothing under
    the key for any other kind, so the getter of another kind returns its
    default. *)
Theorem one_kind_per_key (es : entries) (k : symbol) (v : value) :
  NoDup (map fst es) ->
  NoDup (map fst (set_value es k v))
  /\ (forall kind, kind <> m_kind v -> get_value (set_value es k v) k kind = None)
  /\ (forall b d, get_uint (set_bool es k b) k d = d)
  /\ (forall n d, get_bool (set_uint es k n) k d = d).
Proof.
  intros Hn. split; [now apply set_value_NoDup|].
  split; [intros kind Hk; now apply get_value_other_kind|].
  split.
  - intros b d. unfold get_uint, set_bool.
    rewrite get_value_other_kind; [reflexivity | exact Hn | discriminate].
  - intros n d. unfold get_bool, set_uint.
    rewrite get_value_other_kind; [reflexivity | exact Hn | discriminate].
Qed.

Lemma timeout_entries_NoDup : NoDup (map fst timeout_entries).
Proof. repeat constructor. intros []. Defined.

Lemma one_kind_per_key_witness :
  NoDup (map fst timeout_entries)
  /\ NoDup (map fst (set_value timeout_entries k_timeout (VBool true)))
  /\ (forall kind, kind <> m_kind (VBool true) ->
        get_value (set_value timeout_entries k_timeout (VBool true))
          k_timeout kind = None)
  /\ (forall b d, get_uint (set_bool timeout_entries k_timeout b) k_timeout d = d)
  /\ (forall n d, get_bool (set_uint timeout_entries k_timeout n) k_timeout d = d).
Proof.
  split; [exact timeout_entries_NoDup|].
  exact (@one_kind_per_key timeout_entries k_timeout (VBool true)
           timeout_entries_NoDup).
Defined.

(** ** Removing a key *)

Lemma reset_key_absent (es : entries) (k : symbol) :
  contains es k = false -> reset_key es k = es.
Proof.
  induction es as [|[k' v] es IH]; simpl; [reflexivity|].
  destruct (String.eqb k' k); [discriminate|]. intros H. now rewrite IH.
Qed.

Lemma reset_key_length (es : entries) (k : symbol) :
  contains es k = true -> length (reset_key es k) + 1 = length es.
Proof.
  induction es as [|[k' v] es IH]; simpl; [discriminate|].
  destruct (String.eqb k' k); simpl; [lia|]. intros H. rewrite IH; auto.
Qed.

Lemma reset_key_keys_incl (es : entries) (k x : symbol) :
  In x (map fst (reset_key es k)) -> In x (map fst es).
Proof.
  induction es as [|[k' v] es IH]; simpl; [tauto|].
  destruct (String.eqb k' k); simpl; [tauto|].
  intros [H|H]; [now left | right; now apply IH].
Qed.

Lemma reset_key_NoDup (es : entries) (k : symbol) :
  NoDup (map fst es) -> NoDup (map fst (reset_key es k)).
Proof.
  induction es as [|[k' v] es IH]; simpl; intros Hn; [exact Hn|].
  apply NoDup_cons_iff in Hn. destruct Hn as [Hx Hn].
  destruct (String.eqb k' k); simpl; [exact Hn|].
  constructor; [|now apply IH].
  intros H. apply Hx. now apply reset_key_keys_incl in H.
Qed.

Lemma reset_key_gone (es : entries) (k : symbol) :
  NoDup (map fst es) -> contains (reset_key es k) k = false.
Proof.
  induction es as [|[k' v] es IH]; simpl; intros Hn; [reflexivity|].
  apply NoDup_cons_iff in Hn. destruct Hn as [Hx Hn].
  destruct (String.eqb k' k) eqn:E; simpl.
  - apply String.eqb_eq in E. subst k'. now apply entries_contains_false.
  - rewrite E. now apply IH.
Qed.

Lemma reset_key_other (es : entries) (k k' : symbol) :
  k' <> k ->
  contains (reset_key es k) k' = contains es k'
  /\ (forall kind, get_value (reset_key es k) k' kind = get_value es k' kind)
  /\ (forall d, get_rat (reset_key es k) k' d = get_rat es k' d).
Proof.
  intros Hn. induction es as [|[k0 v] es IH]; simpl; [auto|].
  destruct IH as (I1 & I2 & I3).
  destruct (String.eqb k0 k) eqn:E; simpl.
  - apply String.eqb_eq in E. subst k0.
    assert (E' : String.eqb k k' = false)
      by (apply String.eqb_neq; congruence).
    rewrite E'. simpl. auto.
  - rewrite I1. repeat split; auto.
    + intros kind. now rewrite I2.
    + intros d. now rewrite I3.
Qed.

(** X13: [reset(k)] removes the parameter [k] and nothing else.  The first
    entry with the key goes: the object has one entry less when it contained
    the key and is unchanged when it did not, every other key keeps its
    entry, and, the keys being distinct, the object no longer contains [k]
    and the keys stay distinct. *)
Theorem reset_key_removes (es : entries) (k : symbol) :
  NoDup (map fst es) ->
  contains (reset_key es k) k = false
  /\ NoDup (map fst (reset_key es k))
  /\ (contains es k = true -> length (reset_key es k) + 1 = length es)
  /\ (contains es k = false -> reset_key es k = es)
  /\ (forall k', k' <> k ->
        contains (reset_key es k) k' = contains es k'
        /\ (forall kind, get_value (reset_key es k) k' kind = get_value es k' kind)
        /\ (forall d, get_rat (reset_key es k) k' d = get_rat es k' d)).
Proof.
  intros Hn. split; [now apply reset_key_gone|].
  split; [now apply reset_key_NoDup|].
  split; [apply reset_key_length|].
  split; [apply reset_key_absent|].
  intros k' Hk. now apply reset_key_other.
Qed.

Lemma reset_key_removes_witness :
  NoDup (map fst timeout_entries)
  /\ contains (reset_key timeout_entries k_timeout) k_timeout = false
  /\ NoDup (map fst (reset_key timeout_entries k_timeout))
  /\ (contains timeout_entries k_timeout = true ->
      length (reset_key timeout_entries k_timeout) + 1 = length timeout_entries)
  /\ (contains timeout_entries k_timeout = false ->
      reset_key timeout_entries k_timeout = timeout_entries)
  /\ (forall k', k' <> k_timeout ->
        contains (reset_key timeout_entries k_timeout) k'
        = contains timeout_entries k'
        /\ (forall kind,
               get_value (reset_key timeout_entries k_timeout) k' kind
               = get_value timeout_entries k' kind)
        /\ (forall d,
               get_rat (reset_key timeout_entries k_timeout) k' d
               = get_rat timeout_entries k' d)).
Proof.
  split; [exact timeout_entries_NoDup|].
  exact (@reset_key_removes timeout_entries k_timeout timeout_entries_NoDup).
Defined.

(** ** Numerals *)

(** X14: [get_rat] reads an unsigned parameter as a signed integer.  After
    [set_uint] has stored [n] under a key, [get_rat] returns the integer
    [n] when [n] is below 2^31 and the negative integer [n - 2^32] when [n]
    is a 32-bit value from 2^31 on. *)
Theorem get_rat_of_uint (es : entries) (k : symbol) (n : N)
    (d : QArith_base.Q) :
  ((n < 2147483648)%N ->
   get_rat (set_uint es k n) k d = QArith_base.inject_Z (Z.of_N n))
  /\ ((2147483648 <= n < 4294967296)%N ->
      get_rat (set_uint es k n) k d
      = QArith_base.inject_Z (Z.of_N n - 4294967296)
      /\ (Z.of_N n - 4294967296 < 0)%Z).
Proof.
  unfold set_uint. rewrite get_rat_set_uint. unfold to_int. split.
  - intros Hn. apply N.ltb_lt in Hn. now rewrite Hn.
  - intros [H1 H2]. apply N.ltb_ge in H1. rewrite H1. split; [reflexivity|lia].
Qed.

(** ** Validation *)

Lemma m_kind_valid (v : value) : m_kind v <> CPK_INVALID.
Proof. destruct v; discriminate. Qed.

(** X15: [validate] accepts the entries exactly when every entry has a
    description of its own kind.  Otherwise it reports the first entry at
    fault, and only that one: the key [k] is reported as unknown exactly
    when the entries split into entries that all have a description of their
    own kind, an entry of [k] and the rest, and [k] has no description; it
    is reported as a kind mismatch exactly when they split so and [k] is
    described with another kind than the one of that entry. *)
Theorem validate_spec (es : entries) (p : param_descrs) :
  (validate es p = Valid
   <-> forall k v, In (k, v) es -> get_kind p k = m_kind v)
  /\ (forall k, validate es p = UnknownParameter k
        <-> exists pre v post,
              es = pre ++ (k, v) :: post
              /\ (forall k' v', In (k', v') pre -> get_kind p k' = m_kind v')
              /\ get_kind p k = CPK_INVALID)
  /\ (forall k, validate es p = KindMismatch k
        <-> exists pre v post,
              es = pre ++ (k, v) :: post
              /\ (forall k' v', In (k', v') pre -> get_kind p k' = m_kind v')
              /\ get_kind p k <> CPK_INVALID
              /\ get_kind p k <> m_kind v).
Proof.
  induction es as [|[k0 v0] es (I1 & I2 & I3)]; simpl.
  - split; [split; [intros _ k v [] | reflexivity]|].
    split; intros k; (split; [intros E; discriminate E|]);
      intros ([|x pre] & v & post & E & _); discriminate E.
  - destruct (kind_eqb (get_kind p k0) CPK_INVALID) eqn:Ei.
    { apply kind_eqb_eq in Ei. split; [|split].
      - split; [discriminate|]. intros H.
        specialize (H k0 v0 (or_introl eq_refl)).
        rewrite Ei in H. symmetry in H. now apply m_kind_valid in H.
      - intros k. split.
        + intros E. injection E as E. subst k. exists [], v0, es. simpl.
          repeat split; auto. intros k' v' [].
        + intros ([|[k1 v1] pre] & v & post & E & Hpre & Hk); simpl in E;
            injection E as E1 E2 E3; [now subst k|]. subst k1 v1.
          specialize (Hpre k0 v0 (or_introl eq_refl)).
          rewrite Ei in Hpre. symmetry in Hpre. now apply m_kind_valid in Hpre.
      - intros k. split; [intros E; discriminate E|].
        intros ([|[k1 v1] pre] & v & post & E & Hpre & Hk & Hm); simpl in E;
          injection E as E1 E2 E3; [subst k; contradiction|]. subst k1 v1.
        specialize (Hpre k0 v0 (or_introl eq_refl)).
        rewrite Ei in Hpre. symmetry in Hpre. now apply m_kind_valid in Hpre. }
    apply kind_eqb_neq in Ei.
    destruct (kind_eqb (m_kind v0) (get_kind p k0)) eqn:Em; simpl.
    + apply kind_eqb_eq in Em. split; [|split].
      * rewrite I1. split.
        -- intros H k v [E|Hin]; [inversion E; subst; now symmetry | now apply H].
        -- intros H k v Hin. apply H. now right.
      * intros k. rewrite I2. split.
        -- intros (pre & v & post & E & Hpre & Hk).
           exists ((k0, v0) :: pre), v, post. subst es. simpl.
           split; [reflexivity|]. split; [|exact Hk].
           intros k' v' [E|Hin]; [inversion E; subst; now symmetry | eauto].
        -- intros ([|[k1 v1] pre] & v & post & E & Hpre & Hk); simpl in E;
             injection E as E1 E2 E3; [subst k; contradiction|]. subst k1 v1.
           exists pre, v, post. split; [exact E3|]. split; [|exact Hk].
           intros k' v' Hin. apply Hpre. now right.
      * intros k. rewrite I3. split.
        -- intros (pre & v & post & E & Hpre & Hk & Hm).
           exists ((k0, v0) :: pre), v, post. subst es. simpl.
           split; [reflexivity|]. split; [|auto].
           intros k' v' [E|Hin]; [inversion E; subst; now symmetry | eauto].
        -- intros ([|[k1 v1] pre] & v & post & E & Hpre & Hk & Hm); simpl in E;
             injection E as E1 E2 E3; [subst k v; congruence|]. subst k1 v1.
           exists pre, v, post. split; [exact E3|]. split; [|auto].
           intros k' v' Hin. apply Hpre. now right.
    + apply kind_eqb_neq in Em. split; [|split].
      * split; [discriminate|]. intros H.
        specialize (H k0 v0 (or_introl eq_refl)). congruence.
      * intros k. split; [intros E; discriminate E|].
        intros ([|[k1 v1] pre] & v & post & E & Hpre & Hk); simpl in E;
          injection E as E1 E2 E3; [subst k; contradiction|]. subst k1 v1.
        specialize (Hpre k0 v0 (or_introl eq_refl)). congruence.
      * intros k. split.
        -- intros E. injection E as E. subst k. exists [], v0, es. simpl.
           repeat split; auto. intros k' v' [].
        -- intros ([|[k1 v1] pre] & v & post & E & Hpre & Hk & Hm); simpl in E;
             injection E as E1 E2 E3; [now subst k|]. subst k1 v1.
           specialize (Hpre k0 v0 (or_introl eq_refl)). congruence.
Qed.

(** ** Descriptions *)

Lemma find_app (d : list (symbol * info)) (n n' : symbol) (i : info) :
  find (d ++ [(n, i)]) n'
  = match find d n' with
    | Some x => Some x
    | None => if String.eqb n n' then Some i else None
    end.
Proof.
  induction d as [|[m x] d IH]; simpl; [reflexivity|].
  destruct (String.eqb m n'); [reflexivity | exact IH].
Qed.

(** X16: the first description of a name stays.  [insert] of a name that has
    a description changes nothing, whatever kind and text it is given;
    [insert] of a name without one gives it the kind and lists the name as
    the newest parameter; the other names keep their kind. *)
Theorem insert_first_wins (p : param_descrs) (name : symbol) (k : param_kind)
    (descr : string) :
  (forall i, find (m_info p) name = Some i -> insert p name k descr = p)
  /\ (find (m_info p) name = None ->
      get_kind (insert p name k descr) name = k
      /\ size (insert p name k descr) = size p + 1
      /\ get_param_name (insert p name k descr) (size p) = Some name)
  /\ (forall name', name' <> name ->
        get_kind (insert p name k descr) name' = get_kind p name').
Proof.
  unfold insert, get_kind, size, get_param_name. split; [|split].
  - intros i E. now rewrite E.
  - intros E. rewrite E. simpl. rewrite find_app, E, String.eqb_refl. simpl.
    rewrite length_app. simpl. split; [reflexivity|]. split; [reflexivity|].
    rewrite nth_error_app2 by lia. now rewrite Nat.sub_diag.
  - intros name' Hn. destruct (find (m_info p) name); [reflexivity|].
    simpl. rewrite find_app.
    assert (E : String.eqb name name' = false)
      by (apply String.eqb_neq; congruence).
    rewrite E. destruct (find (m_info p) name'); reflexivity.
Qed.

Lemma find_erased (d : list (symbol * info)) (n n' : symbol) :
  find (filter (fun e => negb (String.eqb (fst e) n)) d) n'
  = if String.eqb n n' then None else find d n'.
Proof.
  induction d as [|[m x] d IH]; simpl.
  - now destruct (String.eqb n n').
  - destruct (String.eqb m n) eqn:E; simpl.
    + apply String.eqb_eq in E. subst m. rewrite IH.
      destruct (String.eqb n n'); reflexivity.
    + rewrite IH. destruct (String.eqb m n') eqn:E'; [|reflexivity].
      apply String.eqb_eq in E'. subst m.
      rewrite String.eqb_sym, E. reflexivity.
Qed.

(** X17: [erase] forgets the description of a name and keeps the name in
    the list of parameter names.  After [erase] the name has no kind, the
    other names keep theirs, [size] and the names [get_param_name] returns
    are as before, and an [insert] of the erased name lists it once more. *)
Theorem erase_keeps_name (p : param_descrs) (name : symbol) :
  get_kind (erase p name) name = CPK_INVALID
  /\ (forall name', name' <> name ->
        get_kind (erase p name) name' = get_kind p name')
  /\ size (erase p name) = size p
  /\ (forall idx, get_param_name (erase p name) idx = get_param_name p idx)
  /\ (forall k descr,
        m_names (insert (erase p name) name k descr) = m_names p ++ [name]
        /\ get_kind (insert (erase p name) name k descr) name = k).
Proof.
  unfold get_kind, size, get_param_name, erase. simpl.
  split; [|split; [|split; [|split]]].
  - now rewrite find_erased, String.eqb_refl.
  - intros name' Hn. rewrite find_erased.
    assert (E : String.eqb name name' = false)
      by (apply String.eqb_neq; congruence).
    now rewrite E.
  - reflexivity.
  - reflexivity.
  - intros k descr. unfold insert. simpl.
    rewrite find_erased, String.eqb_refl. simpl.
    split; [reflexivity|].
    now rewrite find_app, find_erased, !String.eqb_refl.
Qed.

(** ** Objects and references *)

Lemma store_length (h : heap) (a : nat) (x : option params) :
  length (store h a x) = length h.
Proof.
  revert a. induction h as [|y h IH]; intros [|a]; simpl; auto.
Qed.

Lemma nth_error_store_same (h : heap) (a : nat) (x : option params) :
  a < length h -> nth_error (store h a x) a = Some x.
Proof.
  revert a. induction h as [|y h IH]; intros [|a]; simpl; intros Ha;
    try lia; auto; try (apply IH; lia).
Qed.

Lemma nth_error_store_other (h : heap) (a b : nat) (x : option params) :
  b <> a -> nth_error (store h a x) b = nth_error h b.
Proof.
  revert a b. induction h as [|y h IH]; intros [|a] [|b] Hn; simpl; auto;
    try lia; try (apply IH; lia).
Qed.

Lemma lookup_lt (h : heap) (a : nat) (o : params) :
  lookup h a = Some o -> a < length h.
Proof.
  unfold lookup. intros E. apply nth_error_Some.
  destruct (nth_error h a); [discriminate | discriminate].
Qed.

Lemma lookup_store_same (h : heap) (a : nat) (x : option params) :
  a < length h -> lookup (store h a x) a = x.
Proof.
  intros Ha. unfold lookup. rewrite nth_error_store_same by exact Ha.
  now destruct x.
Qed.

Lemma lookup_store_other (h : heap) (a b : nat) (x : option params) :
  b <> a -> lookup (store h a x) b = lookup h b.
Proof.
  intros Hn. unfold lookup. now rewrite nth_error_store_other.
Qed.

Lemma lookup_app_old (h l : heap) (a : nat) :
  a < length h -> lookup (h ++ l) a = lookup h a.
Proof. intros Ha. unfold lookup. now rewrite nth_error_app1. Qed.

Lemma lookup_app_new (h : heap) (x : option params) :
  lookup (h ++ [x]) (length h) = x.
Proof.
  unfold lookup. rewrite nth_error_app2 by lia. rewrite Nat.sub_diag. simpl.
  now destruct x.
Qed.

Lemma modify_length (h : heap) (a : nat) (f : params -> params) :
  length (modify h a f) = length h.
Proof.
  unfold modify. destruct (lookup h a); [apply store_length | reflexivity].
Qed.

Lemma modify_lookup_same (h : heap) (a : nat) (f : params -> params)
    (o : params) :
  lookup h a = Some o -> lookup (modify h a f) a = Some (f o).
Proof.
  intros E. unfold modify. rewrite E.
  apply lookup_store_same. eapply lookup_lt; eauto.
Qed.

Lemma modify_lookup_other (h : heap) (a b : nat) (f : params -> params) :
  b <> a -> lookup (modify h a f) b = lookup h b.
Proof.
  intros Hn. unfold modify. destruct (lookup h a); [|reflexivity].
  now apply lookup_store_other.
Qed.

Lemma wrap32_pred (c : N) :
  (1 <= c < 4294967296)%N -> wrap32 (c + 4294967295) = (c - 1)%N.
Proof.
  intros Hc. unfold wrap32.
  replace (c + 4294967295)%N with (c - 1 + 1 * 4294967296)%N by lia.
  rewrite N.Div0.mod_add. apply N.mod_small. lia.
Qed.

Lemma dec_ref_length (h : heap) (a : nat) : length (dec_ref h a) = length h.
Proof.
  unfold dec_ref. destruct (lookup h a) as [o|]; [|reflexivity].
  destruct (wrap32 (m_ref_count o + 4294967295) =? 0)%N; apply store_length.
Qed.

Lemma dec_ref_lookup_other (h : heap) (a b : nat) :
  b <> a -> lookup (dec_ref h a) b = lookup h b.
Proof.
  intros Hn. unfold dec_ref. destruct (lookup h a) as [o|]; [|reflexivity].
  destruct (wrap32 (m_ref_count o + 4294967295) =? 0)%N;
    now apply lookup_store_other.
Qed.

Lemma dec_ref_lookup_shared (h : heap) (a : nat) (o : params) :
  lookup h a = Some o -> (1 < m_ref_count o < 4294967296)%N ->
  lookup (dec_ref h a) a = Some (with_ref_count o (m_ref_count o - 1)).
Proof.
  intros E Hc. unfold dec_ref. rewrite E. rewrite wrap32_pred by lia.
  destruct (N.eqb_spec (m_ref_count o - 1) 0) as [H|H]; [lia|].
  apply lookup_store_same. eapply lookup_lt; eauto.
Qed.

Lemma dec_ref_lookup_last (h : heap) (a : nat) (o : params) :
  lookup h a = Some o -> m_ref_count o = 1%N -> lookup (dec_ref h a) a = None.
Proof.
  intros E Hc. unfold dec_ref. rewrite E, Hc. simpl.
  apply lookup_store_same. eapply lookup_lt; eauto.
Qed.

Lemma inc_ref_lookup_same (h : heap) (a : nat) (o : params) :
  lookup h a = Some o -> (m_ref_count o < 4294967295)%N ->
  lookup (inc_ref h a) a = Some (with_ref_count o (m_ref_count o + 1)).
Proof.
  intros E Hc. unfold inc_ref. rewrite (@modify_lookup_same h a _ o E).
  now rewrite wrap32_small by lia.
Qed.

Lemma copy_core_length (h : heap) (b : nat) (src : params_ref) :
  length (copy_core h b src) = length h.
Proof.
  unfold copy_core. destruct src as [s|]; [|reflexivity].
  destruct (lookup h s); [apply modify_length | reflexivity].
Qed.

Lemma copy_core_lookup_same (h : heap) (b s : nat) (so ob : params) :
  lookup h s = Some so -> lookup h b = Some ob ->
  lookup (copy_core h b (Some s)) b
  = Some (with_entries ob (fold_left copy_entry (m_entries so) (m_entries ob))).
Proof.
  intros Es Eb. unfold copy_core. rewrite Es.
  now rewrite (@modify_lookup_same h b _ ob Eb).
Qed.

Lemma copy_core_lookup_other (h : heap) (b c : nat) (src : params_ref) :
  c <> b -> lookup (copy_core h b src) c = lookup h c.
Proof.
  intros Hn. unfold copy_core. destruct src as [s|]; [|reflexivity].
  destruct (lookup h s); [now apply modify_lookup_other | reflexivity].
Qed.

(** *** Copying entries *)

Lemma copy_entry_set (es : entries) (e : entry) :
  copy_entry es e = set_value es (fst e) (snd e).
Proof. destruct e as [k v]. destruct v; reflexivity. Qed.

Lemma set_value_absent (es : entries) (k : symbol) (v : value) :
  contains es k = false -> set_value es k v = es ++ [(k, v)].
Proof.
  induction es as [|[k' old] es IH]; simpl; [reflexivity|].
  destruct (String.eqb k' k); [discriminate|]. intros H. now rewrite IH.
Qed.

Lemma copy_entries_fresh (src : entries) :
  NoDup (map fst src) ->
  forall acc : entries,
    (forall k, In k (map fst src) -> ~ In k (map fst acc)) ->
    fold_left copy_entry src acc = acc ++ src.
Proof.
  induction src as [|[k v] src IH]; intros Hn acc Hd; simpl.
  - now rewrite app_nil_r.
  - simpl in Hn. apply NoDup_cons_iff in Hn. destruct Hn as [Hx Hn].
    rewrite copy_entry_set. simpl.
    rewrite set_value_absent
      by (apply entries_contains_false; apply Hd; now left).
    rewrite IH; [now rewrite <- app_assoc | exact Hn |].
    intros k' Hk' Hin. rewrite map_app in Hin. apply in_app_or in Hin.
    destruct Hin as [Hin|[<-|[]]].
    + apply (Hd k'); [now right | exact Hin].
    + contradiction.
Qed.

Lemma copy_entries_NoDup (src : entries) :
  forall acc : entries,
    NoDup (map fst acc) -> NoDup (map fst (fold_left copy_entry src acc)).
Proof.
  induction src as [|e src IH]; intros acc Hn; simpl; [exact Hn|].
  apply IH. rewrite copy_entry_set. now apply set_value_NoDup.
Qed.

Lemma copy_entries_get (src : entries) :
  NoDup (map fst src) ->
  forall (acc : entries) (k : symbol) (kind : param_kind),
    NoDup (map fst acc) ->
    get_value (fold_left copy_entry src acc) k kind
    = if contains src k then get_value src k kind else get_value acc k kind.
Proof.
  induction src as [|[k0 v0] src IH]; intros Hn acc k kind Ha; simpl;
    [reflexivity|].
  simpl in Hn. apply NoDup_cons_iff in Hn. destruct Hn as [Hx Hn].
  rewrite copy_entry_set. simpl.
  rewrite IH by (try exact Hn; now apply set_value_NoDup).
  destruct (String.eqb k0 k) eqn:E; simpl.
  - apply String.eqb_eq in E. subst k0.
    assert (Hc : contains src k = false) by now apply entries_contains_false.
    rewrite Hc.
    destruct (kind_eqb (m_kind v0) kind) eqn:Ek.
    + apply kind_eqb_eq in Ek. subst kind. apply get_value_set_value.
    + apply kind_eqb_neq in Ek. rewrite (@get_value_absent src k kind Hc).
      apply get_value_other_kind; [exact Ha | congruence].
  - destruct (contains src k); [reflexivity|].
    apply get_value_set_other. apply String.eqb_neq in E. congruence.
Qed.

(** *** [init] *)

Lemma lookup_app_other (h : heap) (x : option params) (c : nat) :
  c <> length h -> lookup (h ++ [x]) c = lookup h c.
Proof.
  intros Hn. destruct (Nat.lt_ge_cases c (length h)) as [H|H].
  - now apply lookup_app_old.
  - unfold lookup.
    assert (E1 : nth_error (h ++ [x]) c = None)
      by (apply nth_error_None; rewrite length_app; simpl; lia).
    assert (E2 : nth_error h c = None) by (apply nth_error_None; lia).
    now rewrite E1, E2.
Qed.

Lemma init_shared (h : heap) (a : nat) (o : params) :
  lookup h a = Some o ->
  (1 < m_ref_count o < 4294967296)%N ->
  NoDup (map fst (m_entries o)) ->
  snd (init h (Some a)) = length h
  /\ lookup (fst (init h (Some a))) (length h)
     = Some (mk_params (m_manager o) (m_entries o) 1)
  /\ lookup (fst (init h (Some a))) a
     = Some (with_ref_count o (m_ref_count o - 1))
  /\ (forall c, c <> a -> c <> length h ->
        lookup (fst (init h (Some a))) c = lookup h c)
  /\ length (fst (init h (Some a))) = S (length h).
Proof.
  intros E Hc Hn. pose proof (@lookup_lt _ _ _ E) as Ha.
  assert (Hab : a <> length h) by lia.
  unfold init. rewrite E.
  assert (Hlt : (1 <? m_ref_count o)%N = true) by (apply N.ltb_lt; lia).
  rewrite Hlt. unfold alloc. cbv beta iota zeta. cbn [fst snd].
  set (b := length h).
  set (h1 := h ++ [Some (mk_params None [] 0)]).
  set (h2 := inc_ref h1 b).
  set (h3 := modify h2 b (fun n => with_manager n (m_manager o))).
  set (h4 := copy_core h3 b (Some a)).
  assert (L1b : lookup h1 b = Some (mk_params None [] 0))
    by apply lookup_app_new.
  assert (L1a : lookup h1 a = Some o)
    by (unfold h1; rewrite lookup_app_old by exact Ha; exact E).
  assert (L2b : lookup h2 b = Some (mk_params None [] 1))
    by (unfold h2, inc_ref; rewrite (@modify_lookup_same h1 b _ _ L1b);
        reflexivity).
  assert (L2a : lookup h2 a = Some o)
    by (unfold h2, inc_ref; rewrite modify_lookup_other by exact Hab;
        exact L1a).
  assert (L3b : lookup h3 b = Some (mk_params (m_manager o) [] 1))
    by (unfold h3; rewrite (@modify_lookup_same h2 b _ _ L2b); reflexivity).
  assert (L3a : lookup h3 a = Some o)
    by (unfold h3; rewrite modify_lookup_other by exact Hab; exact L2a).
  assert (L4b : lookup h4 b = Some (mk_params (m_manager o) (m_entries o) 1)).
  { unfold h4. rewrite (@copy_core_lookup_same h3 b a _ _ L3a L3b).
    unfold with_entries. simpl.
    rewrite copy_entries_fresh; [reflexivity | exact Hn | intros k _ []]. }
  assert (L4a : lookup h4 a = Some o)
    by (unfold h4; rewrite copy_core_lookup_other by exact Hab; exact L3a).
  split; [reflexivity|]. split.
  { rewrite dec_ref_lookup_other by (unfold b; lia). exact L4b. }
  split.
  { apply dec_ref_lookup_shared; [exact L4a | exact Hc]. }
  split.
  { intros c Hca Hcb. rewrite dec_ref_lookup_other by exact Hca.
    unfold h4. rewrite copy_core_lookup_other by exact Hcb.
    unfold h3. rewrite modify_lookup_other by exact Hcb.
    unfold h2, inc_ref. rewrite modify_lookup_other by exact Hcb.
    unfold h1. now apply lookup_app_other. }
  rewrite dec_ref_length. unfold h4. rewrite copy_core_length.
  unfold h3. rewrite modify_length. unfold h2, inc_ref. rewrite modify_length.
  unfold h1. rewrite length_app. simpl. lia.
Qed.

Lemma init_exclusive (h : heap) (a : nat) (o : params) :
  lookup h a = Some o -> (m_ref_count o <= 1)%N -> init h (Some a) = (h, a).
Proof.
  intros E Hc. unfold init. rewrite E.
  assert (Hlt : (1 <? m_ref_count o)%N = false) by (apply N.ltb_ge; lia).
  now rewrite Hlt.
Qed.

(** X18: [init] leaves the reference with an object of its own.  From a
    reference to a live object with distinct keys, [init] yields an object
    with reference count 1, the entries and the manager of the object the
    reference had: the object itself when no other reference shares it, and
    otherwise a new object, the shared one losing one reference. *)
Theorem init_owns (h : heap) (a : nat) (o : params) :
  lookup h a = Some o ->
  (1 <= m_ref_count o < 4294967296)%N ->
  NoDup (map fst (m_entries o)) ->
  (exists o',
      lookup (fst (init h (Some a))) (snd (init h (Some a))) = Some o'
      /\ m_ref_count o' = 1%N
      /\ m_entries o' = m_entries o
      /\ m_manager o' = m_manager o)
  /\ (m_ref_count o = 1%N -> init h (Some a) = (h, a))
  /\ ((1 < m_ref_count o)%N ->
      snd (init h (Some a)) = length h
      /\ lookup (fst (init h (Some a))) a
         = Some (with_ref_count o (m_ref_count o - 1))).
Proof.
  intros E Hc Hn.
  destruct (N.eq_dec (m_ref_count o) 1) as [H1|H1].
  - assert (Ei : init h (Some a) = (h, a))
      by (apply (@init_exclusive h a o E); lia).
    split; [|split].
    + rewrite Ei. simpl. exists o. auto.
    + intros _. exact Ei.
    + intros H. lia.
  - assert (Hs : (1 < m_ref_count o < 4294967296)%N) by lia.
    destruct (@init_shared h a o E Hs Hn) as (I1 & I2 & I3 & _ & _).
    split; [|split].
    + rewrite I1, I2. eexists. repeat split; reflexivity.
    + intros H. contradiction.
    + intros _. split; [exact I1 | exact I3].
Qed.

(** *** Sharing *)

Lemma ref_new_lookup (h : heap) (a : nat) (o : params) :
  lookup h a = Some o ->
  ref_new h (Some a) = (inc_ref h a, Some a)
  /\ lookup (inc_ref h a) a
     = Some (with_ref_count o (wrap32 (m_ref_count o + 1)))
  /\ length (inc_ref h a) = length h.
Proof.
  intros E. split; [reflexivity|]. unfold inc_ref. split.
  - now rewrite (@modify_lookup_same h a _ o E).
  - apply modify_length.
Qed.

Lemma ref_set_shared (h : heap) (a : nat) (o : params)
    (f : entries -> entries) :
  lookup h a = Some o ->
  (1 < m_ref_count o < 4294967296)%N ->
  NoDup (map fst (m_entries o)) ->
  snd (ref_set h (Some a) f) = Some (length h)
  /\ ref_entries (fst (ref_set h (Some a) f)) (Some a) = m_entries o
  /\ ref_entries (fst (ref_set h (Some a) f)) (Some (length h))
     = f (m_entries o)
  /\ lookup (fst (ref_set h (Some a) f)) a
     = Some (with_ref_count o (m_ref_count o - 1)).
Proof.
  intros E Hc Hn.
  destruct (@init_shared h a o E Hc Hn) as (I1 & I2 & I3 & _ & _).
  pose proof (@lookup_lt _ _ _ E) as Ha.
  unfold ref_set. destruct (init h (Some a)) as [h1 b] eqn:Ei.
  simpl in I1, I2, I3. subst b. simpl.
  assert (La : lookup (modify h1 (length h)
                         (fun o0 => with_entries o0 (f (m_entries o0)))) a
               = Some (with_ref_count o (m_ref_count o - 1)))
    by (rewrite modify_lookup_other by lia; exact I3).
  split; [reflexivity|]. split; [now rewrite La|]. split; [|exact La].
  now rewrite (@modify_lookup_same h1 (length h) _ _ I2).
Qed.

(** X19: a setter copies a shared object before it writes.  When a second
    reference is made to a live object and a parameter is set through it,
    the second reference moves to a new object that holds the entries of the
    shared one with the parameter set, and the first reference sees the
    entries it saw before, so every getter on it returns what it returned
    before. *)
Theorem set_copies_shared (h : heap) (a : nat) (o : params) (k : symbol)
    (v : bool) :
  lookup h a = Some o ->
  (1 <= m_ref_count o < 4294967295)%N ->
  NoDup (map fst (m_entries o)) ->
  let s1 := ref_new h (Some a) in
  let s2 := ref_set_bool (fst s1) (snd s1) k v in
  snd s1 = Some a
  /\ snd s2 <> Some a
  /\ ref_entries (fst s2) (Some a) = ref_entries h (Some a)
  /\ ref_entries (fst s2) (snd s2) = set_bool (ref_entries h (Some a)) k v
  /\ (forall d, ref_get_bool (fst s2) (snd s2) k d = v)
  /\ (forall k' d, ref_get_bool (fst s2) (Some a) k' d
                   = ref_get_bool h (Some a) k' d).
Proof.
  intros E Hc Hn s1 s2.
  destruct (@ref_new_lookup h a o E) as (N1 & N2 & N3).
  rewrite wrap32_small in N2 by lia.
  assert (Hc2 : (1 < m_ref_count (with_ref_count o (m_ref_count o + 1))
                 < 4294967296)%N) by (simpl; lia).
  destruct (@ref_set_shared (inc_ref h a) a _ (fun es => set_bool es k v)
              N2 Hc2 Hn) as (S1 & S2 & S3 & _).
  pose proof (@lookup_lt _ _ _ E) as Ha.
  assert (He : ref_entries h (Some a) = m_entries o)
    by (simpl; now rewrite E).
  subst s1 s2. rewrite N1. cbn [fst snd]. unfold ref_set_bool.
  rewrite N3 in S1, S3.
  destruct (ref_set (inc_ref h a) (Some a) (fun es => set_bool es k v))
    as [h2 b2].
  cbn [fst snd] in *. subst b2.
  change (m_entries (with_ref_count o (m_ref_count o + 1)))
    with (m_entries o) in S2, S3.
  cbv beta in S3.
  split; [reflexivity|].
  split; [intros H; inversion H; lia|].
  split; [rewrite He; exact S2|].
  split; [rewrite He; exact S3|]. split.
  - intros d. unfold ref_get_bool. rewrite S3. unfold get_bool, set_bool.
    pose proof (get_value_set_value (m_entries o) k (VBool v)) as Hg.
    simpl in Hg. now rewrite Hg.
  - intros k' d. unfold ref_get_bool. now rewrite S2, He.
Qed.

(** X20: [reset] does not copy.  When a second reference is made to a live
    object and the object is reset through it, the first reference sees the
    reset too: it is empty after [reset()], and after [reset(k)] it holds
    the entries it held without the first entry for [k]. *)
Theorem reset_reaches_sharers (h : heap) (a : nat) (o : params) (k : symbol) :
  lookup h a = Some o ->
  let s1 := ref_new h (Some a) in
  ref_empty (ref_reset (fst s1) (snd s1)) (Some a) = true
  /\ ref_entries (ref_reset_key (fst s1) (snd s1) k) (Some a)
     = reset_key (ref_entries h (Some a)) k.
Proof.
  intros E s1. destruct (@ref_new_lookup h a o E) as (N1 & N2 & _).
  subst s1. rewrite N1. cbn [fst snd]. unfold ref_reset, ref_reset_key.
  split.
  - unfold ref_empty, ref_entries.
    now rewrite (@modify_lookup_same (inc_ref h a) a _ _ N2).
  - unfold ref_entries.
    rewrite (@modify_lookup_same (inc_ref h a) a _ _ N2), E. reflexivity.
Qed.

(** X21: [copy] merges.  Copied into a reference that has an object, the
    entries of the source are set one by one: afterwards the reference
    holds, under every key of the source, what the source holds, and under
    every other key what it held before; the source is unchanged, and the
    keys stay distinct.  Copied into a null reference, the source is
    shared. *)
Theorem copy_merges (h : heap) (a s : nat) (o so : params) :
  lookup h a = Some o ->
  lookup h s = Some so ->
  s <> a ->
  (1 <= m_ref_count o < 4294967296)%N ->
  NoDup (map fst (m_entries o)) ->
  NoDup (map fst (m_entries so)) ->
  let r := ref_copy h (Some a) (Some s) in
  ref_entries (fst r) (Some s) = ref_entries h (Some s)
  /\ (forall k kind,
         get_value (ref_entries (fst r) (snd r)) k kind
         = if contains (ref_entries h (Some s)) k
           then get_value (ref_entries h (Some s)) k kind
           else get_value (ref_entries h (Some a)) k kind)
  /\ NoDup (map fst (ref_entries (fst r) (snd r)))
  /\ snd (ref_copy h None (Some s)) = Some s.
Proof.
  intros E Es Hsa Hc Hn Hns r.
  pose proof (@lookup_lt _ _ _ E) as Ha. pose proof (@lookup_lt _ _ _ Es) as Hs.
  assert (He : ref_entries h (Some a) = m_entries o)
    by (simpl; now rewrite E).
  assert (Hes : ref_entries h (Some s) = m_entries so)
    by (simpl; now rewrite Es).
  assert (Hmain :
    exists h1 b ob,
      init h (Some a) = (h1, b)
      /\ lookup h1 b = Some ob /\ m_entries ob = m_entries o
      /\ lookup h1 s = Some so /\ s <> b).
  { destruct (N.eq_dec (m_ref_count o) 1) as [H1|H1].
    - exists h, a, o. repeat split; auto.
      apply (@init_exclusive h a o E). lia.
    - assert (Hc' : (1 < m_ref_count o < 4294967296)%N) by lia.
      destruct (@init_shared h a o E Hc' Hn) as (I1 & I2 & I3 & I4 & _).
      destruct (init h (Some a)) as [h1 b] eqn:Ei. simpl in *. subst b.
      exists h1, (length h), (mk_params (m_manager o) (m_entries o) 1).
      repeat split; auto; [|lia].
      rewrite I4 by lia. exact Es. }
  destruct Hmain as (h1 & b & ob & Ei & Lb & Eb & Ls & Hsb).
  subst r. unfold ref_copy. rewrite Ei. cbn [fst snd].
  assert (Lb' : lookup (copy_core h1 b (Some s)) b
                = Some (with_entries ob
                          (fold_left copy_entry (m_entries so) (m_entries ob))))
    by apply (@copy_core_lookup_same h1 b s so ob Ls Lb).
  assert (Ls' : lookup (copy_core h1 b (Some s)) s = Some so)
    by (rewrite copy_core_lookup_other by exact Hsb; exact Ls).
  rewrite Hes, He. unfold ref_entries. rewrite Lb', Ls'. simpl. rewrite Eb.
  split; [reflexivity|]. split; [|split; [|reflexivity]].
  - intros k kind. now apply copy_entries_get.
  - now apply copy_entries_NoDup.
Qed.

(** X22: reference counting.  For a live object with a count between 1 and
    2^32 - 2: a second reference raises the count by one; assigning a
    reference to itself leaves the object alive with the count it had;
    destroying a reference lowers the count by one when the object is
    shared and deallocates the object when the reference is the last. *)
Theorem reference_counting (h : heap) (a : nat) (o : params) :
  lookup h a = Some o ->
  (1 <= m_ref_count o < 4294967295)%N ->
  lookup (fst (ref_new h (Some a))) a
  = Some (with_ref_count o (m_ref_count o + 1))
  /\ lookup (fst (ref_assign h (Some a) (Some a))) a = Some o
  /\ (m_ref_count o = 1%N -> lookup (ref_destroy h (Some a)) a = None)
  /\ ((1 < m_ref_count o)%N ->
      lookup (ref_destroy h (Some a)) a
      = Some (with_ref_count o (m_ref_count o - 1)))
  /\ (forall b, b <> a ->
        lookup (ref_destroy h (Some a)) b = lookup h b
        /\ lookup (fst (ref_new h (Some a))) b = lookup h b).
Proof.
  intros E Hc.
  assert (Li : lookup (inc_ref h a) a
               = Some (with_ref_count o (m_ref_count o + 1)))
    by (apply (@inc_ref_lookup_same h a o E); lia).
  split; [exact Li|]. split; [|split; [|split]].
  - unfold ref_assign. cbn [fst].
    rewrite (@dec_ref_lookup_shared (inc_ref h a) a _ Li) by (simpl; lia).
    unfold with_ref_count. simpl.
    replace (m_ref_count o + 1 - 1)%N with (m_ref_count o) by lia.
    now destruct o.
  - intros H1. simpl. now apply (@dec_ref_lookup_last h a o E).
  - intros H1. simpl. apply (@dec_ref_lookup_shared h a o E). lia.
  - intros b Hb. simpl. split.
    + now apply dec_ref_lookup_other.
    + unfold inc_ref. now apply modify_lookup_other.
Qed.

(** ** The theorems on objects, on the examples *)

Lemma models_entries_NoDup : NoDup (map fst models_entries).
Proof. repeat constructor. intros []. Defined.

Lemma init_owns_witness :
  lookup shared_object 0 = Some (mk_params None timeout_entries 2)
  /\ (exists o',
         lookup (fst (init shared_object (Some 0)))
           (snd (init shared_object (Some 0))) = Some o'
         /\ m_ref_count o' = 1%N
         /\ m_entries o' = timeout_entries
         /\ m_manager o' = None)
  /\ snd (init shared_object (Some 0)) = 1
  /\ lookup (fst (init shared_object (Some 0))) 0
     = Some (mk_params None timeout_entries 1).
Proof.
  assert (E : lookup shared_object 0 = Some (mk_params None timeout_entries 2))
    by reflexivity.
  assert (Hc : (1 <= m_ref_count (mk_params None timeout_entries 2)
                < 4294967296)%N) by (simpl; lia).
  destruct (@init_owns shared_object 0 (mk_params None timeout_entries 2)
              E Hc timeout_entries_NoDup) as (H1 & _ & H3).
  split; [exact E|]. split; [exact H1|].
  apply H3. simpl. lia.
Defined.

Lemma set_copies_shared_witness :
  lookup two_objects 0 = Some (mk_params None timeout_entries 1)
  /\ snd (ref_set_bool (fst (ref_new two_objects (Some 0)))
            (snd (ref_new two_objects (Some 0))) k_models true) <> Some 0
  /\ ref_entries
       (fst (ref_set_bool (fst (ref_new two_objects (Some 0)))
               (snd (ref_new two_objects (Some 0))) k_models true))
       (Some 0)
     = ref_entries two_objects (Some 0)
  /\ forall d,
       ref_get_bool
         (fst (ref_set_bool (fst (ref_new two_objects (Some 0)))
                 (snd (ref_new two_objects (Some 0))) k_models true))
         (snd (ref_set_bool (fst (ref_new two_objects (Some 0)))
                 (snd (ref_new two_objects (Some 0))) k_models true))
         k_models d = true.
Proof.
  assert (E : lookup two_objects 0 = Some (mk_params None timeout_entries 1))
    by reflexivity.
  assert (Hc : (1 <= m_ref_count (mk_params None timeout_entries 1)
                < 4294967295)%N) by (simpl; lia).
  destruct (@set_copies_shared two_objects 0
              (mk_params None timeout_entries 1) k_models true
              E Hc timeout_entries_NoDup) as (_ & H2 & H3 & _ & H5 & _).
  split; [exact E|]. split; [exact H2|]. split; [exact H3 | exact H5].
Defined.

Lemma reset_reaches_sharers_witness :
  lookup two_objects 0 = Some (mk_params None timeout_entries 1)
  /\ ref_empty two_objects (Some 0) = false
  /\ ref_empty
       (ref_reset (fst (ref_new two_objects (Some 0)))
          (snd (ref_new two_objects (Some 0)))) (Some 0) = true
  /\ ref_entries
       (ref_reset_key (fst (ref_new two_objects (Some 0)))
          (snd (ref_new two_objects (Some 0))) k_timeout) (Some 0)
     = reset_key (ref_entries two_objects (Some 0)) k_timeout.
Proof.
  assert (E : lookup two_objects 0 = Some (mk_params None timeout_entries 1))
    by reflexivity.
  split; [exact E|]. split; [reflexivity|].
  exact (@reset_reaches_sharers two_objects 0
           (mk_params None timeout_entries 1) k_timeout E).
Defined.

Lemma copy_merges_witness :
  lookup two_objects 0 = Some (mk_params None timeout_entries 1)
  /\ lookup two_objects 1 = Some (mk_params None models_entries 1)
  /\ ref_entries (fst (ref_copy two_objects (Some 0) (Some 1))) (Some 1)
     = ref_entries two_objects (Some 1)
  /\ (forall k kind,
         get_value
           (ref_entries (fst (ref_copy two_objects (Some 0) (Some 1)))
              (snd (ref_copy two_objects (Some 0) (Some 1)))) k kind
         = if contains (ref_entries two_objects (Some 1)) k
           then get_value (ref_entries two_objects (Some 1)) k kind
           else get_value (ref_entries two_objects (Some 0)) k kind)
  /\ NoDup (map fst
              (ref_entries (fst (ref_copy two_objects (Some 0) (Some 1)))
                 (snd (ref_copy two_objects (Some 0) (Some 1)))))
  /\ snd (ref_copy two_objects None (Some 1)) = Some 1.
Proof.
  assert (E : lookup two_objects 0 = Some (mk_params None timeout_entries 1))
    by reflexivity.
  assert (Es : lookup two_objects 1 = Some (mk_params None models_entries 1))
    by reflexivity.
  assert (Hsa : 1 <> 0) by lia.
  assert (Hc : (1 <= m_ref_count (mk_params None timeout_entries 1)
                < 4294967296)%N) by (simpl; lia).
  split; [exact E|]. split; [exact Es|].
  exact (@copy_merges two_objects 0 1 (mk_params None timeout_entries 1)
           (mk_params None models_entries 1) E Es Hsa Hc
           timeout_entries_NoDup models_entries_NoDup).
Defined.

Lemma reference_counting_witness :
  lookup two_objects 0 = Some (mk_params None timeout_entries 1)
  /\ lookup (fst (ref_new two_objects (Some 0))) 0
     = Some (mk_params None timeout_entries 2)
  /\ lookup (fst (ref_assign two_objects (Some 0) (Some 0))) 0
     = Some (mk_params None timeout_entries 1)
  /\ lookup (ref_destroy two_objects (Some 0)) 0 = None.
Proof.
  assert (E : lookup two_objects 0 = Some (mk_params None timeout_entries 1))
    by reflexivity.
  assert (Hc : (1 <= m_ref_count (mk_params None timeout_entries 1)
                < 4294967295)%N) by (simpl; lia).
  destruct (@reference_counting two_objects 0
              (mk_params None timeout_entries 1) E Hc)
    as (H1 & H2 & H3 & _ & _).
  split; [exact E|]. split; [exact H1|]. split; [exact H2|].
  apply H3. reflexivity.
Defined.

End ParamStoreFacts.

(** * The variable-free host meets the laws, and runs of the pass on it *)

Module GroundRuns.

Import Ground.

Unset Implicit Arguments.

(** a run on a concrete input is settled by evaluation *)
Ltac by_run := vm_compute; reflexivity.

Lemma args_eqb_eq (x y : list nat) : args_eqb x y = true <-> x = y.
Proof.
  revert y. induction x as [|a x IH]; intros [|b y]; simpl;
    try (split; [discriminate|discriminate]); try tauto.
  rewrite andb_true_iff, Nat.eqb_eq, IH. split.
  - intros [-> ->]; reflexivity.
  - intros E; inversion E; auto.
Qed.

Lemma gapp_eqb_eq (a b : gapp) : gapp_eqb a b = true <-> a = b.
Proof.
  destruct a as [d x|i q s], b as [e y|j r t]; simpl;
    try (split; discriminate).
  - rewrite andb_true_iff, decl_eqb_eq, args_eqb_eq. split.
    + intros [-> ->]; reflexivity.
    + intros E; inversion E; auto.
  - rewrite !andb_true_iff, Nat.eqb_eq, !Bool.eqb_true_iff. split.
    + intros [[-> ->] ->]; reflexivity.
    + intros E; inversion E; auto.
Qed.

#[export] Instance ground_laws : HostLaws ground_host.
Proof.
  constructor.
  - exact gapp_eqb_eq.
  - reflexivity.
  - reflexivity.
  - reflexivity.
  - reflexivity.
  - intros r r' E. simpl in E. unfold g_simplifier in E.
    destruct (forallb g_satisfiable (interp_tail r)); inversion E; reflexivity.
Qed.

(** ** The variable-free rule manager meets the laws of resolution *)

Lemma filtered_fst (P : gapp -> bool) (Q : gapp * bool -> bool)
    (l : list (gapp * bool)) :
  (forall x, Q x = true -> P (fst x) = true) ->
  forallb P (map fst (filter Q l)) = true.
Proof.
  intros H. apply forallb_forall. intros a Ha.
  apply in_map_iff in Ha. destruct Ha as (x & <- & Hx).
  apply filter_In in Hx. apply H. exact (proj2 Hx).
Qed.

Lemma g_mk_positive (l : list (gapp * bool)) :
  map fst (filter (fun x => is_atom (fst x) && negb (snd x)) l)
  = filter is_atom (map fst (filter (fun x => negb (snd x)) l)).
Proof.
  induction l as [|[a b] l IH]; [reflexivity|].
  simpl. destruct b; simpl.
  - rewrite andb_false_r. exact IH.
  - rewrite andb_true_r. destruct (is_atom a); simpl; now rewrite IH.
Qed.

#[export] Instance ground_resolution : ResolutionLaws is_atom.
Proof.
  constructor.
  - intros s d o a. split; reflexivity.
  - intros h tail neg. split.
    + unfold wf_rule. simpl. rewrite !andb_true_iff. repeat split.
      * apply filtered_fst. intros x Hx. apply andb_true_iff in Hx. tauto.
      * apply filtered_fst. intros x Hx. apply andb_true_iff in Hx. tauto.
      * apply filtered_fst. intros x Hx. exact Hx.
    + intros f. simpl. unfold positive_entries. rewrite g_mk_positive. lia.
  - intros r W. split; [exact W | reflexivity].
  - intros r W. split; [exact W | intros f; simpl; lia].
  - intros r r' W E. simpl in E. unfold g_simplifier in E.
    destruct (forallb g_satisfiable (interp_tail r)); inversion E; subst.
    split; [exact W | intros f; lia].
Qed.

(** ** Bulk inlining of [Out(1) :- P(1).  P(1) :- Q(1).] *)

Lemma transform_rules_terminates_witness :
  exists st1 n st' res sd,
    plan_inlining 20 st_out resolved_source = Done st1
    /\ plan_eq st1 st'
    /\ forall fuel, n <= fuel ->
         transform_rules fuel st1 resolved_source [] false = Done (st', res, sd).
Proof.
  let v := eval vm_compute in (plan_inlining 20 st_out resolved_source) in
  match v with
  | Done ?a =>
      exists a;
      assert (E1 : plan_inlining 20 st_out resolved_source = Done a) by by_run;
      assert (W : forall r, In r resolved_source -> wf_rule is_atom r = true)
        by (intros r Hr; repeat destruct Hr as [<-|Hr];
            try reflexivity; destruct Hr);
      assert (S : inlined_settled is_atom a)
        by (intros c Hc; repeat destruct Hc as [<-|Hc];
            try (split; vm_compute; reflexivity); destruct Hc);
      destruct (@transform_rules_terminates gapp ground_host is_atom
                  ground_resolution resolved_source W a [] false S)
        as (n & st' & res & sd & He & F);
      exists n, st', res, sd; split; [exact E1|]; split; [exact He | exact F]
  end.
Defined.

Lemma plan_strata_terminates_witness :
  exists n st',
    plan_eq st_resolved st'
    /\ inlined_settled is_atom st'
    /\ forall fuel, n <= fuel ->
         plan_strata fuel st_resolved (allowed_rules st_resolved resolved_source)
           [(pP, [])] = Done st'.
Proof.
  apply (@plan_strata_terminates gapp ground_host is_atom ground_resolution
           (allowed_rules st_resolved resolved_source) [(pP, [])]).
  - intros r Hr. vm_compute in Hr. repeat destruct Hr as [<-|Hr];
      try reflexivity; destruct Hr.
  - intros c Hc. vm_compute in Hc. destruct Hc.
Defined.

Lemma transform_rules_settled_witness :
  exists st1 st' res sd,
    plan_inlining 20 st_out resolved_source = Done st1
    /\ transform_rules 20 st1 resolved_source [] false = Done (st', res, sd)
    /\ res <> []
    /\ forall x, In x res ->
         In x [] \/ (has_quantifier x = false /\ admissible_tails st1 x = 0).
Proof.
  let v := eval vm_compute in (plan_inlining 20 st_out resolved_source) in
  match v with
  | Done ?a =>
      exists a;
      assert (E1 : plan_inlining 20 st_out resolved_source = Done a) by by_run;
      let w := eval vm_compute in (transform_rules 20 a resolved_source [] false) in
      match w with
      | Done (?b, ?c, ?d) =>
          exists b, c, d;
          assert (E2 : transform_rules 20 a resolved_source [] false = Done (b, c, d))
            by by_run;
          split; [exact E1|]; split; [exact E2|];
          split; [intros Hd; discriminate Hd|];
          exact (@transform_rules_settled gapp ground_host 20 resolved_source
                   a [] false b c d E2)
      end
  end.
Defined.

(** ** C1 and C2: rules of output predicates that leave the rule set *)



(** C2: a rule with a quantifier in its interpreted tail is dropped by bulk
    inlining, although nothing is inlined into it: [transform_rule] adds
    nothing for it, and the pass, which has something else to do on this
    input, returns a rule set without it; and the eager inliner deletes a
    rule when the candidate, not the rule, holds the quantifier. *)
Example quantified_rule_dropped :
  has_quantifier quantified_rule = true
  /\ is_output_predicate ctx_out (get_decl quantified_rule) = true
  /\ transform_rule 20 st_out quantified_rule (ToRuleSet [])
     = Done (st_out, ToRuleSet [], false)
  /\ (exists st',
         run 20 st_out quantified_source None None
         = Done (st', Some [rule_of (atom1 pOut2 1) [atom1 pQ 1] [] []], None, None))
  /\ has_quantifier (rule_of (atom1 pOut 1) [atom1 pP 1] [] []) = false
  /\ do_eager_inlining_rule st_out (rule_of (atom1 pOut 1) [atom1 pP 1] [] [])
       quantified_callee (strat_of quantified_callee)
     = (st_out, rule_of (atom1 pOut 1) [atom1 pP 1] [] [], Some None).
Proof.
  repeat split; try reflexivity.
  eexists. vm_compute. reflexivity.
Qed.

(** ** C3: the eager inliner resolves with the rule of a negated predicate *)

Lemma eager_inlines_negated :
  negated_in negated_source pP
  /\ exists st' res steps,
       run 20 st_out negated_source None (Some (pc_of_host 0))
       = Done (st', Some res, None,
               Some (pc_concat (pc_of_host 0) (replace_proof_converter steps)))
       /\ exists step, In step steps /\ get_decl (rs_src step) = pP.
Proof.
  split.
  - exists (rule_of (atom1 pOut2 1) [] [atom1 pP 1] []), (atom1 pP 1).
    repeat split; [right; left; reflexivity | left; reflexivity].
  - eexists; eexists; eexists. split; [vm_compute; reflexivity|].
    eexists. split; [left; reflexivity | reflexivity].
Qed.

Lemma negated_source_negates_P : negated_in negated_source pP.
Proof.
  exists (rule_of (atom1 pOut2 1) [] [atom1 pP 1] []), (atom1 pP 1).
  repeat split; [right; left; reflexivity | left; reflexivity].
Defined.

Lemma bulk_never_inlines_negated_witness :
  exists st1 st2 res sd,
    plan_inlining 20 (with_converters st_out None (Some (pc_of_host 0)))
      negated_source = Done st1
    /\ transform_rules 20 st1 negated_source [] false = Done (st2, res, sd)
    /\ inlining_allowed st1 pP = false
    /\ sources_in (fun c => get_decl c <> pP) st2.
Proof.
  let v := eval vm_compute in
             (plan_inlining 20 (with_converters st_out None (Some (pc_of_host 0)))
                negated_source) in
  match v with
  | Done ?a =>
      exists a;
      assert (E1 : plan_inlining 20
                     (with_converters st_out None (Some (pc_of_host 0)))
                     negated_source = Done a) by by_run;
      let w := eval vm_compute in (transform_rules 20 a negated_source [] false) in
      match w with
      | Done (?b, ?c, ?d) =>
          exists b, c, d;
          assert (E2 : transform_rules 20 a negated_source [] false = Done (b, c, d))
            by by_run
      end
  end.
  assert (H0 : sources_in (fun c : rule gapp => get_decl c <> pP)
                 (with_converters st_out None (Some (pc_of_host 0)))).
  { intros step []. }
  destruct (@bulk_never_inlines_negated gapp ground_host 20
              (with_converters st_out None (Some (pc_of_host 0))) negated_source
              _ _ _ _ pP negated_source_negates_P H0 E1 E2)
    as (H1 & _ & _ & _ & H2).
  repeat split; assumption.
Defined.

(** ** C5: orientation *)

Lemma chain_strat_respected :
  forall c, In c chain_source -> stratum_respected chain_strat c.
Proof.
  intros c [<-|[<-|[]]] a [<-|[]]; vm_compute; lia.
Defined.

Lemma oriented_rewriter_eager_witness :
  (is_oriented_rewriter (rule_of (atom1 pP 1) [atom1 pR 1] [] []) chain_strat = true
   <-> oriented_criterion chain_strat (rule_of (atom1 pP 1) [atom1 pR 1] [] []))
  /\ exists ti a c,
       nth_error [atom1 pP 1] ti = Some a
       /\ In c chain_source
       /\ get_decl c = app_decl a
       /\ is_oriented_rewriter c chain_strat = true
       /\ oriented_criterion chain_strat c
       /\ try_to_inline_rule st_out (rule_of (atom1 pOut 1) [atom1 pP 1] [] []) c ti
          = (st_out, rule_of (atom1 pOut 1) [atom1 pP 1] [] [],
             Some (rule_of (atom1 pOut 1) [atom1 pR 1] [] [])).
Proof.
  destruct (@oriented_rewriter_eager gapp ground_host chain_strat) as [H1 H2].
  split.
  - apply H1. apply chain_strat_respected. right; left; reflexivity.
  - apply (H2 st_out (rule_of (atom1 pOut 1) [atom1 pP 1] [] []) chain_source
              st_out (rule_of (atom1 pOut 1) [atom1 pP 1] [] [])
              (rule_of (atom1 pOut 1) [atom1 pR 1] [] [])
              chain_strat_respected).
    by_run.
Defined.

(** ** C6: the multiplier guard *)

Lemma multiplier_guard_step_witness :
  exists st',
    multiplier_tail pS false (mk_multiplier_vars st_multiplier false false) pP
    = (mk_multiplier_vars st' true false, false)
    /\ ctr_get (m_head_pred_ctr st_multiplier) pS = 1%N
    /\ ctr_get (m_head_pred_ctr st_multiplier) pP = 2%N
    /\ ctr_get (m_head_pred_ctr st') pS = 2%N.
Proof.
  assert (Ha : inlining_allowed st_multiplier pP = true) by reflexivity.
  assert (Hc : (1 < ctr_get (m_head_pred_ctr st_multiplier) pP)%N) by reflexivity.
  assert (Hi : multiplier_inv pS (mk_multiplier_vars st_multiplier false false)).
  { intros _. apply N.leb_le. reflexivity. }
  destruct (@multiplier_guard_step gapp ground_host st_multiplier pS pP false false
              Ha Hc Hi) as (_ & _ & H).
  destruct (H eq_refl eq_refl) as (st' & E & Hp & _).
  exists st'. repeat split; [exact E | exact Hp].
Defined.

(** ** C8: the result of the pass *)



(** ** C9: deletion by the eager inliner *)

Lemma eager_deletes_rule_witness :
  do_eager_inlining_rule st_mc (rule_of (atom1 pOut 1) [atom1 pP 1] [] [])
    dangling_source (strat_of dangling_source)
  = (mc_del_rule st_mc (rule_of (atom1 pOut 1) [atom1 pP 1] [] []),
     rule_of (atom1 pOut 1) [atom1 pP 1] [] [], Some None)
  /\ m_mc (mc_del_rule st_mc (rule_of (atom1 pOut 1) [atom1 pP 1] [] []))
     = Some [rule_of (atom1 pOut 1) [atom1 pP 1] [] []].
Proof.
  assert (Hskip : forall k b, nth_error (@nil gapp) k = Some b ->
            eager_skips st_mc (rule_of (atom1 pOut 1) [atom1 pP 1] [] [])
              dangling_source (strat_of dangling_source) k b = true).
  { intros [|k] b E; discriminate E. }
  assert (Hne : app_decl (atom1 pP 1)
                <> get_decl (rule_of (atom1 pOut 1) [atom1 pP 1] [] []))
    by discriminate.
  destruct (@eager_deletes_rule gapp ground_host st_mc
              (rule_of (atom1 pOut 1) [atom1 pP 1] [] []) dangling_source
              (strat_of dangling_source) [] (atom1 pP 1) [] eq_refl Hskip Hne eq_refl)
    as (H1 & _ & _ & H4).
  split.
  - apply H1. reflexivity.
  - apply (H4 st_mc (rule_of (atom1 pOut 1) [atom1 pP 1] [] []) []). reflexivity.
Defined.

(** C9 as stated fails: [P] has one rule, [P(2) :- P(1)], with which the
    tail atom [P(1)] cannot be resolved, yet the rule [Out(1) :- P(1)] is
    kept, because that rule is not an oriented rewriter *)
Lemma eager_keeps_rule_without_inline :
  nth_error (pos_tail (rule_of (atom1 pOut 1) [atom1 pP 1] [] [])) 0
  = Some (atom1 pP 1)
  /\ app_decl (atom1 pP 1) <> get_decl (rule_of (atom1 pOut 1) [atom1 pP 1] [] [])
  /\ contains (m_preds_with_facts st_out) (app_decl (atom1 pP 1)) = false
  /\ close recursive_source = Some (strat_of recursive_source)
  /\ (forall c, In c (get_predicate_rules recursive_source pP) ->
                snd (try_to_inline_rule st_out
                       (rule_of (atom1 pOut 1) [atom1 pP 1] [] []) c 0) = None)
  /\ do_eager_inlining_rule st_out (rule_of (atom1 pOut 1) [atom1 pP 1] [] [])
       recursive_source (strat_of recursive_source)
     = (st_out, rule_of (atom1 pOut 1) [atom1 pP 1] [] [], None).
Proof.
  repeat split; try reflexivity; try discriminate.
  intros c [<-|[]]. reflexivity.
Qed.

(** ** C10: the tail index of the linear inliner *)

Lemma linear_tail_index_counts_negated_witness :
  (exists s,
      linear_steps 5 st_branch branch_source = [s]
      /\ ls_i s = 0 /\ ls_j s = 1 /\ ls_k s = 2
      /\ In 2 (unifiers (m_tail_index (ls_lin s)) (tail_positions (ls_lin s))
                 (atom0 pB)))
  /\ (exists st' out,
         inline_linear 5 st_branch branch_source = Done (st', out, true)
         /\ In (rule_of (atom0 pB) [atom0 pC] [] []) out)
  /\ (exists s st' out,
         linear_steps 5 st_chain chain_source = [s]
         /\ ls_i s = 0 /\ ls_j s = 1 /\ ls_k s = 1
         /\ inline_linear 5 st_chain chain_source = Done (st', out, true)
         /\ ~ In (rule_of (atom1 pP 1) [atom1 pR 1] [] []) out).
Proof.
  destruct (@linear_tail_index_counts_negated gapp ground_host ground_laws)
    as (_ & _ & _ & H2 & H3 & _).
  split; [|split].
  - let v := eval vm_compute in (linear_steps 5 st_branch branch_source) in
    match v with
    | [?s] =>
        exists s;
        assert (E : linear_steps 5 st_branch branch_source = [s]) by by_run;
        split; [exact E|]; do 3 (split; [reflexivity|]);
        destruct (H2 5 st_branch branch_source s)
          as (st1 & lin1 & r2 & _ & Hr2 & _ & Hcov & _);
        [rewrite E; left; reflexivity|];
        vm_compute in Hr2; injection Hr2 as <-;
        destruct (Hcov 2 (rule_of (atom0 pD) [] [atom0 pB] []))
          as (r0 & Hr0 & Hun); [reflexivity | reflexivity |];
        assert (Er0 : r0 = rule_of (atom0 pD) [] [atom0 pB] [])
          by (destruct Hr0 as [Hr0|[_ Hr0]]; symmetry; exact Hr0);
        subst r0;
        apply (Hun (atom0 pB)); [right; left; reflexivity | reflexivity]
    end.
  - let v := eval vm_compute in (inline_linear 5 st_branch branch_source) in
    match v with
    | Done (?a, ?o, _) =>
        exists a, o;
        assert (E : inline_linear 5 st_branch branch_source = Done (a, o, true))
          by by_run;
        split; [exact E|];
        destruct (H3 5 st_branch branch_source a o true E)
          as (_ & lin' & Hfor & _ & _ & _ & Hin);
        apply (Hin eq_refl);
        vm_compute in Hfor; injection Hfor as <-;
        exists 1; split; [reflexivity|];
        intros (s & Hs & _ & Hk);
        vm_compute in Hs; destruct Hs as [<-|[]];
        vm_compute in Hk; discriminate Hk
    end.
  - let v := eval vm_compute in (linear_steps 5 st_chain chain_source) in
    let w := eval vm_compute in (inline_linear 5 st_chain chain_source) in
    match v with
    | [?s] =>
        match w with
        | Done (?a, ?o, _) =>
            exists s, a, o;
            assert (Es : linear_steps 5 st_chain chain_source = [s]) by by_run;
            assert (E : inline_linear 5 st_chain chain_source = Done (a, o, true))
              by by_run;
            split; [exact Es|]; do 3 (split; [reflexivity|]);
            split; [exact E|];
            destruct (H3 5 st_chain chain_source a o true E)
              as (_ & lin' & Hfor & _ & _ & _ & Hin);
            intros HIn; apply (Hin eq_refl) in HIn;
            destruct HIn as (m & Hm & Hn);
            vm_compute in Hfor; injection Hfor as <-;
            destruct m as [|[|m]];
            [vm_compute in Hm; discriminate Hm
            | apply Hn; exists s; rewrite Es; split;
              [left; reflexivity | split; reflexivity]
            | destruct m; vm_compute in Hm; discriminate Hm]
        end
    end.
Defined.

(** ** C7: the linear inliner with branching does not terminate *)

Lemma linear_while_S (fuel : nat) (st : inliner gapp) (lin : linear gapp)
    (b : bool) (i : nat) (d : bool) :
  linear_while (S fuel) st lin b i d
  = match linear_round_at st lin b i with
    | LBreak st' lin' => Done (st', lin', d)
    | LInlined st' lin' _ _ => linear_while fuel st' lin' b i true
    end.
Proof. reflexivity. Qed.

Lemma linear_for_S (fuel : nat) (st : inliner gapp) (lin : linear gapp)
    (b : bool) (i n : nat) (d : bool) :
  linear_for fuel st lin b i (S n) d
  = (do (st', lin', done') <- linear_while fuel st lin b i d ;
     linear_for fuel st' lin' b (S i) n done').
Proof. reflexivity. Qed.

Lemma loop_plan (f : nat) :
  plan_inlining (S f) (with_converters st_loop None None) loop_source
  = Done st_loop_plan.
Proof. by_run. Qed.

Lemma loop_bulk (f : nat) :
  transform_rules (S (S f)) st_loop_plan loop_source [] false
  = Done (st_loop_plan, loop_source, false).
Proof. by_run. Qed.

Lemma loop_close : close loop_source = Some (strat_of loop_source).
Proof. reflexivity. Qed.

Lemma loop_eager (f : nat) :
  do_eager_inlining (S f) st_loop_plan loop_source (strat_of loop_source)
  = Done (st_loop_plan, loop_source, false).
Proof. by_run. Qed.

Lemma loop_round_first :
  linear_round_at st_loop_plan (linear_init st_loop_plan loop_source) true 0
  = LInlined st_loop_plan lin_loop 1 3.
Proof. by_run. Qed.

(** the round at position 0 reproduces the state it started from *)
Lemma loop_round_again :
  linear_round_at st_loop_plan lin_loop true 0
  = LInlined st_loop_plan lin_loop 1 3.
Proof. by_run. Qed.

Lemma loop_while (n : nat) :
  forall d, linear_while n st_loop_plan lin_loop true 0 d = OutOfFuel.
Proof.
  induction n as [|n IH]; intros d; [reflexivity|].
  rewrite linear_while_S, loop_round_again. apply IH.
Qed.

Lemma loop_linear (f : nat) :
  inline_linear (S f) st_loop_plan loop_source = OutOfFuel.
Proof.
  unfold inline_linear.
  replace (Params.ref_get_bool (get_params (m_context st_loop_plan))
             ":inline-linear-branch" false) with true by reflexivity.
  replace (length loop_source) with 3 by reflexivity.
  rewrite linear_for_S, linear_while_S, loop_round_first, loop_while.
  reflexivity.
Qed.

(** C7: with [:inline-linear-branch] on, the pass does not return on the
    rules [A :- B.  B :- B.  D :- not B.] with the output predicates [A] and
    [D]: whatever the fuel, the loop of the linear inliner at position 0
    uses it up, each round resolving [A :- B] with [B :- B] into [A :- B]
    again.  With the flag off the pass returns on the same rules. *)
Theorem linear_branching_diverges :
  (forall fuel, run fuel st_loop loop_source None None = OutOfFuel)
  /\ run 3 (fresh_inliner (ctx_of [pA; pD] [] None)) loop_source None None
     = Done (count_pred_occurrences
               (with_converters (fresh_inliner (ctx_of [pA; pD] [] None)) None None)
               loop_source,
             None, None, None).
Proof.
  split; [|by_run].
  intros [|[|f]]; [by_run | by_run |].
  unfold run. fold (with_converters st_loop None None).
  change (length loop_source =? 0) with false. cbv iota.
  rewrite loop_plan. cbn [obind].
  rewrite loop_bulk. cbn [obind].
  rewrite loop_close.
  rewrite loop_eager. cbn [obind].
  replace (Params.ref_get_bool (get_params (m_context st_loop_plan))
             ":inline-linear" true) with true by reflexivity.
  rewrite loop_linear. reflexivity.
Qed.

(** ** The analysis before planning, on [Out(1) :- P(1).  P(1) :- Q(1).] *)

Lemma count_pred_occurrences_counts_witness :
  (ctr_get (m_head_pred_ctr st_out) pP < 4294967296)%N
  /\ (ctr_get (m_tail_pred_ctr st_out) pP < 4294967296)%N
  /\ ctr_get (m_head_pred_ctr (count_pred_occurrences st_out resolved_source)) pP
     = wrap32 (ctr_get (m_head_pred_ctr st_out) pP
               + N.of_nat (length (get_predicate_rules resolved_source pP)))
  /\ ctr_get (m_tail_pred_ctr (count_pred_occurrences st_out resolved_source)) pP
     = wrap32 (ctr_get (m_tail_pred_ctr st_out) pP
               + N.of_nat (tail_occurrences resolved_source pP)).
Proof.
  assert (H1 : (ctr_get (m_head_pred_ctr st_out) pP < 4294967296)%N)
    by reflexivity.
  assert (H2 : (ctr_get (m_tail_pred_ctr st_out) pP < 4294967296)%N)
    by reflexivity.
  split; [exact H1|]. split; [exact H2|].
  exact (@count_pred_occurrences_counts gapp ground_host st_out
           resolved_source pP H1 H2).
Defined.

(** ** The source of an eager resolution, on the chain *)

Lemma eager_inlining_source_witness :
  do_eager_inlining_rule st_out (rule_of (atom1 pOut 1) [atom1 pP 1] [] [])
    chain_source chain_strat
  = (st_out, rule_of (atom1 pOut 1) [atom1 pP 1] [] [],
     Some (Some (rule_of (atom1 pOut 1) [atom1 pR 1] [] [])))
  /\ exists ti a c,
       nth_error [atom1 pP 1] ti = Some a
       /\ In c chain_source
       /\ get_decl c = app_decl a
       /\ app_decl a <> pOut
       /\ contains (m_preds_with_facts st_out) (app_decl a) = false
       /\ (forall b, In b (pos_tail c) -> app_decl b <> get_decl c)
       /\ try_to_inline_rule st_out
            (rule_of (atom1 pOut 1) [atom1 pP 1] [] []) c ti
          = (st_out, rule_of (atom1 pOut 1) [atom1 pP 1] [] [],
             Some (rule_of (atom1 pOut 1) [atom1 pR 1] [] [])).
Proof.
  assert (E : do_eager_inlining_rule st_out
                (rule_of (atom1 pOut 1) [atom1 pP 1] [] [])
                chain_source chain_strat
              = (st_out, rule_of (atom1 pOut 1) [atom1 pP 1] [] [],
                 Some (Some (rule_of (atom1 pOut 1) [atom1 pR 1] [] []))))
    by by_run.
  split; [exact E|].
  exact (@eager_inlining_source gapp ground_host st_out
           (rule_of (atom1 pOut 1) [atom1 pP 1] [] []) chain_source
           chain_strat _ _ _ E).
Defined.

(** ** The cycle breaker, on [A :- B.  B :- C.  C :- B.] *)

Lemma break_cycles_acyclic_witness :
  exists c st' c',
    create_allowed_rule_set st_mutual mutual_source = Done c
    /\ get_strats (snd c) = [(pB, [pC])]
    /\ break_cycles 5 st_mutual mutual_source c = Done (st', c')
    /\ m_forbidden_preds st' = [pB]
    /\ (forall s, In s (get_strats (snd c')) -> snd s = [])
    /\ ((st' = st_mutual /\ c' = c)
        \/ create_allowed_rule_set st' mutual_source = Done c').
Proof.
  let v := eval vm_compute in (create_allowed_rule_set st_mutual mutual_source) in
  match v with
  | Done ?a =>
      exists a;
      assert (E1 : create_allowed_rule_set st_mutual mutual_source = Done a)
        by by_run;
      let w := eval vm_compute in (break_cycles 5 st_mutual mutual_source a) in
      match w with
      | Done (?b, ?c) =>
          exists b, c;
          assert (E2 : break_cycles 5 st_mutual mutual_source a = Done (b, c))
            by by_run;
          split; [exact E1|]; split; [reflexivity|]; split; [exact E2|];
          split; [reflexivity|];
          exact (@break_cycles_acyclic gapp ground_host mutual_source 5
                   st_mutual a b c E2)
      end
  end.
Defined.

(** ** The linear inliner without branching, on
    [Out(1) :- P(1).  P(1) :- Q(1).] *)


(** ** The multiplier guard on [S(1) :- P(1), R(1).] *)

Lemma multiplier_orig_rule_bound_witness :
  inlining_allowed st_two_multipliers pS = false
  /\ length (filter (is_multiplier st_two_multipliers)
               [atom1 pP 1; atom1 pR 1]) = 2
  /\ length
       (filter
          (is_multiplier
             (fst (multiplier_orig_rule (st_two_multipliers, false)
                     (rule_of (atom1 pS 1) [atom1 pP 1; atom1 pR 1] [] []))))
          [atom1 pP 1; atom1 pR 1]) <= 1.
Proof.
  assert (H1 : inlining_allowed st_two_multipliers pS = false) by by_run.
  split; [exact H1|]. split; [by_run|].
  exact (@multiplier_orig_rule_bound gapp ground_host
           (st_two_multipliers, false)
           (rule_of (atom1 pS 1) [atom1 pP 1; atom1 pR 1] [] []) H1).
Defined.

(** ** The head predicates of the bulk result, on
    [Out(1) :- P(1).  P(1) :- Q(1).] *)

Lemma transform_rules_heads_witness :
  exists st1 st' res sd,
    plan_inlining 20 st_out resolved_source = Done st1
    /\ transform_rules 20 st1 resolved_source [] false = Done (st', res, sd)
    /\ res <> []
    /\ forall x, In x res ->
         In x []
         \/ exists r, In r resolved_source
                      /\ inlining_allowed st1 (get_decl r) = false
                      /\ get_decl x = get_decl r.
Proof.
  let v := eval vm_compute in (plan_inlining 20 st_out resolved_source) in
  match v with
  | Done ?a =>
      exists a;
      assert (E1 : plan_inlining 20 st_out resolved_source = Done a) by by_run;
      let w := eval vm_compute in
                 (transform_rules 20 a resolved_source [] false) in
      match w with
      | Done (?b, ?c, ?d) =>
          exists b, c, d;
          assert (E2 : transform_rules 20 a resolved_source [] false
                       = Done (b, c, d)) by by_run;
          split; [exact E1|]; split; [exact E2|];
          split; [intros Hd; discriminate Hd|];
          exact (@transform_rules_heads gapp ground_host ground_laws 20
                   resolved_source a [] false b c d E2)
      end
  end.
Defined.

(** ** The answer of [transform_rule] on [Out(1) :- P(1).] and on a
    quantified rule *)

Lemma transform_rule_modified_witness :
  exists st', 
    transform_rule 20 st_resolved quantified_rule (ToRuleSet [])
    = Done (st', ToRuleSet [], false)
    /\ (false = true
        <-> has_quantifier quantified_rule = false
            /\ exists i pred,
                 first_allowed_from st_resolved 0 (pos_tail quantified_rule)
                 = Some (i, pred)).
Proof.
  exists st_resolved.
  assert (E : transform_rule 20 st_resolved quantified_rule (ToRuleSet [])
              = Done (st_resolved, ToRuleSet [], false)) by by_run.
  split; [exact E|].
  exact (@transform_rule_modified gapp ground_host 20 st_resolved
           quantified_rule (ToRuleSet []) st_resolved (ToRuleSet []) false E).
Defined.

End GroundRuns.
